(** * ed-exo-db-bootstrap: the codex loader and the schema normalizer

    A shallow embedding of the two scripts of [src/index.js]:

    - the loader ([createTable], [insertData], [main]), which streams the
      values of [codex.json], keeps the records whose [hud_category] is
      ["Biology"] and inserts them into [codex_entries] in batches of 1000;
    - the normalizer ([createNormalizedTables], [normalizeData],
      [cleanUpColumns], [main]), which builds [species], [regions],
      [systems] and [bodies] from the flat table, back-fills the foreign
      keys and drops the superseded columns.

    Modelling decisions.

    - JavaScript values are the values JSON can denote plus [undefined].
      A string is held as its UTF-8 bytes.  A finite number is held as the
      rational it denotes, in lowest terms; what [parseFloat] returns is
      rounded to binary64 (nearest, ties to even, overflow to [Infinity],
      underflow to [0]).  [-0] is not told from [0]: the driver sends both
      to the server as the text [0].
    - The database is a finite map from table names to tables; a row is a
      finite map from column names to cell values, an absent key being SQL
      [NULL].  A cell holds the JavaScript value that was sent for it: the
      server's conversion to the column type is not modelled.
    - Every [pool.query] call consults a fault schedule [fault]: the n-th
      query of the process fails with [e] when [fault n = Some e] (lost
      connection, rejected value); otherwise the statement runs by its SQL
      meaning, and may still fail by that meaning (missing relation or
      column, violated constraint).  A failed query leaves the database as
      it was: each [pool.query] is one implicit transaction.
    - What neither script decides is left to an [environment]: the order
      in which the server delivers the rows of a [SELECT DISTINCT], which
      is any order, the same for the same rows; and how many values the
      JSON stream holds back while it is paused.  Every general statement
      holds for every environment.
    - The JSON stream honours [pause()]: no ['data'] or ['end'] event is
      delivered while a flush is awaited.  What it took in meanwhile it
      hands out inside the call of [resume()], before that call returns;
      the handler that called [resume()] goes on when the buffer is empty
      or the stream is paused or destroyed again.  The document is
      well-formed JSON (the ['error'] event is never emitted), and its
      objects are plain ones (no key [__proto__]). *)

From Stdlib Require Import Ascii String ZArith QArith Qreduction Qpower Qfield.
From stdpp Require Import gmap strings list fin_maps.

Set Warnings "-register-all,-clear-no-such-hyp".

(** ** JavaScript values *)

Inductive number :=
| NaN
| Infinity (negative : bool)
| Finite (q : Q).

Inductive jsval :=
| JUndefined
| JNull
| JBool (b : bool)
| JNum (n : number)
| JStr (s : string)
| JArr (items : list jsval)
| JObj (fields : list (string * jsval)).

#[global] Instance Q_eq_dec : EqDecision Q.
Proof. solve_decision. Defined.

#[global] Instance number_eq_dec : EqDecision number.
Proof. solve_decision. Defined.

Definition jsval_eq_dec : ∀ a b : jsval, {a = b} + {a ≠ b}.
Proof.
  fix IH 1. intros a b.
  destruct a as [| |b1|n1|s1|l1|f1], b as [| |b2|n2|s2|l2|f2];
    try (right; discriminate); try (left; reflexivity).
  - destruct (decide (b1 = b2)); [left|right]; congruence.
  - destruct (decide (n1 = n2)); [left|right]; congruence.
  - destruct (decide (s1 = s2)); [left|right]; congruence.
  - assert (D : {l1 = l2} + {l1 ≠ l2}).
    { revert l2. induction l1 as [|x l1 IHl]; intros [|y l2];
        try (right; discriminate); try (left; reflexivity).
      destruct (IH x y); [|right; congruence].
      destruct (IHl l2); [left|right]; congruence. }
    destruct D; [left|right]; congruence.
  - assert (D : {f1 = f2} + {f1 ≠ f2}).
    { revert f2. induction f1 as [|[k x] f1 IHl]; intros [|[k' y] f2];
        try (right; discriminate); try (left; reflexivity).
      destruct (decide (k = k')); [|right; congruence].
      destruct (IH x y); [|right; congruence].
      destruct (IHl f2); [left|right]; congruence. }
    destruct D; [left|right]; congruence.
Defined.

#[global] Instance jsval_eq : EqDecision jsval := jsval_eq_dec.

(** [obj[key] = value] as the JSON parser performs it: the last binding of a
    key in the document is the one the object keeps. *)
Fixpoint lookup_field (k : string) (fs : list (string * jsval)) : option jsval :=
  match fs with
  | [] => None
  | (k', v) :: fs' =>
      match lookup_field k fs' with
      | Some v' => Some v'
      | None => if String.eqb k k' then Some v else None
      end
  end.

(** [entry.k] for a value the stream delivers (never [null] or [undefined],
    see [stream_values]): an own property of an object, [undefined] for
    anything else.  None of the property names the loader reads is defined on
    a prototype. *)
Definition field (entry : jsval) (k : string) : jsval :=
  match entry with
  | JObj fs => default JUndefined (lookup_field k fs)
  | _ => JUndefined
  end.

(** [v === lit] for a string literal [lit]. *)
Definition strict_eq_string (v : jsval) (lit : string) : bool :=
  match v with
  | JStr s => String.eqb s lit
  | _ => false
  end.

(** *** parseFloat *)

Definition is_digit (c : ascii) : bool :=
  (48 <=? nat_of_ascii c)%nat && (nat_of_ascii c <=? 57)%nat.

Definition digit_value (c : ascii) : Z := Z.of_nat (nat_of_ascii c) - 48.

Definition bytes (l : list nat) : string :=
  string_of_list_ascii (ascii_of_nat <$> l).

(** StrWhiteSpaceChar, each code point by its UTF-8 bytes: TAB, LF, VT, FF,
    CR, SP; U+00A0; U+1680; U+2000 to U+200A; U+2028, U+2029, U+202F;
    U+205F; U+3000; U+FEFF. *)
Definition StrWhiteSpaceChar : list string :=
  bytes <$> [ [9]; [10]; [11]; [12]; [13]; [32];
              [194; 160];
              [225; 154; 128];
              [226; 128; 128]; [226; 128; 129]; [226; 128; 130];
              [226; 128; 131]; [226; 128; 132]; [226; 128; 133];
              [226; 128; 134]; [226; 128; 135]; [226; 128; 136];
              [226; 128; 137]; [226; 128; 138];
              [226; 128; 168]; [226; 128; 169]; [226; 128; 175];
              [226; 129; 159];
              [227; 128; 128];
              [239; 187; 191] ].

(** [s] without its prefix [p], if it has it. *)
Fixpoint strip_prefix (p s : string) : option string :=
  match p, s with
  | EmptyString, _ => Some s
  | String a p', String b s' => if Ascii.eqb a b then strip_prefix p' s' else None
  | String _ _, EmptyString => None
  end.

(** [s] without the white space character it starts with, if any. *)
Definition white_space (s : string) : option string :=
  head (omap (λ c, strip_prefix c s) StrWhiteSpaceChar).

Fixpoint trim_start (fuel : nat) (s : string) : string :=
  match fuel with
  | O => s
  | S fuel' =>
      match white_space s with
      | Some r => trim_start fuel' r
      | None => s
      end
  end.

(** TrimString(s, start): a character takes at least one byte, so the
    length of [s] is fuel enough. *)
Definition skip_white (s : string) : string := trim_start (String.length s) s.

Fixpoint span_digits (s : string) : list ascii * string :=
  match s with
  | String c s' =>
      if is_digit c
      then let '(ds, r) := span_digits s' in (c :: ds, r)
      else ([], s)
  | EmptyString => ([], s)
  end.

Definition digits_value (ds : list ascii) : Z :=
  fold_left (λ acc c, 10 * acc + digit_value c)%Z ds 0%Z.

(** [s] without the character [c] it starts with, if it does. *)
Definition strip_char (c : ascii) (s : string) : option string :=
  match s with
  | String a r => if Ascii.eqb a c then Some r else None
  | EmptyString => None
  end.

(** A sign, if there is one, and what follows it. *)
Definition strip_sign (s : string) : bool * string :=
  match strip_char "-" s with
  | Some r => (true, r)
  | None =>
      match strip_char "+" s with
      | Some r => (false, r)
      | None => (false, s)
      end
  end.

(** ExponentPart: [e] or [E], an optional sign, at least one digit; anything
    else contributes nothing to the literal. *)
Definition exponent_part (s : string) : Z :=
  match s with
  | String c s' =>
      if (Ascii.eqb c "e" || Ascii.eqb c "E")%char then
        let '(neg, s'') := strip_sign s' in
        let '(ds, _) := span_digits s'' in
        match ds with
        | [] => 0%Z
        | _ => if neg then (- digits_value ds)%Z else digits_value ds
        end
      else 0%Z
  | EmptyString => 0%Z
  end.

(** The longest prefix that is an unsigned StrDecimalLiteral other than
    [Infinity], as mantissa and decimal exponent. *)
Definition decimal_prefix (s : string) : option (Z * Z) :=
  let '(ip, r) := span_digits s in
  match strip_char "." r with
  | Some r' =>
      let '(fp, r'') := span_digits r' in
      match ip, fp with
      | [], [] => None
      | _, _ => Some (digits_value (ip ++ fp),
                      (exponent_part r'' - Z.of_nat (length fp))%Z)
      end
  | None =>
      match ip with
      | [] => None
      | _ => Some (digits_value ip, exponent_part r)
      end
  end.

(** [m * 10 ^ e] *)
Definition decimal (m e : Z) : Q := inject_Z m * Qpower (10 # 1) e.

(** [n / d * 2 ^ (- e)] as a fraction. *)
Definition scaled (n d e : Z) : Z * Z :=
  if (0 <=? e)%Z then (n, d * 2 ^ e)%Z else (n * 2 ^ (- e), d)%Z.

(** The integer part of the binary logarithm of [n / d], for positive [n]
    and [d]. *)
Definition log2_floor (n d : Z) : Z :=
  let k := (Z.log2 n - Z.log2 d)%Z in
  let '(n', d') := scaled n d k in
  if (d' <=? n')%Z then k else (k - 1)%Z.

(** [n / d] rounded to an integer: to the nearest, and to the even one of
    two that are equally near. *)
Definition nearest_even (n d : Z) : Z :=
  let q := (n / d)%Z in
  let r := (n mod d)%Z in
  if (2 * r <? d)%Z then q
  else if (d <? 2 * r)%Z then (q + 1)%Z
  else if Z.even q then q else (q + 1)%Z.

(** [m * 2 ^ e], in lowest terms. *)
Definition dyadic (m e : Z) : Q :=
  if (0 <=? e)%Z then inject_Z (m * 2 ^ e)
  else Qred (Qmake m (Z.to_pos (2 ^ (- e)))).

(** The Number value for a real: the binary64 value nearest to it, the one
    with an even significand of two that are equally near; [Infinity] from
    [2 ^ 1024 - 2 ^ 970] on.  A binary64 value is [m * 2 ^ e] with
    [m < 2 ^ 53] and [-1074 <= e <= 971].  (The language lets an engine
    cut a literal of more than 20 significant digits before it rounds; Node
    rounds the literal as it is written.) *)
Definition binary64 (x : Q) : number :=
  let x := Qred x in
  let n := Z.abs (Qnum x) in
  let d := Zpos (Qden x) in
  if (n =? 0)%Z then Finite 0
  else
    let e := Z.max (log2_floor n d - 52) (-1074) in
    let '(n', d') := scaled n d e in
    let m := nearest_even n' d' in
    if (971 <? e)%Z || ((e =? 971)%Z && (2 ^ 53 <=? m)%Z)
    then Infinity (Qnum x <? 0)%Z
    else Finite (dyadic (if (Qnum x <? 0)%Z then - m else m) e).

(** [parseFloat] of a string: leading white space is dropped, then the
    longest prefix that is a StrDecimalLiteral is read; there is none when
    the result is [NaN]. *)
Definition parse_float_string (s : string) : number :=
  let '(neg, s) := strip_sign (skip_white s) in
  match strip_prefix "Infinity" s with
  | Some _ => Infinity neg
  | None =>
      match decimal_prefix s with
      | Some (m, e) => binary64 (decimal (if neg then - m else m) e)
      | None => NaN
      end
  end.

(** [ToString(v)] throws a [TypeError].  It does for an object with an own
    property [toString]: the property is no function, so it is passed over,
    and the [valueOf] that is found next, the object's own or the inherited
    one, returns no primitive either.  Without such a property the
    inherited [toString] answers.  An array is its elements joined, each by
    its own [ToString], so it throws when one of its elements does. *)
Fixpoint to_string_throws (v : jsval) : bool :=
  match v with
  | JObj fs => bool_decide (is_Some (lookup_field "toString" fs))
  | JArr items => existsb to_string_throws items
  | _ => false
  end.

(** [parseFloat(v)] is [parseFloat(ToString(v))], for a [v] whose [ToString]
    does not throw.  ToString of a number parses back to that number; of
    [undefined], [null], a boolean or an object it has no numeric prefix; of
    an array it is the elements joined by commas, and a comma ends every
    numeric prefix, so only the first element counts. *)
Fixpoint parseFloat (v : jsval) : number :=
  match v with
  | JNum n => n
  | JStr s => parse_float_string s
  | JArr (x :: _) => parseFloat x
  | _ => NaN
  end.

(** ** The database *)

Inductive error :=
| DatabaseError (msg : string)
| ConnectionError (msg : string)
| TypeError (msg : string).

Record table := Table {
  cols : list string;
  not_null : list string;
  unique : list (list string);
  next_id : Z;
  rows : list (gmap string jsval)
}.

Definition num (z : Z) : jsval := JNum (Finite (inject_Z z)).

(** What the driver sends for a parameter: [null] and [undefined] are
    [NULL]. *)
Definition cell (v : jsval) : option jsval :=
  match v with
  | JUndefined | JNull => None
  | _ => Some v
  end.

Definition has_column (t : table) (c : string) : bool := bool_decide (c ∈ cols t).

Definition add_column (c : string) (t : table) : error + table :=
  if has_column t c
  then inl (DatabaseError "column already exists")
  else inr (Table (cols t ++ [c]) (not_null t) (unique t) (next_id t) (rows t)).

Definition drop_column_if_exists (c : string) (t : table) : table :=
  Table (filter (λ c', c' ≠ c) (cols t)) (not_null t) (unique t) (next_id t)
        (delete c <$> rows t).

Definition set_rows (t : table) (rs : list (gmap string jsval)) : table :=
  Table (cols t) (not_null t) (unique t) (next_id t) rs.

(** ** SQL, as far as the scripts use it *)

#[global] Instance result_ret : MRet (sum error) := λ A a, inr a.

#[global] Instance result_bind : MBind (sum error) := λ A B k r,
  match r with
  | inl e => inl e
  | inr a => k a
  end.

Definition relation (name : string) (d : gmap string table) : error + table :=
  match d !! name with
  | Some t => inr t
  | None => inl (DatabaseError ("relation does not exist: " +:+ name))
  end.

Definition require_columns (t : table) (cs : list string) : error + unit :=
  if forallb (has_column t) cs then inr tt
  else inl (DatabaseError "column does not exist").

Definition create_table (name : string) (t : table)
    (d : gmap string table) : error + gmap string table :=
  match d !! name with
  | Some _ => inl (DatabaseError ("relation already exists: " +:+ name))
  | None => inr (<[name := t]> d)
  end.

(** [a = b] in a [WHERE] or [ON] clause: true only for equal non-null
    values. *)
Definition sql_eq (a b : option jsval) : bool :=
  match a, b with
  | Some x, Some y => bool_decide (x = y)
  | _, _ => false
  end.

(** What the scripts leave to the server and to the stream library:
    [arrange] is the order in which the server delivers the rows a [SELECT]
    finds, some rearrangement of them; [buffered n] is how many values the
    stream has taken in and not handed out when [resume()] is called after
    [n] accepted records, the end of the document counting as one more. *)
Class environment := Environment {
  arrange : list (list (option jsval)) → list (list (option jsval));
  arrange_perm : ∀ l, arrange l ≡ₚ l;
  buffered : nat → nat
}.

(** A list without its repetitions: each element where it is first. *)
Fixpoint distinct {A} `{EqDecision A} (l : list A) : list A :=
  match l with
  | [] => []
  | x :: l' => x :: filter (λ y, y ≠ x) (distinct l')
  end.

(** [SELECT DISTINCT]: the rows found, in the order the server delivers
    them, each one once; two [NULL]s are not distinct. *)
Definition select_distinct {env : environment} (l : list (list (option jsval)))
    : list (list (option jsval)) :=
  distinct (arrange l).

(** [LEFT JOIN]: the matching rows of the right side, or one all-null row. *)
Definition left_join (on : gmap string jsval → bool)
    (right : list (gmap string jsval)) : list (option (gmap string jsval)) :=
  match filter (λ g, Is_true (on g)) right with
  | [] => [None]
  | ms => Some <$> ms
  end.

Definition tuple_row (cs : list string) (vs : list (option jsval)) : gmap string jsval :=
  list_to_map (omap (λ cv, (cv.1,.) <$> cv.2) (zip cs vs)).

(** Two rows collide on a unique key when they agree on each of its columns
    and none of them is null. *)
Definition conflicts (key : list string) (r r' : gmap string jsval) : bool :=
  forallb (λ k, sql_eq (r !! k) (r' !! k)) key.

(** [INSERT ... ON CONFLICT (key) DO NOTHING] of one row.  The [id] is drawn
    from the sequence before the conflict is looked for, so a skipped row
    still uses one up. *)
Definition insert_do_nothing (key : list string) (t : table)
    (vals : gmap string jsval) : error + table :=
  let r := <["id" := num (next_id t)]> vals in
  if negb (bool_decide (key ∈ unique t)) then
    inl (DatabaseError "no unique constraint matching the ON CONFLICT specification")
  else if negb (forallb (λ c, bool_decide (is_Some (r !! c))) (not_null t)) then
    inl (DatabaseError "null value violates not-null constraint")
  else if existsb (conflicts key r) (rows t) then
    inr (Table (cols t) (not_null t) (unique t) (next_id t + 1) (rows t))
  else
    inr (Table (cols t) (not_null t) (unique t) (next_id t + 1) (rows t ++ [r])).

(** [INSERT INTO t (cs) SELECT ... ON CONFLICT (key) DO NOTHING] *)
Definition insert_select (key cs : list string)
    (tuples : list (list (option jsval))) (t : table) : error + table :=
  _ ← require_columns t cs;
  foldl (λ acc vs, t' ← acc; insert_do_nothing key t' (tuple_row cs vs))
        (inr t) tuples.

(** A scalar subquery: no row is [NULL], one row is its value, more is an
    error. *)
Definition scalar (ms : list (gmap string jsval)) (c : string) : error + option jsval :=
  match ms with
  | [] => inr None
  | [r] => inr (r !! c)
  | _ => inl (DatabaseError "more than one row returned by a subquery used as an expression")
  end.

Definition assign (c : string) (v : option jsval) (r : gmap string jsval) : gmap string jsval :=
  match v with
  | Some x => <[c := x]> r
  | None => delete c r
  end.

(** One [target = (subquery)] item of a [SET] list and one disjunct of a
    [WHERE] clause, each with the [codex_entries] columns it names. *)
Record set_clause := SetClause {
  target : string;
  set_refs : list string;
  value : gmap string table → gmap string jsval → error + option jsval
}.

Record condition := Condition {
  cond_refs : list string;
  holds : gmap string jsval → bool
}.

Fixpoint update_row (d : gmap string table) (ce : gmap string jsval)
    (parts : list set_clause) (r : gmap string jsval) : error + gmap string jsval :=
  match parts with
  | [] => inr r
  | p :: ps => v ← value p d ce; update_row d ce ps (assign (target p) v r)
  end.

Fixpoint update_rows (d : gmap string table) (parts : list set_clause)
    (conds : list condition) (rs : list (gmap string jsval))
    : error + list (gmap string jsval) :=
  match rs with
  | [] => inr []
  | ce :: rest =>
      ce' ← (if existsb (λ c, holds c ce) conds
             then update_row d ce parts ce else inr ce);
      rest' ← update_rows d parts conds rest;
      inr (ce' :: rest')
  end.

(** [UPDATE codex_entries ce SET parts WHERE conds[0] OR conds[1] ...] *)
Definition update_codex_entries (parts : list set_clause) (conds : list condition)
    (d : gmap string table) : error + gmap string table :=
  t ← relation "codex_entries" d;
  _ ← require_columns t (target <$> parts);
  _ ← require_columns t (parts ≫= set_refs);
  _ ← require_columns t (conds ≫= cond_refs);
  rs ← update_rows d parts conds (rows t);
  inr (<["codex_entries" := set_rows t rs]> d).

(** ** Processes: the world a script runs in *)

Inductive event :=
| ConsoleLog (line : string)
| ConsoleLogCount (before : string) (n : nat) (after : string)
| ConsoleError (context : string) (e : error)
| Inserted (item : list jsval)
| InsertFailed (item : list jsval) (e : error)
| StreamPause
| StreamResume
| StreamDestroy
| PoolEnd
| ProcessExit (code : Z).

#[global] Instance error_eq_dec : EqDecision error.
Proof. solve_decision. Defined.

#[global] Instance event_eq_dec : EqDecision event.
Proof. solve_decision. Defined.

(** [queries] counts the [pool.query] calls made so far; [trace] lists the
    observable effects, oldest first. *)
Record world := World {
  db : gmap string table;
  queries : nat;
  trace : list event
}.

Definition emit (ev : event) (w : world) : world :=
  World (db w) (queries w) (trace w ++ [ev]).

(** How an [async] function ends: it returns, it throws (its promise is
    rejected), or the process is gone ([process.exit]). *)
Inductive outcome (A : Type) :=
| Return (a : A)
| Throw (e : error)
| Exited (code : Z).
Arguments Return {A} a.
Arguments Throw {A} e.
Arguments Exited {A} code.

Definition M (A : Type) : Type := world → outcome A * world.

#[global] Instance M_ret : MRet M := λ A a w, (Return a, w).

#[global] Instance M_bind : MBind M := λ A B k m w,
  match m w with
  | (Return a, w') => k a w'
  | (Throw e, w') => (Throw e, w')
  | (Exited c, w') => (Exited c, w')
  end.

Definition throw {A} (e : error) : M A := λ w, (Throw e, w).

Definition console_log (line : string) : M unit :=
  λ w, (Return tt, emit (ConsoleLog line) w).

Definition console_error (context : string) (e : error) : M unit :=
  λ w, (Return tt, emit (ConsoleError context e) w).

Definition pool_end : M unit := λ w, (Return tt, emit PoolEnd w).

(** [process.exit(code)] ends the process on the spot: nothing after it
    runs, not even an enclosing [finally]. *)
Definition process_exit {A} (code : Z) : M A :=
  λ w, (Exited code, emit (ProcessExit code) w).

(** [try { body } catch (err) { handler }] *)
Definition try_catch {A} (body : M A) (handler : error → M A) : M A :=
  λ w, match body w with
       | (Throw e, w') => handler e w'
       | r => r
       end.

(** [try { body } finally { cleanup }] *)
Definition try_finally {A} (body : M A) (cleanup : M unit) : M A :=
  λ w, match body w with
       | (Return a, w') =>
           match cleanup w' with
           | (Return _, w'') => (Return a, w'')
           | (Throw e, w'') => (Throw e, w'')
           | (Exited c, w'') => (Exited c, w'')
           end
       | (Throw e, w') =>
           match cleanup w' with
           | (Return _, w'') => (Throw e, w'')
           | (Throw e', w'') => (Throw e', w'')
           | (Exited c, w'') => (Exited c, w'')
           end
       | (Exited c, w') => (Exited c, w')
       end.

(** The status the operating system sees once the top-level [main()] call
    has run: the argument of [process.exit]; 1 for a rejection nobody
    handles; 0 when the event loop simply drains. *)
Definition exit_status {A} (r : outcome A) : Z :=
  match r with
  | Return _ => 0
  | Throw _ => 1
  | Exited c => c
  end.

Section Pool.

(** The fault schedule of the connection pool. *)
Variable fault : nat → option error.

(** [await pool.query(stmt)] for a statement with SQL meaning [stmt]. *)
Definition pool_query (stmt : gmap string table → error + gmap string table) : M unit :=
  λ w,
    let w' := World (db w) (S (queries w)) (trace w) in
    match fault (queries w) with
    | Some e => (Throw e, w')
    | None =>
        match stmt (db w) with
        | inl e => (Throw e, w')
        | inr d => (Return tt, World d (S (queries w)) (trace w))
        end
    end.

(** [await pool.query(q)] for a query whose result the script reads. *)
Definition pool_select {A} (q : gmap string table → error + A) : M A :=
  λ w,
    let w' := World (db w) (S (queries w)) (trace w) in
    match fault (queries w) with
    | Some e => (Throw e, w')
    | None =>
        match q (db w) with
        | inl e => (Throw e, w')
        | inr a => (Return a, w')
        end
    end.

End Pool.

(** ** The loader script *)

Module Load.
Section Script.

Context {env : environment}.
Variable fault : nat → option error.

(** The columns of [CREATE TABLE IF NOT EXISTS codex_entries], under the
    names the server keeps (unquoted identifiers are folded to lower
    case). *)
Definition codex_columns : list string :=
  ["id"; "english_name"; "created_at"; "reported_at"; "cmdrname"; "system";
   "x"; "y"; "z"; "body"; "latitude"; "longitude"; "entryid"; "name";
   "category"; "sub_category"; "sub_category_localised"; "region_name";
   "id64"].

Definition create_codex_entries (d : gmap string table) : error + gmap string table :=
  match d !! "codex_entries" with
  | Some _ => inr d
  | None => inr (<["codex_entries" := Table codex_columns ["id"] [["id"]] 1 []]> d)
  end.

Definition createTable : M unit :=
  try_catch
    (pool_query fault create_codex_entries;;
     console_log "Table created successfully")
    (λ err, console_error "Error creating table:" err;; throw err).

(** The column list of [insertQuery], in the order of [$1 .. $18]. *)
Definition insert_columns : list string :=
  ["english_name"; "created_at"; "reported_at"; "cmdrname"; "system";
   "x"; "y"; "z"; "body"; "latitude"; "longitude"; "entryid"; "name";
   "category"; "sub_category"; "sub_category_localised"; "region_name";
   "id64"].

Definition param_row (cs : list string) (item : list jsval) : gmap string jsval :=
  tuple_row cs (cell <$> item).

Definition insert_codex_entry (item : list jsval)
    (d : gmap string table) : error + gmap string table :=
  match d !! "codex_entries" with
  | None => inl (DatabaseError "relation codex_entries does not exist")
  | Some t =>
      if forallb (has_column t) insert_columns
      then inr (<["codex_entries" :=
                   Table (cols t) (not_null t) (unique t) (next_id t + 1)
                     (rows t ++ [<["id" := num (next_id t)]>
                                   (param_row insert_columns item)])]> d)
      else inl (DatabaseError "column of relation codex_entries does not exist")
  end.

(** [await pool.query(insertQuery, item)] *)
Definition insert_item (item : list jsval) : M unit :=
  λ w, match pool_query fault (insert_codex_entry item) w with
       | (Return _, w') => (Return tt, emit (Inserted item) w')
       | (Throw e, w') => (Throw e, emit (InsertFailed item e) w')
       | (Exited c, w') => (Exited c, w')
       end.

(** [for (const item of batch) { await pool.query(insertQuery, item); }] *)
Fixpoint flush (items : list (list jsval)) : M unit :=
  match items with
  | [] => mret tt
  | item :: rest => insert_item item;; flush rest
  end.

Definition batchSize : nat := 1000.

Inductive promise_state :=
| Pending
| Resolved
| Rejected (e : error).

(** The variables [insertData] closes over, and the state of [jsonStream]
    that decides what it emits: its two flags, and, inside a call of
    [resume()], how many values that call still has to hand out. *)
Record loader := Loader {
  count : nat;
  batch : list (list jsval);
  paused : bool;
  destroyed : bool;
  promise : promise_state;
  resuming : option nat
}.

Definition settle (p : promise_state) (s : loader) : loader :=
  Loader (count s) (batch s) (paused s) (destroyed s)
         (match promise s with Pending => p | settled => settled end)
         (resuming s).

(** The array pushed onto [batch] for an accepted entry. *)
Definition to_row (entry : jsval) : list jsval :=
  [ field entry "english_name";
    field entry "created_at";
    field entry "reported_at";
    field entry "cmdrName";
    field entry "system";
    JNum (parseFloat (field entry "x"));
    JNum (parseFloat (field entry "y"));
    JNum (parseFloat (field entry "z"));
    field entry "body";
    JNum (parseFloat (field entry "latitude"));
    JNum (parseFloat (field entry "longitude"));
    field entry "entryid";
    field entry "name";
    field entry "category";
    field entry "sub_category";
    field entry "sub_category_localised";
    field entry "region_name";
    field entry "id64" ].

(** Building that array throws: one of the five calls of [parseFloat]
    does. *)
Definition row_throws (entry : jsval) : bool :=
  existsb (λ k, to_string_throws (field entry k))
          ["x"; "y"; "z"; "latitude"; "longitude"].

Definition cannot_convert : error :=
  TypeError "Cannot convert object to primitive value".

Definition is_biology (entry : jsval) : bool :=
  strict_eq_string (field entry "hud_category") "Biology".

(** [if (count % batchSize === 0) console.log(`Processed ${count} entries`)] *)
Definition progress (s : loader) (w : world) : world :=
  if (count s mod batchSize =? 0)%nat
  then emit (ConsoleLogCount "Processed " (count s) " entries") w
  else w.

(** A call of [resume()] returns, and the handler that made it goes on
    with the lines after it: the test of [count] as it is by now. *)
Definition resume_returns (s : loader) (w : world) : loader * world :=
  match resuming s with
  | Some _ =>
      (Loader (count s) (batch s) (paused s) (destroyed s) (promise s) None,
       progress s w)
  | None => (s, w)
  end.

(** [jsonStream.on('data', async (entry) => { ... })], as far as it runs
    before the next event.  A handler that awaits the flush of a batch
    has paused the stream first, so a [resume()] that handed it the entry
    returns while it waits; so does it when the handler destroys the
    stream. *)
Definition on_data (entry : jsval) (s : loader) (w : world) : loader * world :=
  if negb (is_biology entry) then (s, w)
  else if row_throws entry then
    resume_returns
      (settle (Rejected cannot_convert)
         (Loader (count s) (batch s) (paused s) true (promise s) (resuming s)))
      (emit StreamDestroy w)
  else
    let s1 := Loader (S (count s)) (batch s ++ [to_row entry])
                     (paused s) (destroyed s) (promise s) (resuming s) in
    if (batchSize <=? length (batch s1))%nat then
      let '(s2, w2) :=
        resume_returns
          (Loader (count s1) (batch s1) true (destroyed s1) (promise s1)
                  (resuming s1))
          (emit StreamPause w) in
      match flush (batch s2) w2 with
      | (Return _, w') =>
          (Loader (count s2) [] false (destroyed s2) (promise s2)
                  (Some (buffered (count s2))),
           emit StreamResume w')
      | (Throw err, w') =>
          (settle (Rejected err)
             (Loader (count s2) (batch s2) (paused s2) true (promise s2)
                     (resuming s2)),
           emit StreamDestroy w')
      | (Exited _, w') => (s2, w')
      end
    else (s1, progress s1 w).

(** [jsonStream.on('end', async () => { ... })].  Nothing follows the end
    of the document, so a [resume()] that hands it out returns: after the
    handler when there is nothing left to insert, and else while the
    handler awaits its first insert. *)
Definition on_end (s : loader) (w : world) : loader * world :=
  match batch s with
  | [] =>
      resume_returns
        (settle Resolved s)
        (emit (ConsoleLogCount "Finished processing " (count s) " entries") w)
  | _ =>
      let '(s1, w1) := resume_returns s w in
      match flush (batch s1) w1 with
      | (Return _, w') =>
          (settle Resolved s1,
           emit (ConsoleLogCount "Finished processing " (count s1) " entries") w')
      | (Throw err, w') => (settle (Rejected err) s1, w')
      | (Exited _, w') => (s1, w')
      end
  end.

(** One value leaves the buffer of a [resume()] at work. *)
Definition handed_out (s : loader) : loader :=
  Loader (count s) (batch s) (paused s) (destroyed s) (promise s)
         (Nat.pred <$> resuming s).

(** A [resume()] whose buffer is empty returns. *)
Definition buffer_checked (s : loader) (w : world) : loader * world :=
  match resuming s with
  | Some O => resume_returns s w
  | _ => (s, w)
  end.

(** What [JSONStream.parse('*')] emits for a document whose top-level
    elements are [doc]: every element but [null]. *)
Definition stream_values (doc : list jsval) : list jsval :=
  filter (λ v, v ≠ JNull ∧ v ≠ JUndefined) doc.

(** The stream hands out what it holds, in order, then ['end'], for as long
    as it is neither paused nor destroyed. *)
Fixpoint drain (buffer : list jsval) (s : loader) (w : world) : loader * world :=
  if paused s || destroyed s then (s, w)
  else match buffer with
       | [] => on_end (handed_out s) w
       | v :: rest =>
           let '(s1, w1) := on_data v (handed_out s) w in
           let '(s2, w2) := buffer_checked s1 w1 in
           drain rest s2 w2
       end.

Definition run_stream (doc : list jsval) (w : world) : loader * world :=
  drain (stream_values doc) (Loader 0 [] false false Pending None) w.

(** [await insertData()]: the promise's settlement.  A promise left
    pending would let the process run out of work and end. *)
Definition insertData (doc : list jsval) : M unit :=
  λ w, let '(s, w') := run_stream doc w in
       match promise s with
       | Resolved => (Return tt, w')
       | Rejected e => (Throw e, w')
       | Pending => (Exited 0, w')
       end.

Definition main (doc : list jsval) : M unit :=
  try_finally
    (try_catch
       (createTable;;
        insertData doc;;
        console_log "Data insertion completed successfully")
       (λ err, console_error "Error in main process:" err))
    pool_end.

End Script.
End Load.

(** ** The normalizer script *)

Module Normalize.
Section Script.

Context {env : environment}.
Variable fault : nat → option error.

(** [ALTER TABLE IF EXISTS codex_entries DROP COLUMN IF EXISTS ...;
     DROP TABLE IF EXISTS ... CASCADE; ...] *)
Definition drop_normalized (d : gmap string table) : error + gmap string table :=
  let d1 :=
    match d !! "codex_entries" with
    | Some t =>
        <["codex_entries" :=
            drop_column_if_exists "body_id"
              (drop_column_if_exists "system_id"
                 (drop_column_if_exists "species_id" t))]> d
    | None => d
    end in
  inr (delete "regions" (delete "species" (delete "systems" (delete "bodies" d1)))).

Definition species_table : table :=
  Table ["id"; "english_name"] ["english_name"] [["english_name"]] 1 [].

Definition regions_table : table :=
  Table ["id"; "name"; "name_localised"] ["name"] [["name"]] 1 [].

Definition systems_table : table :=
  Table ["id"; "name"; "x"; "y"; "z"; "region_id"] ["name"] [["name"]] 1 [].

Definition bodies_table : table :=
  Table ["id"; "name"; "system_id"] ["name"] [["name"; "system_id"]] 1 [].

(** [CREATE TABLE species ...; CREATE TABLE regions ...; CREATE TABLE
     systems ...; CREATE TABLE bodies ...; ALTER TABLE codex_entries ADD
     COLUMN species_id ..., ADD COLUMN system_id ..., ADD COLUMN body_id ...] *)
Definition create_normalized (d : gmap string table) : error + gmap string table :=
  d ← create_table "species" species_table d;
  d ← create_table "regions" regions_table d;
  d ← create_table "systems" systems_table d;
  d ← create_table "bodies" bodies_table d;
  t ← relation "codex_entries" d;
  t ← add_column "species_id" t;
  t ← add_column "system_id" t;
  t ← add_column "body_id" t;
  inr (<["codex_entries" := t]> d).

Definition createNormalizedTables : M unit :=
  try_catch
    (pool_query fault drop_normalized;;
     pool_query fault create_normalized;;
     console_log "Normalized tables created successfully")
    (λ err, console_error "Error creating normalized tables:" err;; throw err).

(** [SELECT EXISTS (SELECT 1 FROM information_schema.columns WHERE
     table_name = 'codex_entries' AND column_name = c)] *)
Definition column_exists (d : gmap string table) (c : string) : bool :=
  match d !! "codex_entries" with
  | Some t => has_column t c
  | None => false
  end.

Record column_check := ColumnCheck {
  has_english_name : bool;
  has_region_name : bool;
  has_region_name_localised : bool;
  has_system : bool
}.

Definition probe (d : gmap string table) : column_check :=
  ColumnCheck (column_exists d "english_name")
              (column_exists d "region_name")
              (column_exists d "region_name_localised")
              (column_exists d "system").

Definition check_columns (d : gmap string table) : error + column_check :=
  inr (probe d).

(** [SELECT DISTINCT english_name FROM codex_entries WHERE english_name IS
     NOT NULL] *)
Definition species_data (ce : table) : list (list (option jsval)) :=
  select_distinct
    (r ← rows ce;
     if bool_decide (is_Some (r !! "english_name"))
     then [[r !! "english_name"]] else []).

(** [INSERT INTO species (english_name) ... ON CONFLICT (english_name) DO
     NOTHING] *)
Definition insert_species (d : gmap string table) : error + gmap string table :=
  ce ← relation "codex_entries" d;
  _ ← require_columns ce ["english_name"];
  sp ← relation "species" d;
  sp ← insert_select ["english_name"] ["english_name"] (species_data ce) sp;
  inr (<["species" := sp]> d).

(** [SELECT DISTINCT region_name, region_name_localised FROM codex_entries
     WHERE region_name IS NOT NULL] *)
Definition region_data_localised (ce : table) : list (list (option jsval)) :=
  select_distinct
    (r ← rows ce;
     if bool_decide (is_Some (r !! "region_name"))
     then [[r !! "region_name"; r !! "region_name_localised"]]
     else []).

(** [INSERT INTO regions (name, name_localised) ... ON CONFLICT (name) DO
     NOTHING] *)
Definition insert_regions_localised (d : gmap string table) : error + gmap string table :=
  ce ← relation "codex_entries" d;
  _ ← require_columns ce ["region_name"; "region_name_localised"];
  rg ← relation "regions" d;
  rg ← insert_select ["name"] ["name"; "name_localised"]
         (region_data_localised ce) rg;
  inr (<["regions" := rg]> d).

(** [SELECT DISTINCT region_name FROM codex_entries WHERE region_name IS
     NOT NULL] *)
Definition region_data (ce : table) : list (list (option jsval)) :=
  select_distinct
    (r ← rows ce;
     if bool_decide (is_Some (r !! "region_name"))
     then [[r !! "region_name"]] else []).

(** [INSERT INTO regions (name) ... ON CONFLICT (name) DO NOTHING] *)
Definition insert_regions (d : gmap string table) : error + gmap string table :=
  ce ← relation "codex_entries" d;
  _ ← require_columns ce ["region_name"];
  rg ← relation "regions" d;
  rg ← insert_select ["name"] ["name"] (region_data ce) rg;
  inr (<["regions" := rg]> d).

(** [WITH system_data AS (SELECT DISTINCT ce.system, ce.x, ce.y, ce.z,
     r.id as region_id FROM codex_entries ce LEFT JOIN regions r ON
     ce.region_name = r.name WHERE ce.system IS NOT NULL)] *)
Definition system_data_with_region (ce rg : table) : list (list (option jsval)) :=
  select_distinct
    (r ← rows ce;
     g ← left_join (λ g, sql_eq (r !! "region_name") (g !! "name")) (rows rg);
     if bool_decide (is_Some (r !! "system"))
     then [[r !! "system"; r !! "x"; r !! "y"; r !! "z"; g ≫= (.!! "id")]]
     else []).

(** [INSERT INTO systems (name, x, y, z, region_id) SELECT * FROM
     system_data ON CONFLICT (name) DO NOTHING] *)
Definition insert_systems_with_region (d : gmap string table) : error + gmap string table :=
  ce ← relation "codex_entries" d;
  _ ← require_columns ce ["system"; "x"; "y"; "z"; "region_name"];
  rg ← relation "regions" d;
  sy ← relation "systems" d;
  sy ← insert_select ["name"] ["name"; "x"; "y"; "z"; "region_id"]
         (system_data_with_region ce rg) sy;
  inr (<["systems" := sy]> d).

(** [WITH system_data AS (SELECT DISTINCT system, x, y, z FROM
     codex_entries WHERE system IS NOT NULL)] *)
Definition system_data (ce : table) : list (list (option jsval)) :=
  select_distinct
    (r ← rows ce;
     if bool_decide (is_Some (r !! "system"))
     then [[r !! "system"; r !! "x"; r !! "y"; r !! "z"]]
     else []).

(** [INSERT INTO systems (name, x, y, z) SELECT * FROM system_data ON
     CONFLICT (name) DO NOTHING] *)
Definition insert_systems (d : gmap string table) : error + gmap string table :=
  ce ← relation "codex_entries" d;
  _ ← require_columns ce ["system"; "x"; "y"; "z"];
  sy ← relation "systems" d;
  sy ← insert_select ["name"] ["name"; "x"; "y"; "z"] (system_data ce) sy;
  inr (<["systems" := sy]> d).

(** [WITH body_data AS (SELECT DISTINCT ce.body, s.id as system_id FROM
     codex_entries ce JOIN systems s ON ce.system = s.name WHERE ce.body IS
     NOT NULL)] *)
Definition body_data (ce sy : table) : list (list (option jsval)) :=
  select_distinct
    (r ← rows ce;
     s ← filter (λ s, Is_true (sql_eq (r !! "system") (s !! "name"))) (rows sy);
     if bool_decide (is_Some (r !! "body"))
     then [[r !! "body"; s !! "id"]] else []).

(** [INSERT INTO bodies (name, system_id) SELECT * FROM body_data ON
     CONFLICT (name, system_id) DO NOTHING] *)
Definition insert_bodies (d : gmap string table) : error + gmap string table :=
  ce ← relation "codex_entries" d;
  _ ← require_columns ce ["body"; "system"];
  sy ← relation "systems" d;
  bd ← relation "bodies" d;
  bd ← insert_select ["name"; "system_id"] ["name"; "system_id"]
         (body_data ce sy) bd;
  inr (<["bodies" := bd]> d).

(** [species_id = (SELECT id FROM species WHERE english_name =
     ce.english_name)] *)
Definition set_species_id : set_clause :=
  SetClause "species_id" ["english_name"]
    (λ d ce,
       sp ← relation "species" d;
       scalar (filter (λ r, Is_true (sql_eq (r !! "english_name")
                                            (ce !! "english_name")))
                      (rows sp)) "id").

(** [system_id = (SELECT id FROM systems WHERE name = ce.system)] *)
Definition set_system_id : set_clause :=
  SetClause "system_id" ["system"]
    (λ d ce,
       sy ← relation "systems" d;
       scalar (filter (λ r, Is_true (sql_eq (r !! "name") (ce !! "system")))
                      (rows sy)) "id").

(** [body_id = (SELECT b.id FROM bodies b JOIN systems s ON b.system_id =
     s.id WHERE b.name = ce.body AND s.name = ce.system)] *)
Definition set_body_id : set_clause :=
  SetClause "body_id" ["body"; "system"]
    (λ d ce,
       bd ← relation "bodies" d;
       sy ← relation "systems" d;
       scalar (b ← rows bd;
               s ← filter (λ s, Is_true (sql_eq (b !! "system_id") (s !! "id")))
                          (rows sy);
               if sql_eq (b !! "name") (ce !! "body")
                  && sql_eq (s !! "name") (ce !! "system")
               then [b] else [])
              "id").

(** [ce.english_name IS NOT NULL] *)
Definition english_name_not_null : condition :=
  Condition ["english_name"] (λ ce, bool_decide (is_Some (ce !! "english_name"))).

(** [ce.system IS NOT NULL OR ce.body IS NOT NULL] *)
Definition system_or_body_not_null : condition :=
  Condition ["system"; "body"]
    (λ ce, bool_decide (is_Some (ce !! "system"))
           || bool_decide (is_Some (ce !! "body"))).

(** The [SET] items and the [WHERE] disjuncts the script collects for the
    columns it found. *)
Definition updateParts (chk : column_check) : list set_clause :=
  (if has_english_name chk then [set_species_id] else [])
  ++ (if has_system chk then [set_system_id; set_body_id] else []).

Definition whereConditions (chk : column_check) : list condition :=
  (if has_english_name chk then [english_name_not_null] else [])
  ++ (if has_system chk then [system_or_body_not_null] else []).

Definition normalizeData : M unit :=
  try_catch
    (chk ← pool_select fault check_columns;
     (if has_english_name chk then
        pool_query fault insert_species;;
        console_log "Species data normalized"
      else
        console_log "Skipping species normalization - english_name column not found");;
     (if has_region_name chk then
        pool_query fault (if has_region_name_localised chk
                          then insert_regions_localised
                          else insert_regions);;
        console_log "Regions data normalized"
      else
        console_log "Skipping regions normalization - region_name column not found");;
     (if has_system chk then
        pool_query fault (if has_region_name chk
                          then insert_systems_with_region
                          else insert_systems);;
        console_log "Systems data normalized"
      else
        console_log "Skipping systems normalization - system column not found");;
     (if has_system chk then
        pool_query fault insert_bodies;;
        console_log "Body data normalized"
      else
        console_log "Skipping bodies normalization - system column not found");;
     if (0 <? length (updateParts chk))%nat then
       pool_query fault (update_codex_entries (updateParts chk) (whereConditions chk));;
       console_log "Foreign keys updated in codex_entries"
     else mret tt)
    (λ err, console_error "Error normalizing data:" err;; throw err).

Definition dropped_columns : list string :=
  ["index_id"; "hud_category"; "name"; "system"; "x"; "y"; "z"; "body";
   "name_localized"; "category_localized"; "region_name";
   "region_name_localised"].

(** [ALTER TABLE codex_entries DROP COLUMN IF EXISTS index_id, ...] *)
Definition drop_superseded (d : gmap string table) : error + gmap string table :=
  t ← relation "codex_entries" d;
  inr (<["codex_entries" := foldl (λ t c, drop_column_if_exists c t) t dropped_columns]> d).

Definition cleanUpColumns : M unit :=
  try_catch
    (pool_query fault drop_superseded;;
     console_log "Successfully removed unnecessary columns from codex_entries table")
    (λ error, console_error "Error cleaning up columns:" error;; throw error).

Definition main : M unit :=
  try_finally
    (try_catch
       (createNormalizedTables;;
        normalizeData;;
        cleanUpColumns;;
        console_log "Database normalization completed successfully")
       (λ error, console_error "Error in main:" error;; process_exit 1))
    pool_end.

End Script.
End Normalize.


(** ** Observations on runs *)

(** The rows the store acknowledged, in order. *)
Definition inserted_items (tr : list event) : list (list jsval) :=
  omap (λ ev, match ev with Inserted item => Some item | _ => None end) tr.

Definition is_insert (ev : event) : bool :=
  match ev with
  | Inserted _ => true
  | _ => false
  end.

Definition is_failure (ev : event) : bool :=
  match ev with
  | InsertFailed _ _ => true
  | _ => false
  end.

Definition close_group (cur : list (list jsval)) : list (list (list jsval)) :=
  match cur with
  | [] => []
  | _ => [cur]
  end.

(** The flush operations of a trace: its maximal runs of consecutive
    acknowledged inserts. *)
Fixpoint flush_groups (cur : list (list jsval)) (tr : list event)
    : list (list (list jsval)) :=
  match tr with
  | [] => close_group cur
  | Inserted item :: tr' => flush_groups (cur ++ [item]) tr'
  | _ :: tr' => close_group cur ++ flush_groups [] tr'
  end.

Definition flushes (tr : list event) : list (list (list jsval)) :=
  flush_groups [] tr.

(** What a run added to the trace. *)
Definition new_events (w w' : world) : list event :=
  drop (length (trace w)) (trace w').

Definition table_rows (d : gmap string table) : list (gmap string jsval) :=
  match d !! "codex_entries" with
  | Some t => rows t
  | None => []
  end.

Definition table_next (d : gmap string table) : Z :=
  match d !! "codex_entries" with
  | Some t => next_id t
  | None => 1
  end.

(** The table row an acknowledged insert leaves behind. *)
Definition stored (id : Z) (item : list jsval) : gmap string jsval :=
  <["id" := num id]> (Load.param_row Load.insert_columns item).

Fixpoint stored_from (id : Z) (items : list (list jsval)) : list (gmap string jsval) :=
  match items with
  | [] => []
  | item :: rest => stored id item :: stored_from (id + 1) rest
  end.

(** The rows of the records a document's filter lets through. *)
Definition accepted (doc : list jsval) : list (list jsval) :=
  Load.to_row <$> filter (λ entry, Load.is_biology entry = true) doc.

(** A list cut into pieces of [B], the last one possibly shorter but never
    empty. *)
Inductive chunked {A} (B : nat) : list (list A) → Prop :=
| chunked_nil : chunked B []
| chunked_last g : 1 ≤ length g ≤ B → chunked B [g]
| chunked_cons g gs : length g = B → chunked B gs → chunked B (g :: gs).

Definition quiet (evs : list event) : Prop :=
  Forall (λ ev, is_failure ev = false) evs.

(** Effects that are neither an insert nor a failed one. *)
Definition idle (evs : list event) : Prop :=
  Forall (λ ev, is_insert ev = false ∧ is_failure ev = false) evs.

(** A run of the stream that ended with the promise resolved, having been
    handed the rows [rows_in]. *)
Definition run_completed (rows_in : list (list jsval)) (evs : list event)
    (s' : Load.loader) : Prop :=
  Load.promise s' = Load.Resolved
  ∧ quiet evs
  ∧ inserted_items evs = rows_in
  ∧ chunked Load.batchSize (flushes evs).

(** A run that a failed insert cut short. *)
Definition run_aborted (rows_in : list (list jsval)) (evs : list event)
    (s' : Load.loader) : Prop :=
  ∃ e item pre post rest,
    Load.promise s' = Load.Rejected e
    ∧ evs = pre ++ InsertFailed item e :: post
    ∧ quiet pre
    ∧ (post = [] ∨ post = [StreamDestroy])
    ∧ rows_in = inserted_items pre ++ item :: rest.

(** A run that stopped at a record whose row could not be built. *)
Definition run_refused (rows_in : list (list jsval)) (evs : list event)
    (s' : Load.loader) : Prop :=
  Load.promise s' = Load.Rejected Load.cannot_convert
  ∧ quiet evs
  ∧ ∃ rest, rows_in = inserted_items evs ++ rest.

(** The stream but for the [resume()] it may be in. *)
Definition same_but_resuming (s s' : Load.loader) : Prop :=
  Load.count s' = Load.count s ∧ Load.batch s' = Load.batch s
  ∧ Load.paused s' = Load.paused s ∧ Load.destroyed s' = Load.destroyed s
  ∧ Load.promise s' = Load.promise s.

Definition ready (s : Load.loader) : Prop :=
  Load.paused s = false ∧ Load.destroyed s = false
  ∧ Load.promise s = Load.Pending
  ∧ length (Load.batch s) < Load.batchSize.

(** ** Sample inputs *)

Definition no_fault : nat → option error := λ _, None.

Definition fresh : world := World ∅ 0 [].

Definition record (tag species system body region x : string) : jsval :=
  JObj [("hud_category", JStr tag); ("english_name", JStr species);
        ("system", JStr system); ("body", JStr body);
        ("region_name", JStr region); ("x", JStr x);
        ("y", JStr "0"); ("z", JStr "-4.5")].

(** The scenario of the specification: two Biology records in system Sol,
    on Earth and on Mars, and a Geology record. *)
Definition scenario : list jsval :=
  [ record "Biology" "Bacterium" "Sol" "Earth" "Inner Orion Spur" "0";
    record "Biology" "Fungoida" "Sol" "Mars" "Inner Orion Spur" "0";
    record "Geology" "Fumarole" "Sol" "Io" "Inner Orion Spur" "0";
    JNull ].

Definition fail_at (n : nat) (e : error) : nat → option error :=
  λ k, if (k =? n)%nat then Some e else None.

(** An environment in which the server delivers rows in the order of the
    table and the stream holds nothing back, and one in which the server
    delivers them in the opposite order and the stream holds back all there
    is in the samples. *)
Definition plain : environment :=
  Environment (λ l, l) (λ l, Permutation_refl l) (λ _, 0).

Definition contrary : environment :=
  Environment reverse (λ l, reverse_Permutation l) (λ _, 2000).

(** A new database in which [createTable] has run. *)
Definition created : world := (Load.createTable no_fault fresh).2.

(** ** Decimal literals *)



Definition all_digits (ds : list ascii) : Prop :=
  Forall (λ c, is_digit c = true) ds.

Inductive sign := NoSign | Plus | Minus.

Definition sign_text (sg : sign) : string :=
  match sg with
  | NoSign => ""
  | Plus => "+"
  | Minus => "-"
  end.

Definition negative (sg : sign) : bool :=
  match sg with
  | Minus => true
  | _ => false
  end.


(** ExponentPart: [e] or [E], a sign or none, digits. *)
Record exponent := Exponent {
  capital : bool;
  exp_sign : sign;
  exp_digits : list ascii
}.

(** An unsigned StrDecimalLiteral other than [Infinity]: digits, a point
    with digits after it, an exponent, of which the point and the exponent
    may be missing, and the digits on one side of the point. *)
Record literal := Literal {
  int_digits : list ascii;
  has_point : bool;
  frac_digits : list ascii;
  exp : option exponent
}.

Definition exponent_text (x : exponent) : string :=
  String (if capital x then "E" else "e")%char
         (sign_text (exp_sign x) +:+ string_of_list_ascii (exp_digits x)).

Definition literal_text (l : literal) : string :=
  string_of_list_ascii (int_digits l)
  +:+ (if has_point l then String "."%char (string_of_list_ascii (frac_digits l))
       else "")
  +:+ from_option exponent_text "" (exp l).



Definition well_formed (l : literal) : Prop :=
  all_digits (int_digits l) ∧ all_digits (frac_digits l)
  ∧ (int_digits l ≠ [] ∨ frac_digits l ≠ [])
  ∧ (has_point l = false → frac_digits l = [])
  ∧ match exp l with
    | Some x => all_digits (exp_digits x) ∧ exp_digits x ≠ []
    | None => True
    end.

Definition first_is (P : ascii → bool) (s : string) : bool :=
  match s with
  | String c _ => P c
  | EmptyString => false
  end.

Definition is_sign (c : ascii) : bool := (Ascii.eqb c "+" || Ascii.eqb c "-")%char.

(** [s] starts like an ExponentPart. *)
Definition begins_exponent (s : string) : bool :=
  match s with
  | String c r =>
      (Ascii.eqb c "e" || Ascii.eqb c "E")%char
      && (first_is is_digit r
          || match r with
             | String c' r' => is_sign c' && first_is is_digit r'
             | EmptyString => false
             end)
  | EmptyString => false
  end.

(** The text [rest] that follows the literal [l] does not make it a longer
    literal: it brings no further digit, no point where [l] has neither a
    point nor an exponent, and no exponent where [l] has none. *)
Definition ends_literal (l : literal) (rest : string) : Prop :=
  first_is is_digit rest = false
  ∧ (has_point l = false → exp l = None → first_is (Ascii.eqb ".") rest = false)
  ∧ (exp l = None → begins_exponent rest = false).

(** [s] starts like an unsigned StrDecimalLiteral: with [Infinity], with a
    digit, or with a point and a digit. *)
Definition begins_number (s : string) : Prop :=
  (∃ rest, s = "Infinity" +:+ rest)
  ∨ first_is is_digit s = true
  ∨ (∃ r, s = String "."%char r ∧ first_is is_digit r = true).

(** White space characters, one after the other. *)
Definition joined (ws : list string) : string :=
  foldr (λ c s, c +:+ s) "" ws.

(** [s] starts with a white space character. *)
Definition begins_white (s : string) : Prop :=
  ∃ c r, c ∈ StrWhiteSpaceChar ∧ s = c +:+ r.

(** A binary64 value other than the infinities and [NaN]. *)
Definition is_binary64 (q : Q) : Prop :=
  ∃ m e : Z, (Z.abs m < 2 ^ 53)%Z ∧ (-1074 <= e <= 971)%Z
             ∧ (q == inject_Z m * Qpower (2 # 1) e)%Q.


(** ** Keys and first matches *)

(** Row [r] carries the non-null values [kvals] in the columns [key]. *)
Definition has_key (key : list string) (kvals : list jsval)
    (r : gmap string jsval) : Prop :=
  (r !!.) <$> key = Some <$> kvals.

#[global] Instance has_key_dec key kvals r : Decision (has_key key kvals r).
Proof. unfold has_key. apply _. Defined.

Fixpoint first_match {A} (P : A → Prop) `{∀ x, Decision (P x)} (l : list A) : option A :=
  match l with
  | [] => None
  | x :: l' => if decide (P x) then Some x else first_match P l'
  end.

Section Readings.

Context {env : environment}.

(** ** Reading the normalizer *)

(** A row without the cells of the columns [cs]. *)
Definition erase (cs : list string) (r : gmap string jsval) : gmap string jsval :=
  foldl (λ r c, delete c r) r cs.

(** A computation keeps a property of the database. *)
Definition preserves (I : gmap string table → Prop) {A} (m : M A) : Prop :=
  ∀ w, I (db w) → I (db (m w).2).

(** No column and no cell for a localised region name: the flat table has
    no [region_name_localised] column and no region has a
    [name_localised]. *)
Definition unlocalised (d : gmap string table) : Prop :=
  (∀ t, d !! "codex_entries" = Some t → "region_name_localised" ∉ cols t)
  ∧ (∀ rg, d !! "regions" = Some rg →
       Forall (λ r, r !! "name_localised" = None) (rows rg)).

(** The databases the two scripts can produce: starting from a new
    database, any number of loader and normalizer runs, over any documents
    and under any faults. *)
Inductive pipeline : world → Prop :=
| pipeline_new : pipeline fresh
| pipeline_load fault doc w :
    pipeline w → pipeline (Load.main fault doc w).2
| pipeline_normalize fault w :
    pipeline w → pipeline (Normalize.main fault w).2.

(** A computation that never ends the process. *)
Definition never_exits {A} (m : M A) : Prop :=
  ∀ w c, (m w).1 ≠ Exited c.

(** Conflict-skip as seen in the table an [INSERT ... SELECT] filled: for
    any value of the key, the rows carrying it are at most one, and that one
    is made of the first selected tuple with that key. *)
Definition first_writer_wins (key cs : list string)
    (tuples : list (list (option jsval))) (t : table) : Prop :=
  ∀ kvals,
    delete "id" <$> filter (has_key key kvals) (rows t)
    = option_list
        (tuple_row cs <$> first_match (λ u, has_key key kvals (tuple_row cs u)) tuples).

(** Two records of the same system whose coordinates differ. *)
Definition twins : list jsval :=
  [ record "Biology" "Bacterium" "Sol" "Earth" "Inner Orion Spur" "1.5";
    record "Biology" "Fungoida" "Sol" "Mars" "Inner Orion Spur" "2.5" ].

Definition flat_of (d : gmap string table) : table :=
  default (Table [] [] [] 1 []) (d !! "codex_entries").

(** The database after the loader has read [twins] and the normalizer has
    created its tables. *)
Definition twins_db : gmap string table :=
  db (Normalize.createNormalizedTables no_fault (Load.main no_fault twins fresh).2).2.

(** ** The normalizer without faults *)

(** The statements of [normalizeData] that follow the probe, as one
    function of the database. *)
Definition normalize_steps (chk : Normalize.column_check)
    (d : gmap string table) : error + gmap string table :=
  d ← (if Normalize.has_english_name chk then Normalize.insert_species d else inr d);
  d ← (if Normalize.has_region_name chk
       then (if Normalize.has_region_name_localised chk
             then Normalize.insert_regions_localised
             else Normalize.insert_regions) d
       else inr d);
  d ← (if Normalize.has_system chk
       then (if Normalize.has_region_name chk
             then Normalize.insert_systems_with_region
             else Normalize.insert_systems) d
       else inr d);
  d ← (if Normalize.has_system chk then Normalize.insert_bodies d else inr d);
  if (0 <? length (Normalize.updateParts chk))%nat
  then update_codex_entries (Normalize.updateParts chk) (Normalize.whereConditions chk) d
  else inr d.

(** The statements of the normalizer's [main], in order. *)
Definition normalize_db (d : gmap string table) : error + gmap string table :=
  d ← Normalize.drop_normalized d;
  d ← Normalize.create_normalized d;
  d ← normalize_steps (Normalize.probe d) d;
  Normalize.drop_superseded d.

Definition reference_columns : list string := ["species_id"; "system_id"; "body_id"].

(** The flat table once the first two statements have run: the reference
    columns are new and empty. *)
Definition prepared (t : table) : table :=
  Table (filter (λ c, c ∉ reference_columns) (cols t) ++ reference_columns)
        (not_null t) (unique t) (next_id t)
        (erase reference_columns <$> rows t).

(** The table an [INSERT ... SELECT] makes of [t0]. *)
Definition filled (key cs : list string) (tuples : list (list (option jsval)))
    (t0 : table) : table :=
  match insert_select key cs tuples t0 with
  | inr t => t
  | inl _ => t0
  end.

(** No two rows of [t] carry the same non-null values in the columns
    [key]. *)
Definition unique_on (key : list string) (t : table) : Prop :=
  ∀ kvals, length (filter (has_key key kvals) (rows t)) ≤ 1.

(** The [id] of the row of [t] whose column [k] equals [v]. *)
Definition id_of (t : table) (k : string) (v : option jsval) : option jsval :=
  head (filter (λ s, Is_true (sql_eq (s !! k) v)) (rows t)) ≫= (.!! "id").

(** ** What the population statements select *)

(** The rows of [t] that have a value in column [c], each as the tuple of
    its cells in the columns [cs], in the order of the table: what
    [SELECT cs FROM t WHERE c IS NOT NULL] finds. *)
Definition selection (c : string) (cs : list string) (t : table)
    : list (list (option jsval)) :=
  (λ r, (r !!.) <$> cs) <$> filter (λ r, is_Some (r !! c)) (rows t).

(** For the systems when there are regions: each flat row that names a
    system, as its name, its coordinates and the [id] of the region the
    row names, if [rg] has that region. *)
Definition located (rg t : table) : list (list (option jsval)) :=
  (λ r, [r !! "system"; r !! "x"; r !! "y"; r !! "z";
         id_of rg "name" (r !! "region_name")])
  <$> filter (λ r, is_Some (r !! "system")) (rows t).

(** For the bodies: each flat row that names a body, in a system that [sy]
    has a row for, as the body and the [id] of that row. *)
Definition housed (sy t : table) : list (list (option jsval)) :=
  omap (λ r, if bool_decide (is_Some (r !! "body"))
             then (λ s, [r !! "body"; s !! "id"])
                  <$> head (filter (λ s, Is_true (sql_eq (s !! "name") (r !! "system")))
                                   (rows sy))
             else None)
       (rows t).

(** The [id] of the body named [b] in the system named [n]. *)
Definition body_id_of (bd sy : table) (b n : option jsval) : option jsval :=
  head (b' ← rows bd;
        s ← filter (λ s, Is_true (sql_eq (b' !! "system_id") (s !! "id"))) (rows sy);
        if sql_eq (b' !! "name") b && sql_eq (s !! "name") n then [b'] else [])
  ≫= (.!! "id").

(** A flat row with its references filled in, for the columns found. *)
Definition backfilled (hE hS : bool) (sp sy bd : table)
    (r : gmap string jsval) : gmap string jsval :=
  let r1 :=
    if hE then assign "species_id" (id_of sp "english_name" (r !! "english_name")) r
    else r in
  if hS
  then assign "body_id" (body_id_of bd sy (r !! "body") (r !! "system"))
         (assign "system_id" (id_of sy "name" (r !! "system")) r1)
  else r1.

(** The tables the normalizer leaves, as functions of the flat table [t] it
    was given. *)
Definition species_of (t : table) : table :=
  if bool_decide ("english_name" ∈ cols t)
  then filled ["english_name"] ["english_name"]
         (Normalize.species_data (prepared t)) Normalize.species_table
  else Normalize.species_table.

Definition regions_of (t : table) : table :=
  if bool_decide ("region_name" ∈ cols t)
  then if bool_decide ("region_name_localised" ∈ cols t)
       then filled ["name"] ["name"; "name_localised"]
              (Normalize.region_data_localised (prepared t)) Normalize.regions_table
       else filled ["name"] ["name"]
              (Normalize.region_data (prepared t)) Normalize.regions_table
  else Normalize.regions_table.

Definition systems_of (t : table) : table :=
  if bool_decide ("system" ∈ cols t)
  then if bool_decide ("region_name" ∈ cols t)
       then filled ["name"] ["name"; "x"; "y"; "z"; "region_id"]
              (Normalize.system_data_with_region (prepared t) (regions_of t))
              Normalize.systems_table
       else filled ["name"] ["name"; "x"; "y"; "z"]
              (Normalize.system_data (prepared t)) Normalize.systems_table
  else Normalize.systems_table.

Definition bodies_of (t : table) : table :=
  if bool_decide ("system" ∈ cols t)
  then filled ["name"; "system_id"] ["name"; "system_id"]
         (Normalize.body_data (prepared t) (systems_of t)) Normalize.bodies_table
  else Normalize.bodies_table.

Definition flat_after (t : table) : table :=
  Table (filter (λ c, c ∉ Normalize.dropped_columns) (cols (prepared t)))
        (not_null t) (unique t) (next_id t)
        (erase Normalize.dropped_columns
         <$> (backfilled (bool_decide ("english_name" ∈ cols t))
                         (bool_decide ("system" ∈ cols t))
                         (species_of t) (systems_of t) (bodies_of t)
              <$> rows (prepared t))).

End Readings.


Section Results.

Context {env : environment}.

(** What the normalizer makes of the flat row [r]: [r'] has the references
    the lookups give for the legacy columns found ([hE]: [english_name],
    [hS]: [system]) and none for the others, no cell in a dropped column,
    and the cells of [r] everywhere else. *)
Definition references (hE hS : bool) (sp sy bd : table)
    (r r' : gmap string jsval) : Prop :=
  r' !! "species_id"
  = (if hE then id_of sp "english_name" (r !! "english_name") else None)
  ∧ r' !! "system_id" = (if hS then id_of sy "name" (r !! "system") else None)
  ∧ r' !! "body_id"
    = (if hS then body_id_of bd sy (r !! "body") (r !! "system") else None)
  ∧ (∀ c, c ∈ Normalize.dropped_columns → r' !! c = None)
  ∧ (∀ c, c ∉ reference_columns → c ∉ Normalize.dropped_columns →
       r' !! c = r !! c).

(** A reference table filled by conflict-skip from [tuples] when the legacy
    column it reads was found, and left as created otherwise. *)
Definition populated (found : bool) (key cs : list string)
    (tuples : list (list (option jsval))) (t0 t : table) : Prop :=
  if found then first_writer_wins key cs tuples t else t = t0.

(** The flat table of the loaded [scenario] without its [region_name]
    column, and a database that holds just that. *)
Definition regionless_flat : table :=
  drop_column_if_exists "region_name"
    (flat_of (db (Load.main no_fault scenario fresh).2)).

Definition regionless : world :=
  World {["codex_entries" := regionless_flat]} 0 [].

(** The same without its [body] column as well. *)
Definition bodyless_flat : table := drop_column_if_exists "body" regionless_flat.

Definition bodyless : world :=
  World {["codex_entries" := bodyless_flat]} 0 [].

(** The schema of a table: its columns and its constraints. *)
Definition schema (t : table) : list string * list string * list (list string) :=
  (cols t, not_null t, unique t).

(** The tables the normalizer writes. *)
Definition normalized_tables : list string :=
  ["codex_entries"; "species"; "regions"; "systems"; "bodies"].



(** The world after one run of the normalizer, and after the run that
    follows it. *)
Definition once (fault : nat → option error) (w : world) : world :=
  (Normalize.main fault w).2.

Definition twice (fault : nat → option error) (w : world) : world :=
  (Normalize.main fault (once fault w)).2.

(** The scenario loaded, then normalized once, then normalized again. *)
Definition loaded : world := (Load.main no_fault scenario fresh).2.
Definition normalized : world := once no_fault loaded.
Definition renormalized : world := twice no_fault loaded.

End Results.


Section Observations.

Context {env : environment}.

(** ** Reading the entry points *)

(** An effect of the script at work: anything but ending the pool or the
    process. *)
Definition working (ev : event) : Prop :=
  ev ≠ PoolEnd ∧ ∀ c, ev ≠ ProcessExit c.

(** The world [w'] is [w] after some more effects of the script at work. *)
Definition continues (w w' : world) : Prop :=
  ∃ evs, trace w' = trace w ++ evs ∧ Forall working evs.

(** A computation that only adds effects of the script at work to the
    trace. *)
Definition stays_open {A} (m : M A) : Prop :=
  ∀ w, ∃ evs, trace (m w).2 = trace w ++ evs ∧ Forall working evs.

(** A stage that either returns or throws, never without saying so: when it
    throws [e], the last thing it did was to log [e] under [ctx]. *)
Definition logs_failure (ctx : string) (m : M unit) : Prop :=
  ∀ w, ∃ evs,
    Forall working evs
    ∧ (((m w).1 = Return tt ∧ trace (m w).2 = trace w ++ evs)
       ∨ ∃ e, (m w).1 = Throw e
              ∧ trace (m w).2 = trace w ++ evs ++ [ConsoleError ctx e]).

(** The contexts under which the stages of the normalizer log. *)
Definition stage_contexts : list string :=
  ["Error creating normalized tables:"; "Error normalizing data:";
   "Error cleaning up columns:"].

(** ** Reading the loader *)

(** The flat table, if there is one, has every column the [INSERT] of the
    loader names. *)
Definition loadable (d : gmap string table) : Prop :=
  ∀ t, d !! "codex_entries" = Some t →
       Forall (λ c, c ∈ cols t) Load.insert_columns.

(** There is a flat table, and the [INSERT] of the loader finds its
    columns. *)
Definition open_table (d : gmap string table) : Prop :=
  ∃ t, d !! "codex_entries" = Some t
       ∧ forallb (has_column t) Load.insert_columns = true.

(** Every row of the document can be built: no record that the filter lets
    through holds, in a coordinate field, a value that [parseFloat] cannot
    turn into a string. *)
Definition convertible (doc : list jsval) : Prop :=
  Forall (λ entry, Load.is_biology entry = true → Load.row_throws entry = false) doc.

(** The columns the loader fills with a property of the record as it is,
    each with the name of the property. *)
Definition copied_fields : list (string * string) :=
  [("english_name", "english_name"); ("created_at", "created_at");
   ("reported_at", "reported_at"); ("cmdrname", "cmdrName");
   ("system", "system"); ("body", "body"); ("entryid", "entryid");
   ("name", "name"); ("category", "category"); ("sub_category", "sub_category");
   ("sub_category_localised", "sub_category_localised");
   ("region_name", "region_name"); ("id64", "id64")].

(** ** Primary keys *)

(** The [id] cells of a table, row by row. *)
Definition ids (t : table) : list (option jsval) := (.!! "id") <$> rows t.

(** Every row has a number from the table's sequence in [id], already
    drawn, and no two rows have the same. *)
Definition keyed (t : table) : Prop :=
  NoDup (ids t)
  ∧ Forall (λ v, ∃ i, v = Some (num i) ∧ (i < next_id t)%Z) (ids t).

Definition all_keyed (d : gmap string table) : Prop :=
  ∀ n t, d !! n = Some t → keyed t.

(** ** Foreign keys *)

(** A reference cell that is null or holds the [id] of a row of [tb]. *)
Definition refers_to (tb : table) (v : option jsval) : Prop :=
  ∀ x, v = Some x → ∃ s, s ∈ rows tb ∧ s !! "id" = Some x.

(** The rows of [tb] are numbered tuples of [tuples], laid out in the
    columns [cs]. *)
Definition made_of (cs : list string) (tuples : list (list (option jsval)))
    (tb : table) : Prop :=
  Forall (λ r, ∃ u i, u ∈ tuples ∧ r = <["id" := num i]> (tuple_row cs u)) (rows tb).

(** What the backfill owes a flat row [r]: for each name it carries in a
    legacy column that was found, the reference [r'] holds the [id] of a row
    with that name; for its body, the [id] of the body of that name in the
    system of that name. *)
Definition resolved (t sp sy bd : table) (r r' : gmap string jsval) : Prop :=
  ("english_name" ∈ cols t → ∀ n, r !! "english_name" = Some n →
     ∃ s x, s ∈ rows sp ∧ s !! "english_name" = Some n
            ∧ s !! "id" = Some x ∧ r' !! "species_id" = Some x)
  ∧ ("system" ∈ cols t → ∀ n, r !! "system" = Some n →
       ∃ s x, s ∈ rows sy ∧ s !! "name" = Some n
              ∧ s !! "id" = Some x ∧ r' !! "system_id" = Some x)
  ∧ ("system" ∈ cols t → ∀ b n, r !! "body" = Some b → r !! "system" = Some n →
       ∃ b1 s1 x, b1 ∈ rows bd ∧ s1 ∈ rows sy
                  ∧ b1 !! "name" = Some b ∧ s1 !! "name" = Some n
                  ∧ is_Some (s1 !! "id") ∧ b1 !! "system_id" = s1 !! "id"
                  ∧ b1 !! "id" = Some x ∧ r' !! "body_id" = Some x).

(** Some row of [tb] has the value [n] in column [c]. *)
Definition occurs (c : string) (n : jsval) (tb : table) : Prop :=
  Exists (λ r, r !! c = Some n) (rows tb).

(** How many rows of [tb] have the value [n] in column [c]. *)
Definition count_of (c : string) (n : jsval) (tb : table) : nat :=
  length (filter (λ r, r !! c = Some n) (rows tb)).

(** ** What the normalizer leaves alone *)

(** The cells of column [c], row by row. *)
Definition cells (c : string) (t : table) : list (option jsval) :=
  (.!! c) <$> rows t.

(** The flat table is there and its column [c] reads [l]. *)
Definition column_reads (c : string) (l : list (option jsval))
    (d : gmap string table) : Prop :=
  ∃ t, d !! "codex_entries" = Some t ∧ cells c t = l.

(** The flat table is there and has the column [c]. *)
Definition column_there (c : string) (d : gmap string table) : Prop :=
  ∃ t, d !! "codex_entries" = Some t ∧ c ∈ cols t.

(** The column [c] of the flat table is there and reads [l]. *)
Definition column_kept (c : string) (l : list (option jsval))
    (d : gmap string table) : Prop :=
  column_there c d ∧ column_reads c l d.

(** The flat table is there, and but for its reference columns and their
    cells it is [P]. *)
Definition flat_prepared (P : table) (d : gmap string table) : Prop :=
  ∃ t, d !! "codex_entries" = Some t ∧ prepared t = P.

End Observations.


(** * Facts about the SQL layer *)

Section SqlFacts.

Context {env : environment}.

Lemma distinct_elem_of {A} `{EqDecision A} (l : list A) x :
  x ∈ distinct l ↔ x ∈ l.
Proof.
  induction l as [|y l IH]; cbn [distinct]; [done|].
  rewrite !elem_of_cons, list_elem_of_filter, IH.
  destruct (decide (x = y)); naive_solver.
Qed.

Lemma first_match_filter {A} (P Q : A → Prop)
    `{∀ x, Decision (P x)} `{∀ x, Decision (Q x)} (l : list A) :
  (∀ x, P x → Q x) →
  first_match P (filter Q l) = first_match P l.
Proof.
  intros HPQ. induction l as [|x l IH]; [done|].
  rewrite filter_cons. cbn [first_match].
  destruct (decide (Q x)) as [Hq|Hq]; cbn [first_match].
  - by rewrite IH.
  - rewrite IH. destruct (decide (P x)); [|done]. naive_solver.
Qed.

Lemma first_match_distinct {A} `{EqDecision A} (P : A → Prop)
    `{∀ x, Decision (P x)} (l : list A) :
  first_match P (distinct l) = first_match P l.
Proof.
  induction l as [|x l IH]; [done|]. cbn [distinct first_match].
  destruct (decide (P x)) as [Hp|Hp]; [done|].
  rewrite first_match_filter; [done|]. intros y Hy ->. done.
Qed.

(** *** The order of delivery *)

Lemma arrange_elem_of l u : u ∈ arrange l ↔ u ∈ l.
Proof. by rewrite arrange_perm. Qed.

Lemma select_distinct_elem_of l u : u ∈ select_distinct l ↔ u ∈ l.
Proof. unfold select_distinct. by rewrite distinct_elem_of, arrange_elem_of. Qed.

Lemma first_match_select (P : list (option jsval) → Prop)
    `{∀ x, Decision (P x)} l :
  first_match P (select_distinct l) = first_match P (arrange l).
Proof. apply first_match_distinct. Qed.

Lemma Forall_select_bind {A} (P : list (option jsval) → Prop)
    (f : A → list (list (option jsval))) (l : list A) :
  (∀ x, x ∈ l → Forall P (f x)) → Forall P (select_distinct (l ≫= f)).
Proof.
  intros H. apply Forall_forall. intros y Hy.
  apply select_distinct_elem_of, list_elem_of_bind in Hy as (x & Hy & Hx).
  specialize (H x Hx). rewrite Forall_forall in H. by apply H.
Qed.

Lemma first_match_Some {A} (P : A → Prop) `{∀ x, Decision (P x)} (l : list A) x :
  first_match P l = Some x ↔
  ∃ pre post, l = pre ++ x :: post ∧ P x ∧ Forall (λ y, ¬ P y) pre.
Proof.
  induction l as [|y l IH]; cbn [first_match].
  - split; [done|]. intros (pre & post & E & _). by destruct pre.
  - destruct (decide (P y)) as [Hp|Hp].
    + split.
      * intros [= ->]. exists [], l. by repeat split.
      * intros (pre & post & E & Hx & Hpre). destruct pre as [|z pre]; cbn in E.
        -- by injection E as ->.
        -- injection E as -> _. by inversion Hpre.
    + rewrite IH. split.
      * intros (pre & post & -> & Hx & Hpre). exists (y :: pre), post.
        repeat split; [done|by constructor].
      * intros (pre & post & E & Hx & Hpre). destruct pre as [|z pre]; cbn in E.
        -- injection E as -> _. done.
        -- injection E as -> ->. exists pre, post. inversion Hpre. done.
Qed.

Lemma first_match_None {A} (P : A → Prop) `{∀ x, Decision (P x)} (l : list A) :
  first_match P l = None ↔ Forall (λ y, ¬ P y) l.
Proof.
  induction l as [|y l IH]; cbn [first_match]; [by split; [constructor|]|].
  destruct (decide (P y)) as [Hp|Hp].
  - split; [done|]. intros HF. by inversion HF.
  - rewrite IH. split; [by constructor|]. intros HF. by inversion HF.
Qed.

Lemma first_match_bind {A B} (P : B → Prop) `{∀ x, Decision (P x)}
    (f : A → list B) (l : list A) :
  first_match P (l ≫= f)
  = first_match (λ x, is_Some (first_match P (f x))) l ≫= λ x, first_match P (f x).
Proof.
  induction l as [|x l IH]; [done|]. rewrite bind_cons. cbn [first_match].
  assert (Happ : ∀ a b, first_match P (a ++ b)
            = match first_match P a with Some y => Some y | None => first_match P b end).
  { intros a b. induction a as [|z a IHa]; [done|]. cbn [app first_match].
    by destruct (decide (P z)). }
  rewrite Happ, IH.
  destruct (decide (is_Some (first_match P (f x)))) as [[y Hy]|Hn].
  - by rewrite Hy.
  - destruct (first_match P (f x)) eqn:E; [|done]. exfalso. by apply Hn.
Qed.

(** *** Keys *)

Lemma sql_eq_true a b : sql_eq a b = true ↔ ∃ v, a = Some v ∧ b = Some v.
Proof.
  destruct a as [x|], b as [y|]; cbn; try (split; [done|naive_solver]).
  rewrite bool_decide_eq_true. naive_solver.
Qed.

Lemma conflicts_has_key key r r' :
  conflicts key r r' = true ↔ ∃ kvals, has_key key kvals r ∧ has_key key kvals r'.
Proof.
  unfold conflicts, has_key. induction key as [|k key IH]; cbn [forallb fmap list_fmap].
  - split; [by exists []|done].
  - rewrite andb_true_iff, IH, sql_eq_true. split.
    + intros ((v & Hr & Hr') & kvals & Hk & Hk'). exists (v :: kvals).
      cbn. by rewrite Hr, Hr', Hk, Hk'.
    + intros (kvals & Hk & Hk'). destruct kvals as [|v kvals]; [done|].
      cbn in Hk, Hk'. injection Hk as Hr Hk. injection Hk' as Hr' Hk'.
      split; [by exists v|by exists kvals].
Qed.

Lemma has_key_insert_id key kvals x r :
  "id" ∉ key → has_key key kvals (<["id" := x]> r) ↔ has_key key kvals r.
Proof.
  intros Hid. unfold has_key.
  assert (E : (<["id" := x]> r !!.) <$> key = (r !!.) <$> key); [|by rewrite E].
  apply list_fmap_ext. intros i k Hk. cbn. apply lookup_insert_ne.
  intros <-. apply Hid. by eapply list_elem_of_lookup_2.
Qed.

Lemma tuple_row_notin cs u k :
  k ∉ cs → tuple_row cs u !! k = None.
Proof.
  intros Hk. unfold tuple_row. apply not_elem_of_list_to_map_1.
  intros Hin. apply Hk. apply list_elem_of_fmap in Hin as ([k' v] & -> & Hin).
  apply list_elem_of_omap in Hin as ([c x] & Hin & Hf). cbn in Hf.
  destruct x; [|done]. injection Hf as <- <-.
  apply elem_of_zip_l in Hin. done.
Qed.

Lemma tuple_row_cons c cs v u :
  tuple_row (c :: cs) (v :: u)
  = match v with
    | Some x => <[c := x]> (tuple_row cs u)
    | None => tuple_row cs u
    end.
Proof. unfold tuple_row. by destruct v. Qed.

Lemma tuple_row_lookup cs u i k :
  NoDup cs → cs !! i = Some k →
  tuple_row cs u !! k = mjoin (u !! i).
Proof.
  intros Hnd. revert u i. induction Hnd as [|c cs Hc Hnd IH]; intros u i Hi; [done|].
  destruct u as [|v u].
  { unfold tuple_row. rewrite zip_with_nil_r. by destruct i. }
  rewrite tuple_row_cons. destruct i as [|i]; cbn in Hi.
  - injection Hi as ->. cbn. destruct v as [x|]; cbn.
    + by rewrite lookup_insert_eq.
    + by apply tuple_row_notin.
  - assert (k ≠ c).
    { intros ->. apply Hc. by eapply list_elem_of_lookup_2. }
    cbn. destruct v as [x|].
    + rewrite lookup_insert_ne by done. by apply IH.
    + by apply IH.
Qed.

Lemma has_key_inj key kvals kvals' r :
  has_key key kvals r → has_key key kvals' r → kvals = kvals'.
Proof.
  unfold has_key. intros -> E. eapply (inj (fmap Some)). done.
Qed.

(** *** Inserting with conflict-skip *)

Lemma insert_do_nothing_spec key t vals :
  key ∈ unique t →
  Forall (λ c, is_Some (vals !! c)) (not_null t) →
  insert_do_nothing key t vals
  = inr (Table (cols t) (not_null t) (unique t) (next_id t + 1)
           (rows t ++ if existsb (conflicts key (<["id" := num (next_id t)]> vals)) (rows t)
                      then [] else [<["id" := num (next_id t)]> vals])).
Proof.
  intros Hkey Hnn. unfold insert_do_nothing.
  rewrite bool_decide_eq_true_2 by done. cbn [negb].
  assert (Hf : forallb (λ c, bool_decide (is_Some (<["id" := num (next_id t)]> vals !! c)))
                 (not_null t) = true).
  { apply forallb_forall. intros c Hc. apply bool_decide_eq_true_2.
    rewrite Forall_forall in Hnn. apply list_elem_of_In in Hc. apply Hnn in Hc.
    destruct (decide (c = "id")) as [->|]; [by rewrite lookup_insert_eq|].
    by rewrite lookup_insert_ne. }
  rewrite Hf. cbn [negb]. destruct (existsb _ _); by rewrite ?app_nil_r.
Qed.

Lemma filter_has_key_conflict key kvals r l :
  has_key key kvals r →
  existsb (conflicts key r) l = true ↔ filter (has_key key kvals) l ≠ [].
Proof.
  intros Hr. rewrite existsb_exists. split.
  - intros (r' & Hin & Hc). apply conflicts_has_key in Hc as (kv & H1 & H2).
    rewrite (has_key_inj _ _ _ _ Hr H1). intros E.
    apply list_elem_of_In in Hin.
    assert (r' ∈ filter (has_key key kv) l) as Hin' by (by apply list_elem_of_filter).
    rewrite E in Hin'. by apply elem_of_nil in Hin'.
  - intros Hne. destruct (filter (has_key key kvals) l) as [|r' l'] eqn:E; [done|].
    assert (r' ∈ filter (has_key key kvals) l) as Hin by (rewrite E; left).
    apply list_elem_of_filter in Hin as [Hk Hin]. exists r'. split.
    + by apply list_elem_of_In.
    + apply conflicts_has_key. by exists kvals.
Qed.

Lemma insert_select_spec key cs tuples t :
  key ∈ unique t →
  Forall (λ c, c ∈ cols t) cs →
  "id" ∉ key → "id" ∉ cs →
  Forall (λ u, Forall (λ c, is_Some (tuple_row cs u !! c)) (not_null t)) tuples →
  ∃ t',
    insert_select key cs tuples t = inr t'
    ∧ cols t' = cols t ∧ not_null t' = not_null t ∧ unique t' = unique t
    ∧ (∃ added,
         rows t' = rows t ++ added
         ∧ Forall (λ r, ∃ u i, u ∈ tuples ∧ r = <["id" := num i]> (tuple_row cs u)) added)
    ∧ ∀ kvals,
        delete "id" <$> filter (has_key key kvals) (rows t')
        = match filter (has_key key kvals) (rows t) with
          | [] => option_list
                    (tuple_row cs
                     <$> first_match (λ u, has_key key kvals (tuple_row cs u)) tuples)
          | l => delete "id" <$> l
          end.
Proof.
  intros Hkey Hcs Hidk Hidc Hnn. unfold insert_select, require_columns.
  assert (Hcols : forallb (has_column t) cs = true).
  { apply forallb_forall. intros c Hc. unfold has_column.
    apply bool_decide_eq_true_2. rewrite Forall_forall in Hcs.
    apply Hcs. by apply list_elem_of_In. }
  rewrite Hcols. cbn [mbind result_bind]. clear Hcols Hcs.
  revert t Hkey Hnn. induction tuples as [|u rest IH]; intros t Hkey Hnn.
  - cbn. exists t. split_and!; try done.
    + exists []. by rewrite app_nil_r.
    + intros kvals. by destruct (filter _ (rows t)).
  - cbn [foldl]. apply Forall_cons_1 in Hnn as [Hu Hrest].
    change (t' ← inr t; insert_do_nothing key t' (tuple_row cs u))
      with (insert_do_nothing key t (tuple_row cs u)).
    rewrite insert_do_nothing_spec by done.
    set (r := <["id" := num (next_id t)]> (tuple_row cs u)).
    set (t1 := Table _ _ _ _ _).
    destruct (IH t1) as (t' & Hsel & Hc & Hn & Hu' & (added & Hrows & Hadded) & Hfilter);
      [done|done|].
    exists t'. split_and!; try done.
    + exists ((if existsb (conflicts key r) (rows t) then [] else [r]) ++ added).
      split; [rewrite Hrows; cbn; by rewrite <- app_assoc|].
      apply Forall_app. split.
      * destruct (existsb _ _); constructor; [|done].
        exists u, (next_id t). split; [left|done].
      * eapply Forall_impl; [done|]. cbn. intros r' (u' & i & Hin & ->).
        exists u', i. split; [by right|done].
    + intros kvals. rewrite Hfilter. cbn [rows t1 first_match].
      rewrite filter_app.
      assert (Hr : has_key key kvals r ↔ has_key key kvals (tuple_row cs u)).
      { by apply has_key_insert_id. }
      assert (Hdel : delete "id" r = tuple_row cs u).
      { unfold r. rewrite delete_insert_eq. apply delete_id.
        by apply tuple_row_notin. }
      destruct (decide (has_key key kvals (tuple_row cs u))) as [Hk|Hk].
      * apply Hr in Hk.
        pose proof (filter_has_key_conflict key kvals r (rows t) Hk) as Hcf.
        destruct (existsb (conflicts key r) (rows t)).
        -- cbn. rewrite app_nil_r.
           destruct (filter (has_key key kvals) (rows t)); [|done].
           exfalso. by apply Hcf.
        -- destruct (filter (has_key key kvals) (rows t)) eqn:E.
           ++ rewrite filter_cons, decide_True by done. cbn. by rewrite Hdel.
           ++ exfalso. assert (false = true); [|done]. by apply Hcf.
      * assert (Hk' : ¬ has_key key kvals r) by (by rewrite Hr).
        destruct (existsb (conflicts key r) (rows t)).
        -- cbn. by rewrite app_nil_r.
        -- rewrite filter_cons, decide_False by done. cbn. by rewrite app_nil_r.
Qed.

End SqlFacts.


(** * Properties of the loader *)

Section LoaderFacts.

Context {env : environment}.

Variable fault : nat → option error.

Lemma batchSize_pos : 0 < Load.batchSize.
Proof. unfold Load.batchSize. lia. Qed.

Lemma is_biology_iff entry :
  Load.is_biology entry = true ↔ field entry "hud_category" = JStr "Biology".
Proof.
  unfold Load.is_biology, strict_eq_string.
  destruct (field entry "hud_category") as [| | | |s| |]; try (split; [discriminate|congruence]).
  rewrite String.eqb_eq. split; congruence.
Qed.

Lemma accepted_stream_values doc :
  accepted (Load.stream_values doc) = accepted doc.
Proof.
  unfold accepted, Load.stream_values. f_equal.
  induction doc as [|v doc IH]; [done|].
  rewrite !filter_cons. destruct (decide (v ≠ JNull ∧ v ≠ JUndefined)) as [|Hn].
  - rewrite filter_cons. by rewrite IH.
  - rewrite IH. destruct (decide (Load.is_biology v = true)) as [Hb|]; [|done].
    exfalso. apply Hn. split; intros ->; discriminate.
Qed.

Lemma accepted_cons_true entry doc :
  Load.is_biology entry = true → accepted (entry :: doc) = Load.to_row entry :: accepted doc.
Proof. intros H. unfold accepted. rewrite filter_cons. by rewrite decide_True. Qed.

Lemma accepted_cons_false entry doc :
  Load.is_biology entry = false → accepted (entry :: doc) = accepted doc.
Proof.
  intros H. unfold accepted. rewrite filter_cons.
  rewrite decide_False; [done|congruence].
Qed.

(** *** Traces *)

Lemma inserted_items_app a b :
  inserted_items (a ++ b) = inserted_items a ++ inserted_items b.
Proof. apply omap_app. Qed.

Lemma inserted_items_Inserted items :
  inserted_items (Inserted <$> items) = items.
Proof.
  unfold inserted_items. induction items as [|i l IH]; [done|].
  cbn. by rewrite IH.
Qed.

Lemma flush_groups_inserts items cur tr :
  flush_groups cur ((Inserted <$> items) ++ tr) = flush_groups (cur ++ items) tr.
Proof.
  revert cur. induction items as [|i l IH]; intros cur; cbn.
  - by rewrite app_nil_r.
  - rewrite IH. by rewrite <- app_assoc.
Qed.

Lemma flush_groups_sep a ev b cur :
  is_insert ev = false →
  flush_groups cur (a ++ ev :: b) = flush_groups cur a ++ flush_groups [] b.
Proof.
  intros Hev. revert cur. induction a as [|x a IH]; intros cur; cbn.
  - destruct ev; try discriminate; done.
  - destruct x; rewrite ?IH; try done; by rewrite app_assoc.
Qed.

Lemma flush_groups_skip ev b cur :
  is_insert ev = false →
  flush_groups cur (ev :: b) = close_group cur ++ flush_groups [] b.
Proof. intros Hev. by destruct ev. Qed.

Lemma flush_groups_concat tr cur :
  concat (flush_groups cur tr) = cur ++ inserted_items tr.
Proof.
  revert cur. induction tr as [|ev tr IH]; intros cur.
  - cbn. destruct cur; cbn; by rewrite ?app_nil_r.
  - destruct ev; cbn; rewrite ?concat_app, ?IH; cbn;
      try (destruct cur; cbn; by rewrite ?app_nil_r).
    by rewrite <- app_assoc.
Qed.

Lemma chunked_length {A} B (gs : list (list A)) :
  0 < B → chunked B gs → length gs = (length (concat gs) + B - 1) / B.
Proof.
  intros HB. induction 1 as [|g Hg|g gs Hg Hgs IH]; cbn.
  - symmetry. apply Nat.div_small. lia.
  - rewrite app_nil_r. symmetry.
    replace (length g + B - 1) with (1 * B + (length g - 1)) by lia.
    rewrite Nat.div_add_l by lia. rewrite Nat.div_small; lia.
  - rewrite length_app, Hg, IH.
    replace (B + length (concat gs) + B - 1) with (1 * B + (length (concat gs) + B - 1)) by lia.
    rewrite Nat.div_add_l by lia. lia.
Qed.

(** *** One insert, one flush *)

Lemma stored_from_app id a b :
  stored_from id (a ++ b) = stored_from id a ++ stored_from (id + Z.of_nat (length a)) b.
Proof.
  revert id. induction a as [|x a IH]; intros id; cbn.
  - by rewrite Z.add_0_r.
  - rewrite IH. do 3 f_equal. lia.
Qed.

Lemma insert_item_spec item w :
  match Load.insert_item fault item w with
  | (Return _, w') =>
      trace w' = trace w ++ [Inserted item]
      ∧ table_rows (db w') = table_rows (db w) ++ [stored (table_next (db w)) item]
      ∧ table_next (db w') = (table_next (db w) + 1)%Z
  | (Throw e, w') =>
      trace w' = trace w ++ [InsertFailed item e] ∧ db w' = db w
  | (Exited _, _) => False
  end.
Proof.
  unfold Load.insert_item, pool_query.
  destruct (fault (queries w)); [done|].
  unfold Load.insert_codex_entry, table_rows, table_next.
  destruct (db w !! "codex_entries") as [t|] eqn:Ht; [|done].
  destruct (forallb _ _); [|done].
  cbn. rewrite lookup_insert_eq. done.
Qed.

Lemma flush_spec items w :
  match Load.flush fault items w with
  | (Return _, w') =>
      trace w' = trace w ++ (Inserted <$> items)
      ∧ table_rows (db w') = table_rows (db w) ++ stored_from (table_next (db w)) items
      ∧ table_next (db w') = (table_next (db w) + Z.of_nat (length items))%Z
  | (Throw e, w') =>
      ∃ done item rest,
        items = done ++ item :: rest
        ∧ trace w' = trace w ++ (Inserted <$> done) ++ [InsertFailed item e]
        ∧ table_rows (db w') = table_rows (db w) ++ stored_from (table_next (db w)) done
  | (Exited _, _) => False
  end.
Proof.
  revert w. induction items as [|item items IH]; intros w.
  - cbn. rewrite !app_nil_r. split_and!; [done..|lia].
  - cbn [Load.flush]. unfold mbind, M_bind.
    pose proof (insert_item_spec item w) as Hi.
    destruct (Load.insert_item fault item w) as [[[]|e|c] w1]; [| |done].
    + destruct Hi as (Ht & Hr & Hn). specialize (IH w1).
      destruct (Load.flush fault items w1) as [[[]|e|c] w2]; [| |done].
      * destruct IH as (Ht' & Hr' & Hn'). rewrite Ht', Ht, Hr', Hr, Hn', Hn.
        cbn. rewrite <- !app_assoc. split_and!; [done..|lia].
      * destruct IH as (dn & it & rest & -> & Ht' & Hr').
        exists (item :: dn), it, rest. rewrite Ht', Ht, Hr', Hr, Hn.
        cbn. rewrite <- !app_assoc. done.
    + destruct Hi as (Ht & Hd). exists [], item, items.
      rewrite Ht, Hd. cbn. by rewrite app_nil_r.
Qed.

End LoaderFacts.

Section StreamFacts.

Context {env : environment}.
Variable fault : nat → option error.

Lemma idle_nil : idle [].
Proof. constructor. Qed.

Lemma idle_quiet evs : idle evs → quiet evs.
Proof. intros H. eapply Forall_impl; [exact H|]. by intros ev [_ ?]. Qed.

Lemma idle_inserted evs : idle evs → inserted_items evs = [].
Proof.
  induction 1 as [|ev evs [Hi _] _ IH]; [done|].
  unfold inserted_items in *. cbn. rewrite IH. by destruct ev.
Qed.

Lemma idle_flushes evs tr cur :
  idle evs → evs ≠ [] →
  flush_groups cur (evs ++ tr) = close_group cur ++ flushes tr.
Proof.
  intros Hevs. revert cur. induction Hevs as [|ev evs [Hi _] Hevs IH]; [done|].
  intros cur _. cbn [app]. rewrite flush_groups_skip by done. f_equal.
  destruct evs as [|ev' evs']; [done|]. by rewrite IH.
Qed.

Lemma idle_flushes_nil evs tr : idle evs → flushes (evs ++ tr) = flushes tr.
Proof.
  intros Hevs. destruct evs as [|ev evs]; [done|].
  unfold flushes. by rewrite idle_flushes.
Qed.

Lemma progress_spec s w :
  ∃ evs, Load.progress s w = World (db w) (queries w) (trace w ++ evs) ∧ idle evs.
Proof.
  unfold Load.progress. destruct (_ =? _).
  - eexists [_]. split; [done|]. by repeat constructor.
  - exists []. rewrite app_nil_r. destruct w. split; [done|constructor].
Qed.

Lemma resume_returns_spec s w :
  ∃ evs,
    (Load.resume_returns s w).2 = World (db w) (queries w) (trace w ++ evs)
    ∧ idle evs
    ∧ same_but_resuming s (Load.resume_returns s w).1
    ∧ Load.resuming (Load.resume_returns s w).1 = None.
Proof.
  unfold Load.resume_returns. destruct (Load.resuming s) eqn:E.
  - destruct (progress_spec s w) as (evs & -> & Hevs). exists evs. by split_and!.
  - exists []. rewrite app_nil_r. destruct w. by split_and!; [..|constructor| |].
Qed.

Lemma buffer_checked_spec s w :
  ∃ evs,
    (Load.buffer_checked s w).2 = World (db w) (queries w) (trace w ++ evs)
    ∧ idle evs
    ∧ same_but_resuming s (Load.buffer_checked s w).1.
Proof.
  unfold Load.buffer_checked.
  destruct (Load.resuming s) as [[|k]|];
    [destruct (resume_returns_spec s w) as (evs & ? & ? & ? & _); by exists evs|..];
    exists []; rewrite app_nil_r; destruct w; by split_and!; [..|constructor|].
Qed.

Lemma ready_same s s' : same_but_resuming s s' → ready s → ready s'.
Proof.
  intros (_ & Hb & Hp & Hd & Hpr) (? & ? & ? & ?). unfold ready.
  by rewrite Hb, Hp, Hd, Hpr.
Qed.

Lemma handed_out_same s : same_but_resuming s (Load.handed_out s).
Proof. by split_and!. Qed.

Lemma quiet_inserts items : quiet (Inserted <$> items).
Proof. induction items; constructor; done. Qed.

Lemma quiet_app a b : quiet a → quiet b → quiet (a ++ b).
Proof. apply Forall_app_2. Qed.

Lemma drain_stopped buffer s w :
  Load.paused s || Load.destroyed s = true → Load.drain fault buffer s w = (s, w).
Proof. intros Hs. destruct buffer; cbn; by rewrite Hs. Qed.

(** One ['data'] event from a ready state either leaves the stream ready,
    having flushed nothing or exactly one full batch, or ends the run: at
    an insert that fails, or at a row that cannot be built. *)
Lemma on_data_spec entry s w :
  ready s →
  ∃ evs,
    trace (Load.on_data fault entry s w).2 = trace w ++ evs
    ∧ table_rows (db (Load.on_data fault entry s w).2)
      = table_rows (db w) ++ stored_from (table_next (db w)) (inserted_items evs)
    ∧ ((ready (Load.on_data fault entry s w).1
        ∧ table_next (db (Load.on_data fault entry s w).2)
          = (table_next (db w) + Z.of_nat (length (inserted_items evs)))%Z
        ∧ quiet evs
        ∧ Load.batch s ++ accepted [entry]
          = inserted_items evs ++ Load.batch (Load.on_data fault entry s w).1
        ∧ (∀ tr, flushes (evs ++ tr) = close_group (inserted_items evs) ++ flushes tr)
        ∧ (inserted_items evs = [] ∨ length (inserted_items evs) = Load.batchSize))
       ∨ (Load.destroyed (Load.on_data fault entry s w).1 = true
          ∧ Load.resuming (Load.on_data fault entry s w).1 = None
          ∧ (run_aborted (Load.batch s ++ accepted [entry]) evs
                         (Load.on_data fault entry s w).1
             ∨ run_refused (Load.batch s ++ accepted [entry]) evs
                           (Load.on_data fault entry s w).1))).
Proof.
  intros (Hp & Hd & Hpr & Hlen). unfold Load.on_data.
  destruct (Load.is_biology entry) eqn:Hb; cbn [negb].
  2:{ exists []. rewrite accepted_cons_false by done. cbn.
      rewrite !app_nil_r. split_and!; try done. left.
      split_and!; try done; [lia|constructor|by left]. }
  rewrite accepted_cons_true by done. cbn [Load.batch Load.count accepted fmap].
  change (accepted []) with (@nil (list jsval)).
  destruct (Load.row_throws entry).
  { match goal with |- context [Load.resume_returns ?s0 ?w0] =>
      destruct (resume_returns_spec s0 w0) as (pe & Hw & Hpe & Hsame & Hres);
      destruct (Load.resume_returns s0 w0) as [s' w'] end.
    cbn [fst snd] in *. subst w'. cbn [trace db emit].
    destruct Hsame as (_ & _ & _ & Hds & Hprs).
    cbn [Load.destroyed Load.promise Load.settle] in Hds, Hprs. rewrite Hpr in Hprs.
    exists (StreamDestroy :: pe).
    assert (Hins : inserted_items (StreamDestroy :: pe) = [])
      by (apply idle_inserted; constructor; done).
    rewrite Hins. cbn [stored_from]. rewrite app_nil_r.
    split_and!; [by rewrite <- app_assoc|done|]. right. split_and!; [done..|]. right.
    unfold run_refused. rewrite Hins. split_and!; [done| |by eexists].
    constructor; [done|by apply idle_quiet]. }
  destruct (Load.batchSize <=? length (Load.batch s ++ [Load.to_row entry])) eqn:Hfull.
  - apply Nat.leb_le in Hfull. rewrite length_app in Hfull. cbn in Hfull.
    match goal with |- context [Load.resume_returns ?s0 ?w0] =>
      destruct (resume_returns_spec s0 w0) as (pe & Hw & Hpe & Hsame & Hres);
      destruct (Load.resume_returns s0 w0) as [s2 w2] end.
    cbn [fst snd] in *. subst w2. cbn [trace db queries emit] in *.
    destruct Hsame as (Hc2 & Hb2 & Hp2 & Hd2 & Hpr2).
    cbn [Load.count Load.batch Load.paused Load.destroyed Load.promise] in *.
    rewrite Hb2.
    pose proof (flush_spec fault (Load.batch s ++ [Load.to_row entry])
                  (World (db w) (queries w) ((trace w ++ [StreamPause]) ++ pe))) as Hf.
    destruct (Load.flush fault _ _) as [[[]|e|c] w1]; [| |done].
    + destruct Hf as (Ht & Hr & Hn). cbn [fst snd trace db] in *.
      exists (StreamPause :: pe ++ (Inserted <$> (Load.batch s ++ [Load.to_row entry]))
              ++ [StreamResume]).
      assert (Hins : inserted_items
                       (StreamPause :: pe
                        ++ (Inserted <$> (Load.batch s ++ [Load.to_row entry]))
                        ++ [StreamResume])
                     = Load.batch s ++ [Load.to_row entry]).
      { change (StreamPause :: ?l) with ([StreamPause] ++ l).
        rewrite !inserted_items_app, inserted_items_Inserted, (idle_inserted pe) by done.
        cbn. by rewrite app_nil_r. }
      rewrite Hins. cbn [trace db emit]. split_and!.
      * rewrite Ht. cbn. rewrite <- !app_assoc. done.
      * rewrite Hr. done.
      * left. split_and!.
        -- unfold ready. cbn. rewrite Hd2, Hpr2. split_and!; try done.
           apply batchSize_pos.
        -- rewrite Hn. done.
        -- constructor; [done|]. apply quiet_app; [by apply idle_quiet|].
           apply quiet_app; [apply quiet_inserts|by constructor].
        -- cbn. by rewrite app_nil_r.
        -- intros tr. unfold flushes.
           change (StreamPause :: pe ++ ?l) with ((StreamPause :: pe) ++ l).
           rewrite <- !app_assoc.
           rewrite (idle_flushes (StreamPause :: pe)); [| |done].
           2:{ constructor; done. }
           unfold flushes. rewrite flush_groups_inserts.
           cbn [app close_group].
           rewrite (flush_groups_skip StreamResume) by done.
           destruct (Load.batch s ++ [Load.to_row entry]) eqn:E; [|done].
           by destruct (Load.batch s).
        -- right. rewrite length_app. cbn. lia.
    + destruct Hf as (dn & item & rest & Hitems & Ht & Hr).
      cbn [fst snd trace db emit] in *.
      exists (StreamPause :: pe ++ (Inserted <$> dn)
              ++ [InsertFailed item e; StreamDestroy]).
      assert (Hins : inserted_items (StreamPause :: pe ++ (Inserted <$> dn)
                        ++ [InsertFailed item e; StreamDestroy]) = dn).
      { change (StreamPause :: ?l) with ([StreamPause] ++ l).
        rewrite !inserted_items_app, inserted_items_Inserted, (idle_inserted pe) by done.
        cbn. by rewrite app_nil_r. }
      rewrite Hins. split_and!.
      * rewrite Ht. cbn. rewrite <- ?app_assoc. cbn. rewrite <- ?app_assoc. done.
      * done.
      * right. split_and!; [done..|]. left.
        exists e, item, (StreamPause :: pe ++ (Inserted <$> dn)), [StreamDestroy], rest.
        split_and!.
        -- unfold Load.settle. cbn. by rewrite Hpr2, Hpr.
        -- cbn. by rewrite <- !app_assoc.
        -- constructor; [done|].
           apply quiet_app; [by apply idle_quiet|apply quiet_inserts].
        -- by right.
        -- change (StreamPause :: ?l) with ([StreamPause] ++ l).
           rewrite !inserted_items_app, inserted_items_Inserted, (idle_inserted pe) by done.
           done.
  - apply Nat.leb_gt in Hfull.
    match goal with |- context [Load.progress ?s3 ?w3] =>
      destruct (progress_spec s3 w3) as (pe & Hpe & Hidle); rewrite Hpe end.
    cbn [fst snd trace db]. exists pe. rewrite (idle_inserted pe) by done.
    cbn. rewrite !app_nil_r.
    split_and!; try done. left. split_and!.
    + repeat split; done.
    + lia.
    + by apply idle_quiet.
    + done.
    + intros tr. by apply idle_flushes_nil.
    + by left.
Qed.

Lemma accepted_app a b : accepted (a ++ b) = accepted a ++ accepted b.
Proof. unfold accepted. by rewrite filter_app, fmap_app. Qed.

Lemma on_end_spec s w :
  ready s →
  ∃ evs,
    trace (Load.on_end fault s w).2 = trace w ++ evs
    ∧ table_rows (db (Load.on_end fault s w).2)
      = table_rows (db w) ++ stored_from (table_next (db w)) (inserted_items evs)
    ∧ (run_completed (Load.batch s) evs (Load.on_end fault s w).1
       ∨ run_aborted (Load.batch s) evs (Load.on_end fault s w).1).
Proof.
  intros (Hp & Hd & Hpr & Hlen). unfold Load.on_end.
  destruct (Load.batch s) as [|item0 items0] eqn:Hbatch.
  { match goal with |- context [Load.resume_returns ?s0 ?w0] =>
      destruct (resume_returns_spec s0 w0) as (pe & Hw & Hpe & Hsame & _);
      destruct (Load.resume_returns s0 w0) as [s' w'] end.
    cbn [fst snd] in *. subst w'. cbn [trace db emit].
    destruct Hsame as (_ & _ & _ & _ & Hprs).
    cbn [Load.promise Load.settle] in Hprs. rewrite Hpr in Hprs.
    exists (ConsoleLogCount "Finished processing " (Load.count s) " entries" :: pe).
    assert (Hidle : idle (ConsoleLogCount "Finished processing " (Load.count s)
                                          " entries" :: pe))
      by (constructor; done).
    rewrite (idle_inserted _ Hidle). cbn [stored_from]. rewrite app_nil_r.
    split_and!; [by rewrite <- app_assoc|done|]. left.
    split_and!; [done|by apply idle_quiet|by apply idle_inserted|].
    rewrite <- (app_nil_r (_ :: pe)), idle_flushes_nil by done. constructor. }
  set (items := item0 :: items0) in *.
  assert (Hne : 1 ≤ length items) by (cbn; lia). clearbody items. clear item0 items0.
  destruct (resume_returns_spec s w) as (pe & Hw & Hpe & Hsame & _).
  destruct (Load.resume_returns s w) as [s1 w1]. cbn [fst snd] in *. subst w1.
  destruct Hsame as (Hc1 & Hb1 & _ & _ & Hpr1). rewrite Hb1, Hbatch, Hc1.
  pose proof (flush_spec fault items (World (db w) (queries w) (trace w ++ pe))) as Hf.
  destruct (Load.flush fault _ _) as [[[]|e|c] w1]; [| |done].
  - destruct Hf as (Ht & Hr & Hn). cbn [fst snd trace db emit] in *.
    exists (pe ++ (Inserted <$> items)
            ++ [ConsoleLogCount "Finished processing " (Load.count s) " entries"]).
    rewrite !inserted_items_app, inserted_items_Inserted, (idle_inserted pe) by done.
    cbn. rewrite app_nil_r.
    split_and!.
    + rewrite Ht. by rewrite <- !app_assoc.
    + done.
    + left. split_and!.
      * unfold Load.settle. cbn. by rewrite Hpr1, Hpr.
      * apply quiet_app; [by apply idle_quiet|].
        apply quiet_app; [apply quiet_inserts|by constructor].
      * rewrite !inserted_items_app, inserted_items_Inserted, (idle_inserted pe) by done.
        cbn. by rewrite app_nil_r.
      * rewrite idle_flushes_nil by done.
        unfold flushes. rewrite flush_groups_inserts. cbn [app flush_groups].
        destruct items; [cbn in Hne; lia|]. cbn [close_group app].
        apply chunked_last. lia.
  - destruct Hf as (dn & item & rest & Hitems & Ht & Hr). cbn [fst snd trace db] in *.
    exists (pe ++ (Inserted <$> dn) ++ [InsertFailed item e]).
    rewrite !inserted_items_app, inserted_items_Inserted, (idle_inserted pe) by done.
    cbn. rewrite app_nil_r.
    split_and!; [by rewrite Ht, <- !app_assoc|done|]. right.
    exists e, item, (pe ++ (Inserted <$> dn)), [], rest. split_and!.
    + unfold Load.settle. cbn. by rewrite Hpr1, Hpr.
    + by rewrite <- app_assoc.
    + apply quiet_app; [by apply idle_quiet|apply quiet_inserts].
    + by left.
    + by rewrite inserted_items_app, inserted_items_Inserted, (idle_inserted pe).
Qed.

Lemma progress_db s w : db (Load.progress s w) = db w.
Proof. destruct (progress_spec s w) as (evs & -> & _). done. Qed.

Lemma resume_returns_db s w : db (Load.resume_returns s w).2 = db w.
Proof. destruct (resume_returns_spec s w) as (evs & -> & _). done. Qed.

Lemma buffer_checked_db s w : db (Load.buffer_checked s w).2 = db w.
Proof. destruct (buffer_checked_spec s w) as (evs & -> & _). done. Qed.

Lemma buffer_checked_idle s w :
  Load.resuming s = None → Load.buffer_checked s w = (s, w).
Proof. unfold Load.buffer_checked. by intros ->. Qed.

(** The whole stream: every run either completes, with the rows of the
    accepted records written once each, in order, in full batches and one
    last partial one, or is cut short: by the first failed insert, or by
    the first row that cannot be built. *)
Lemma drain_spec buffer s w :
  ready s →
  ∃ evs,
    trace (Load.drain fault buffer s w).2 = trace w ++ evs
    ∧ table_rows (db (Load.drain fault buffer s w).2)
      = table_rows (db w) ++ stored_from (table_next (db w)) (inserted_items evs)
    ∧ (run_completed (Load.batch s ++ accepted buffer) evs
                     (Load.drain fault buffer s w).1
       ∨ run_aborted (Load.batch s ++ accepted buffer) evs
                     (Load.drain fault buffer s w).1
       ∨ run_refused (Load.batch s ++ accepted buffer) evs
                     (Load.drain fault buffer s w).1).
Proof.
  revert s w. induction buffer as [|entry rest IH]; intros s w Hs.
  - pose proof Hs as (Hp & Hd & Hpr & Hlen). cbn [Load.drain].
    rewrite Hp, Hd. cbn [orb]. change (accepted []) with (@nil (list jsval)).
    rewrite app_nil_r.
    destruct (on_end_spec (Load.handed_out s) w) as (evs & Ht & Hr & Hcase).
    { apply (ready_same s); [apply handed_out_same|done]. }
    exists evs. split_and!; [done..|]. destruct Hcase; [by left|by right; left].
  - pose proof Hs as (Hp & Hd & Hpr & Hlen). cbn [Load.drain].
    rewrite Hp, Hd. cbn [orb].
    destruct (on_data_spec entry (Load.handed_out s) w) as (evs1 & Ht1 & Hr1 & Hcase).
    { apply (ready_same s); [apply handed_out_same|done]. }
    cbn [Load.handed_out Load.batch] in Hcase.
    destruct (Load.on_data fault entry (Load.handed_out s) w) as [s1 w1].
    cbn [fst snd] in *.
    change (entry :: rest) with ([entry] ++ rest). rewrite accepted_app.
    destruct Hcase as [(Hs1 & Hn1 & Hq1 & Hb1 & Hfl1 & Hlen1)|(Hd1 & Hres1 & Hstop)].
    + destruct (buffer_checked_spec s1 w1) as (pe & Hw2 & Hpe & Hsame).
      destruct (Load.buffer_checked s1 w1) as [s2 w2]. cbn [fst snd] in *. subst w2.
      destruct (IH s2 (World (db w1) (queries w1) (trace w1 ++ pe)))
        as (evs2 & Ht2 & Hr2 & Hcase2); [by apply (ready_same s1 s2)|].
      cbn [trace db] in Ht2, Hr2.
      destruct Hsame as (_ & Hb2 & _). rewrite Hb2 in Hcase2.
      exists (evs1 ++ pe ++ evs2).
      rewrite !inserted_items_app, (idle_inserted pe) by done. cbn [app].
      split_and!.
      * rewrite Ht2, Ht1. by rewrite <- !app_assoc.
      * rewrite Hr2, Hr1, Hn1. rewrite stored_from_app. by rewrite app_assoc.
      * rewrite app_assoc, Hb1, <- app_assoc.
        destruct Hcase2
          as [(Hres & Hq2 & Hi2 & Hch)
             |[(e & item & pre & post & rs & Hrej & He & Hq2 & Hpost & Hi2)
              |(Hrej & Hq2 & rs & Hi2)]].
        -- left. split_and!; [done| | |].
           ++ apply quiet_app; [done|]. apply quiet_app; [by apply idle_quiet|done].
           ++ rewrite !inserted_items_app, (idle_inserted pe) by done. by rewrite Hi2.
           ++ rewrite Hfl1, idle_flushes_nil by done.
              destruct Hlen1 as [->|Hl]; [done|].
              destruct (inserted_items evs1) eqn:E; [done|].
              cbn [close_group app]. by apply chunked_cons.
        -- right; left. exists e, item, (evs1 ++ pe ++ pre), post, rs.
           split_and!; try done.
           ++ rewrite He. by rewrite <- !app_assoc.
           ++ apply quiet_app; [done|]. apply quiet_app; [by apply idle_quiet|done].
           ++ rewrite Hi2, !inserted_items_app, (idle_inserted pe) by done.
              by rewrite <- app_assoc.
        -- right; right. split_and!; [done| |].
           ++ apply quiet_app; [done|]. apply quiet_app; [by apply idle_quiet|done].
           ++ exists rs. rewrite Hi2, !inserted_items_app, (idle_inserted pe) by done.
              by rewrite <- app_assoc.
    + rewrite buffer_checked_idle by done.
      rewrite drain_stopped by (rewrite Hd1; apply orb_true_r).
      cbn [fst snd]. exists evs1. split_and!; [done..|].
      destruct Hstop as [Hab|(Hrej & Hq & rs & Hi)].
      * right; left.
        destruct Hab as (e & item & pre & post & rs & Hrej & He & Hq & Hpost & Hi).
        exists e, item, pre, post, (rs ++ accepted rest). split_and!; try done.
        rewrite app_assoc, Hi. by rewrite <- app_assoc.
      * right; right. split_and!; [done..|]. exists (rs ++ accepted rest).
        by rewrite app_assoc, Hi, <- app_assoc.
Qed.

End StreamFacts.


Section LoaderFacts.

Context {env : environment}.

Variable fault : nat → option error.

Lemma new_events_app w w' evs :
  trace w' = trace w ++ evs → new_events w w' = evs.
Proof. intros H. unfold new_events. rewrite H. by rewrite drop_app_length. Qed.

Lemma ready_initial : ready (Load.Loader 0 [] false false Load.Pending None).
Proof. repeat split; cbn; try done. apply batchSize_pos. Qed.

Lemma run_stream_spec doc w :
  ∃ evs,
    new_events w (Load.run_stream fault doc w).2 = evs
    ∧ table_rows (db (Load.run_stream fault doc w).2)
      = table_rows (db w) ++ stored_from (table_next (db w)) (inserted_items evs)
    ∧ (run_completed (accepted doc) evs (Load.run_stream fault doc w).1
       ∨ run_aborted (accepted doc) evs (Load.run_stream fault doc w).1
       ∨ run_refused (accepted doc) evs (Load.run_stream fault doc w).1).
Proof.
  unfold Load.run_stream.
  destruct (drain_spec fault (Load.stream_values doc) _ w ready_initial)
    as (evs & Ht & Hr & Hcase).
  exists evs. cbn [Load.batch app] in Hcase.
  rewrite accepted_stream_values in Hcase.
  split_and!; [by apply new_events_app|done..].
Qed.

Lemma insertData_outcome doc w :
  (Load.insertData fault doc w).2 = (Load.run_stream fault doc w).2
  ∧ (Load.insertData fault doc w).1
    = match Load.promise (Load.run_stream fault doc w).1 with
      | Load.Resolved => Return tt
      | Load.Rejected e => Throw e
      | Load.Pending => Exited 0
      end.
Proof.
  unfold Load.insertData. destruct (Load.run_stream fault doc w) as [s w'].
  cbn. by destruct (Load.promise s).
Qed.

Lemma insertData_completed doc w :
  (Load.insertData fault doc w).1 = Return tt →
  ∃ evs,
    new_events w (Load.insertData fault doc w).2 = evs
    ∧ table_rows (db (Load.insertData fault doc w).2)
      = table_rows (db w) ++ stored_from (table_next (db w)) (accepted doc)
    ∧ quiet evs
    ∧ inserted_items evs = accepted doc
    ∧ chunked Load.batchSize (flushes evs).
Proof.
  destruct (insertData_outcome doc w) as [-> ->].
  destruct (run_stream_spec doc w) as (evs & He & Hr & [Hc|[Ha|Hf]]).
  - destruct Hc as (_ & Hq & Hi & Hch). intros _. exists evs.
    rewrite Hr, Hi. done.
  - destruct Ha as (e & item & pre & post & rs & -> & _). discriminate.
  - destruct Hf as (-> & _). discriminate.
Qed.

Lemma accepted_tagged doc :
  accepted doc
  = Load.to_row <$> filter (λ entry, field entry "hud_category" = JStr "Biology") doc.
Proof.
  unfold accepted. f_equal. apply list_filter_iff. intros entry.
  apply is_biology_iff.
Qed.

Lemma stored_from_length id items : length (stored_from id items) = length items.
Proof. revert id. induction items; intros id; cbn; by rewrite ?IHitems. Qed.

Lemma failure_split_unique (pre pre' : list event) x x' post post' :
  is_failure x = true → quiet pre' → quiet post' →
  pre ++ x :: post = pre' ++ x' :: post' →
  pre = pre' ∧ x = x' ∧ post = post'.
Proof.
  intros Hx Hpre Hpost. revert pre. induction Hpre as [|y p Hy Hp IH]; intros pre E.
  - destruct pre as [|z pre]; cbn in E.
    + by injection E as -> ->.
    + injection E as -> E. exfalso.
      assert (Hin : x ∈ post') by (rewrite <- E; set_solver).
      unfold quiet in Hpost. rewrite Forall_forall in Hpost.
      apply Hpost in Hin. congruence.
  - destruct pre as [|z pre]; cbn in E.
    + injection E as -> E. congruence.
    + injection E as -> E. destruct (IH _ E) as (-> & -> & ->). done.
Qed.

(** C1. A record's row is written to [codex_entries] exactly when its
    [hud_category] is the string ["Biology"]: in a run that completes, the
    rows the store acknowledged and the rows added to the table are those
    of the Biology records of the document, one each, in document order;
    any other record leaves every variable, the database and the console
    as they were. *)
Theorem filter_correctness doc w :
  (Load.insertData fault doc w).1 = Return tt →
  inserted_items (new_events w (Load.insertData fault doc w).2)
  = Load.to_row <$> filter (λ entry, field entry "hud_category" = JStr "Biology") doc
  ∧ table_rows (db (Load.insertData fault doc w).2)
    = table_rows (db w)
      ++ stored_from (table_next (db w))
           (Load.to_row <$> filter (λ entry, field entry "hud_category" = JStr "Biology") doc)
  ∧ (∀ entry s w0,
       field entry "hud_category" ≠ JStr "Biology" →
       Load.on_data fault entry s w0 = (s, w0)).
Proof.
  intros Hrun.
  destruct (insertData_completed doc w Hrun) as (evs & -> & Hr & _ & Hi & _).
  rewrite <- accepted_tagged. split_and!; [done..|].
  intros entry s w0 Hne. unfold Load.on_data.
  destruct (Load.is_biology entry) eqn:Hb; [|done].
  by apply is_biology_iff in Hb.
Qed.

(** C3. A run that completes on a document with [N] accepted records
    issues [ceil(N / 1000)] flushes, the last one being the partial batch
    written at the end of the stream; together, in order, they write the
    accepted rows once each, and the table grows by [N] rows. *)
Theorem batch_completeness doc w :
  (Load.insertData fault doc w).1 = Return tt →
  let N := length (filter (λ entry, field entry "hud_category" = JStr "Biology") doc) in
  Load.batchSize = 1000
  ∧ length (flushes (new_events w (Load.insertData fault doc w).2))
    = (N + Load.batchSize - 1) / Load.batchSize
  ∧ concat (flushes (new_events w (Load.insertData fault doc w).2))
    = Load.to_row <$> filter (λ entry, field entry "hud_category" = JStr "Biology") doc
  ∧ length (table_rows (db (Load.insertData fault doc w).2))
    = length (table_rows (db w)) + N.
Proof.
  intros Hrun N.
  destruct (insertData_completed doc w Hrun) as (evs & -> & Hr & _ & Hi & Hch).
  assert (Hcat : concat (flushes evs) = accepted doc).
  { unfold flushes. by rewrite flush_groups_concat, Hi. }
  assert (HN : length (accepted doc) = N).
  { rewrite accepted_tagged. by rewrite length_fmap. }
  split_and!.
  - done.
  - rewrite (chunked_length _ _ batchSize_pos Hch), Hcat, HN. done.
  - by rewrite Hcat, accepted_tagged.
  - rewrite Hr, length_app, stored_from_length, HN. done.
Qed.

(** C8. When an insert fails, the run stops there: the promise is rejected
    with that error, nothing but the destruction of the stream follows the
    failure in the trace, the rows written are the accepted rows that
    precede the failing one, and the failing row and every later one are
    absent from the table. *)
Theorem write_failure_aborts doc w pre item e post :
  new_events w (Load.run_stream fault doc w).2 = pre ++ InsertFailed item e :: post →
  (Load.insertData fault doc w).1 = Throw e
  ∧ (post = [] ∨ post = [StreamDestroy])
  ∧ (∃ rest, accepted doc = inserted_items pre ++ item :: rest)
  ∧ table_rows (db (Load.insertData fault doc w).2)
    = table_rows (db w) ++ stored_from (table_next (db w)) (inserted_items pre).
Proof.
  intros Hsplit.
  destruct (insertData_outcome doc w) as [-> ->].
  destruct (run_stream_spec doc w) as (evs & He & Hr & [Hc|[Ha|Hf]]).
  - destruct Hc as (_ & Hq & _). exfalso. rewrite He in Hsplit. subst evs.
    apply Forall_app in Hq as [_ Hq]. by inversion Hq.
  - destruct Ha as (e' & item' & pre' & post' & rs & Hrej & Hevs & Hq & Hpost & Hi).
    rewrite He, Hevs in Hsplit. symmetry in Hsplit.
    apply failure_split_unique in Hsplit as (-> & Heq & ->); [|done|done|].
    2:{ destruct Hpost as [->| ->]; repeat constructor; done. }
    injection Heq as -> ->. rewrite Hrej. split_and!; [done|done|by exists rs|].
    rewrite Hr, Hevs, inserted_items_app. cbn.
    destruct Hpost as [->| ->]; cbn; by rewrite app_nil_r.
  - destruct Hf as (_ & Hq & _). exfalso. rewrite He in Hsplit. subst evs.
    apply Forall_app in Hq as [_ Hq]. by inversion Hq.
Qed.

End LoaderFacts.


Section FilterCorrectnessWitness.

#[local] Existing Instance plain.

Lemma filter_correctness_witness :
  inserted_items (new_events created (Load.insertData no_fault scenario created).2)
  = Load.to_row <$> filter (λ entry, field entry "hud_category" = JStr "Biology") scenario
  ∧ table_rows (db (Load.insertData no_fault scenario created).2)
    = table_rows (db created)
      ++ stored_from (table_next (db created))
           (Load.to_row <$> filter (λ entry, field entry "hud_category" = JStr "Biology") scenario)
  ∧ (∀ entry s w0,
       field entry "hud_category" ≠ JStr "Biology" →
       Load.on_data no_fault entry s w0 = (s, w0)).
Proof.
  apply (filter_correctness no_fault scenario created).
  vm_compute. reflexivity.
Defined.

End FilterCorrectnessWitness.

Section BatchCompletenessWitness.

#[local] Existing Instance plain.

Lemma batch_completeness_witness :
  let doc := replicate 1001 (record "Biology" "Bacterium" "Sol" "Earth" "Inner Orion Spur" "0") in
  let N := length (filter (λ entry, field entry "hud_category" = JStr "Biology") doc) in
  Load.batchSize = 1000
  ∧ length (flushes (new_events created (Load.insertData no_fault doc created).2))
    = (N + Load.batchSize - 1) / Load.batchSize
  ∧ concat (flushes (new_events created (Load.insertData no_fault doc created).2))
    = Load.to_row <$> filter (λ entry, field entry "hud_category" = JStr "Biology") doc
  ∧ length (table_rows (db (Load.insertData no_fault doc created).2))
    = length (table_rows (db created)) + N.
Proof.
  intros doc.
  apply (batch_completeness no_fault doc created).
  vm_compute. reflexivity.
Defined.

End BatchCompletenessWitness.

Section WriteFailureAbortsWitness.

#[local] Existing Instance plain.

Lemma write_failure_aborts_witness :
  (Load.insertData (fail_at 2 (ConnectionError "terminated")) scenario created).1
  = Throw (ConnectionError "terminated")
  ∧ (@nil event = [] ∨ @nil event = [StreamDestroy])
  ∧ (∃ rest, accepted scenario
             = inserted_items [Inserted (Load.to_row (record "Biology" "Bacterium" "Sol" "Earth" "Inner Orion Spur" "0"))]
               ++ Load.to_row (record "Biology" "Fungoida" "Sol" "Mars" "Inner Orion Spur" "0") :: rest)
  ∧ table_rows (db (Load.insertData (fail_at 2 (ConnectionError "terminated")) scenario created).2)
    = table_rows (db created)
      ++ stored_from (table_next (db created))
           (inserted_items [Inserted (Load.to_row (record "Biology" "Bacterium" "Sol" "Earth" "Inner Orion Spur" "0"))]).
Proof.
  apply (write_failure_aborts (fail_at 2 (ConnectionError "terminated")) scenario created).
  vm_compute. reflexivity.
Defined.

End WriteFailureAbortsWitness.

(** * Numeric coercion *)

Section Strings.

Lemma string_app_nil_r s : s +:+ "" = s.
Proof.
  induction s as [|c s IH]; [done|].
  change (String c (s +:+ "") = String c s). by rewrite IH.
Qed.

Lemma string_app_assoc s1 s2 s3 : (s1 +:+ s2) +:+ s3 = s1 +:+ (s2 +:+ s3).
Proof.
  induction s1 as [|c s1 IH]; [done|].
  change (String c ((s1 +:+ s2) +:+ s3) = String c (s1 +:+ (s2 +:+ s3))).
  by rewrite IH.
Qed.

Lemma string_app_length s1 s2 :
  String.length (s1 +:+ s2) = String.length s1 + String.length s2.
Proof.
  induction s1 as [|c s1 IH]; [done|].
  change (S (String.length (s1 +:+ s2)) = S (String.length s1 + String.length s2)).
  by rewrite IH.
Qed.

Lemma strip_prefix_app p s : strip_prefix p (p +:+ s) = Some s.
Proof.
  induction p as [|c p IH]; [done|].
  change (strip_prefix (String c p) (String c (p +:+ s)) = Some s).
  cbn [strip_prefix]. by rewrite Ascii.eqb_refl.
Qed.

Lemma strip_prefix_Some p s r : strip_prefix p s = Some r → s = p +:+ r.
Proof.
  revert s. induction p as [|c p IH]; intros s; cbn [strip_prefix].
  - by intros [= ->].
  - destruct s as [|b s]; [done|].
    destruct (Ascii.eqb_spec c b) as [->|]; [|done].
    intros H. apply IH in H as ->. done.
Qed.

End Strings.

Section WhiteSpace.

Lemma white_space_char c s :
  c ∈ StrWhiteSpaceChar → white_space (c +:+ s) = Some s.
Proof.
  intros Hc. revert s. revert c Hc.
  apply (Forall_forall (λ c, ∀ s, white_space (c +:+ s) = Some s)).
  unfold StrWhiteSpaceChar. rewrite !fmap_cons, fmap_nil.
  repeat (constructor; [intros s; reflexivity|]). constructor.
Qed.

Lemma white_space_Some s r :
  white_space s = Some r → ∃ c, c ∈ StrWhiteSpaceChar ∧ s = c +:+ r.
Proof.
  unfold white_space. intros H.
  assert (Hin : r ∈ omap (λ c, strip_prefix c s) StrWhiteSpaceChar).
  { destruct (omap _ _) as [|x l]; [done|]. injection H as ->. left. }
  apply list_elem_of_omap in Hin as (c & Hc & Hs). exists c. split; [done|].
  by apply strip_prefix_Some.
Qed.


Lemma white_char_length c :
  c ∈ StrWhiteSpaceChar → 1 ≤ String.length c.
Proof.
  revert c. apply Forall_forall. apply (bool_decide_unpack _). by vm_compute.
Qed.






End WhiteSpace.

Section Scanner.












End Scanner.

Section Values.







End Values.

Section ParseFloat.

Variable ws : list string.
Hypothesis white : Forall (λ c, c ∈ StrWhiteSpaceChar) ws.








End ParseFloat.

(** Every string has one of the three shapes above. *)
Section Shapes.

Lemma white_split s :
  ∃ ws r, s = joined ws +:+ r
          ∧ Forall (λ c, c ∈ StrWhiteSpaceChar) ws ∧ ¬ begins_white r.
Proof.
  remember (String.length s) as n eqn:Hn. revert s Hn.
  induction n as [n IH] using lt_wf_ind. intros s ->.
  destruct (white_space s) as [r'|] eqn:E.
  - apply white_space_Some in E as (c & Hc & ->).
    destruct (IH (String.length r')) with (s := r') as (ws & r & -> & Hws & Hr);
      [|done|].
    { rewrite string_app_length. pose proof (white_char_length c Hc). lia. }
    exists (c :: ws), r. split_and!; [|by constructor|done].
    cbn [joined foldr]. by rewrite string_app_assoc.
  - exists [], s. split_and!; [done|constructor|].
    intros (c & r & Hc & ->). by rewrite white_space_char in E.
Qed.

Lemma span_digits_spec s :
  ∃ ds r, s = string_of_list_ascii ds +:+ r
          ∧ all_digits ds ∧ first_is is_digit r = false.
Proof.
  induction s as [|c s (ds & r & -> & Hds & Hr)].
  - exists [], "". split_and!; [done|constructor|done].
  - destruct (is_digit c) eqn:Hc.
    + exists (c :: ds), r. split_and!; [done|by constructor|done].
    + exists [], (String c (string_of_list_ascii ds +:+ r)).
      split_and!; [done|constructor|done].
Qed.

Lemma first_digit_span ds r :
  first_is is_digit r = false →
  first_is is_digit (string_of_list_ascii ds +:+ r) = true → ds ≠ [].
Proof.
  intros Hr H ->. change (first_is is_digit r = true) in H. congruence.
Qed.

Lemma exponent_cases s :
  begins_exponent s = false
  ∨ ∃ x rest, s = exponent_text x +:+ rest
              ∧ all_digits (exp_digits x) ∧ exp_digits x ≠ []
              ∧ first_is is_digit rest = false.
Proof.
  destruct (begins_exponent s) eqn:E; [right|left; reflexivity].
  destruct s as [|c r]; [done|]. cbn [begins_exponent] in E.
  apply andb_true_iff in E as [Hc E].
  assert (Hcap : ∃ cap : bool, c = (if cap then "E" else "e")%char).
  { apply orb_true_iff in Hc as [Hc|Hc]; apply Ascii.eqb_eq in Hc as ->;
      [by exists false|by exists true]. }
  destruct Hcap as [cap ->].
  apply orb_true_iff in E as [E|E].
  - destruct (span_digits_spec r) as (ds & rest & -> & Hds & Hrest).
    exists (Exponent cap NoSign ds), rest. split_and!; try done.
    exact (first_digit_span ds _ Hrest E).
  - destruct r as [|c' r']; [done|]. apply andb_true_iff in E as [Hs E].
    destruct (span_digits_spec r') as (ds & rest & -> & Hds & Hrest).
    assert (Hne : ds ≠ []) by exact (first_digit_span ds _ Hrest E).
    unfold is_sign in Hs.
    apply orb_true_iff in Hs as [Hs|Hs]; apply Ascii.eqb_eq in Hs as ->.
    + exists (Exponent cap Plus ds), rest. by split_and!.
    + exists (Exponent cap Minus ds), rest. by split_and!.
Qed.

Lemma strip_char_cases c s :
  (∃ r, s = String c r ∧ strip_char c s = Some r)
  ∨ (first_is (Ascii.eqb c) s = false ∧ strip_char c s = None).
Proof.
  destruct s as [|a r]; [by right|]. cbn [strip_char first_is].
  rewrite (Ascii.eqb_sym c a).
  destruct (Ascii.eqb_spec a c) as [->|]; [left; by exists r|by right].
Qed.

Lemma literal_cases r :
  first_is is_digit r = true
  ∨ (∃ r', r = String "."%char r' ∧ first_is is_digit r' = true) →
  ∃ l rest, r = literal_text l +:+ rest ∧ well_formed l ∧ ends_literal l rest.
Proof.
  intros H. destruct (span_digits_spec r) as (ip & r1 & -> & Hip & Hr1).
  destruct (strip_char_cases "." r1) as [(r2 & -> & _)|[Hp _]].
  - destruct (span_digits_spec r2) as (fp & r3 & -> & Hfp & Hr3).
    assert (Hne : ip ≠ [] ∨ fp ≠ []).
    { destruct H as [H|(r' & E & H)].
      - left. exact (first_digit_span ip _ Hr1 H).
      - right. destruct ip as [|d ip].
        + injection E as <-. exact (first_digit_span fp _ Hr3 H).
        + injection E as -> _. apply Forall_cons_1 in Hip as [Hd _].
          by vm_compute in Hd. }
    destruct (exponent_cases r3) as [He|(x & rest & -> & Hx1 & Hx2 & Hrest)].
    + exists (Literal ip true fp None), r3.
      unfold literal_text, well_formed, ends_literal.
      cbn [int_digits has_point frac_digits exp from_option].
      rewrite !string_app_assoc. by split_and!.
    + exists (Literal ip true fp (Some x)), rest.
      unfold literal_text, well_formed, ends_literal.
      cbn [int_digits has_point frac_digits exp from_option].
      rewrite !string_app_assoc. by split_and!.
  - assert (Hne : ip ≠ []).
    { destruct H as [H|(r' & E & H)]; [exact (first_digit_span ip _ Hr1 H)|].
      destruct ip as [|d ip]; [|done]. change (r1 = String "."%char r') in E.
      subst. by vm_compute in Hp. }
    destruct (exponent_cases r1) as [He|(x & rest & -> & Hx1 & Hx2 & Hrest)].
    + exists (Literal ip false [] None), r1.
      unfold literal_text, well_formed, ends_literal.
      cbn [int_digits has_point frac_digits exp from_option].
      rewrite !string_app_assoc. split_and!; try done; [constructor|by left].
    + exists (Literal ip false [] (Some x)), rest.
      unfold literal_text, well_formed, ends_literal.
      cbn [int_digits has_point frac_digits exp from_option].
      rewrite !string_app_assoc. split_and!; try done; [constructor|by left].
Qed.

Lemma number_cases r :
  ¬ begins_number r
  ∨ (∃ rest, r = "Infinity" +:+ rest)
  ∨ ∃ l rest, r = literal_text l +:+ rest ∧ well_formed l ∧ ends_literal l rest.
Proof.
  destruct (strip_prefix "Infinity" r) as [rest|] eqn:EI.
  { right; left. exists rest. by apply strip_prefix_Some. }
  destruct (first_is is_digit r) eqn:Hd.
  { right; right. apply literal_cases. by left. }
  destruct (strip_char_cases "." r) as [(r' & -> & _)|[Hp _]].
  - destruct (first_is is_digit r') eqn:Hd'.
    + right; right. apply literal_cases. right. by exists r'.
    + left. intros [(rest & E)|[H|(r2 & [= <-] & H)]]; [done|done|congruence].
  - left. intros [(rest & ->)|[H|(r2 & -> & H)]]; [|congruence|done].
    by rewrite strip_prefix_app in EI.
Qed.

Lemma parse_float_shapes s :
  ∃ ws sg r,
    s = joined ws +:+ sign_text sg +:+ r
    ∧ Forall (λ c, c ∈ StrWhiteSpaceChar) ws
    ∧ (sg = NoSign → ¬ begins_white r ∧ first_is is_sign r = false)
    ∧ (¬ begins_number r
       ∨ (∃ rest, r = "Infinity" +:+ rest)
       ∨ ∃ l rest, r = literal_text l +:+ rest
                   ∧ well_formed l ∧ ends_literal l rest).
Proof.
  destruct (white_split s) as (ws & r0 & -> & Hws & Hr0).
  destruct (strip_char_cases "-" r0) as [(r & -> & _)|[Hm _]].
  { exists ws, Minus, r. split_and!; [done|done|done|apply number_cases]. }
  destruct (strip_char_cases "+" r0) as [(r & -> & _)|[Hp _]].
  { exists ws, Plus, r. split_and!; [done|done|done|apply number_cases]. }
  exists ws, NoSign, r0. split_and!; [done|done| |apply number_cases].
  intros _. split; [done|]. destruct r0 as [|a r]; [done|].
  cbn [first_is] in *. unfold is_sign.
  by rewrite (Ascii.eqb_sym a "+"), (Ascii.eqb_sym a "-"), Hm, Hp.
Qed.

End Shapes.


Section CoercionFacts.

Context {env : environment}.

Variable fault : nat → option error.

Lemma param_row_lookup cs item i k :
  NoDup cs → cs !! i = Some k →
  Load.param_row cs item !! k = item !! i ≫= cell.
Proof.
  intros Hnd Hi. unfold Load.param_row.
  rewrite (tuple_row_lookup _ _ i) by done.
  rewrite list_lookup_fmap. by destruct (item !! i).
Qed.

Lemma insert_columns_NoDup : NoDup Load.insert_columns.
Proof. apply (bool_decide_unpack _). by vm_compute. Qed.




End CoercionFacts.

Section CoordinateNotNull.

#[local] Existing Instance plain.


End CoordinateNotNull.

Section NumericCoercionWitness.

#[local] Existing Instance plain.


End NumericCoercionWitness.

(** What [parseFloat] reads in some strings: a number after a no-break
    space, a numeral that is not a binary64 value, exponents, a literal cut
    short, the infinities, numerals beyond the range, and strings that do not
    start like a number. *)
Example parse_float_samples :
  parse_float_string (bytes [194; 160] +:+ "12") = Finite (12 # 1)
  ∧ parse_float_string "9007199254740993" = Finite (9007199254740992 # 1)
  ∧ parse_float_string "1e3" = Finite (1000 # 1)
  ∧ parse_float_string " 1.5E+2x" = Finite (150 # 1)
  ∧ parse_float_string ".5" = Finite (1 # 2)
  ∧ parse_float_string "5." = Finite (5 # 1)
  ∧ parse_float_string "1e+" = Finite (1 # 1)
  ∧ parse_float_string "0x1F" = Finite (0 # 1)
  ∧ parse_float_string "12,5" = Finite (12 # 1)
  ∧ parse_float_string "1e400" = Infinity false
  ∧ parse_float_string "-1e400" = Infinity true
  ∧ parse_float_string "1e-400" = Finite (0 # 1)
  ∧ parse_float_string "-Infinityx" = Infinity true
  ∧ parse_float_string "infinity" = NaN
  ∧ parse_float_string "" = NaN
  ∧ parse_float_string "." = NaN
  ∧ parse_float_string "e5" = NaN
  ∧ parse_float_string "- 1" = NaN
  ∧ parse_float_string "+-1" = NaN.
Proof. vm_compute. by split_and!. Qed.


(** * Properties of the normalizer *)

Section MonadFacts.

Context {env : environment}.

Variable fault : nat → option error.
Variable I : gmap string table → Prop.

Lemma preserves_ret {A} (a : A) : preserves I (mret a : M A).
Proof. by intros w. Qed.

Lemma preserves_bind {A B} (m : M A) (k : A → M B) :
  preserves I m → (∀ a, preserves I (k a)) → preserves I (m ≫= k).
Proof.
  intros Hm Hk w Hw. unfold mbind, M_bind. specialize (Hm w Hw).
  destruct (m w) as [[a|e|c] w1]; cbn in *; [by apply Hk|done..].
Qed.

Lemma preserves_throw {A} e : preserves I (throw e : M A).
Proof. by intros w. Qed.

Lemma preserves_console_log line : preserves I (console_log line).
Proof. by intros w. Qed.

Lemma preserves_console_error ctx e : preserves I (console_error ctx e).
Proof. by intros w. Qed.

Lemma preserves_pool_end : preserves I pool_end.
Proof. by intros w. Qed.

Lemma preserves_process_exit {A} c : preserves I (process_exit c : M A).
Proof. by intros w. Qed.

Lemma preserves_try_catch {A} (body : M A) handler :
  preserves I body → (∀ e, preserves I (handler e)) →
  preserves I (try_catch body handler).
Proof.
  intros Hb Hh w Hw. unfold try_catch. specialize (Hb w Hw).
  destruct (body w) as [[a|e|c] w1]; cbn in *; [done|by apply Hh|done].
Qed.

Lemma preserves_try_finally {A} (body : M A) cleanup :
  preserves I body → preserves I cleanup →
  preserves I (try_finally body cleanup).
Proof.
  intros Hb Hc w Hw. unfold try_finally. specialize (Hb w Hw).
  destruct (body w) as [[a|e|c] w1]; cbn in *; [| |done].
  - specialize (Hc w1 Hb). by destruct (cleanup w1) as [[?|?|?] ?].
  - specialize (Hc w1 Hb). by destruct (cleanup w1) as [[?|?|?] ?].
Qed.

Lemma preserves_pool_query stmt :
  (∀ d d', I d → stmt d = inr d' → I d') →
  preserves I (pool_query fault stmt).
Proof.
  intros Hs w Hw. unfold pool_query. destruct (fault (queries w)); [done|].
  destruct (stmt (db w)) eqn:E; cbn; [done|]. by eapply Hs.
Qed.

Lemma preserves_pool_select {A} (q : gmap string table → error + A) :
  preserves I (pool_select fault q).
Proof.
  intros w Hw. unfold pool_select. destruct (fault (queries w)); [done|].
  by destruct (q (db w)).
Qed.

Lemma preserves_if {A} (b : bool) (m1 m2 : M A) :
  preserves I m1 → preserves I m2 → preserves I (if b then m1 else m2).
Proof. by destruct b. Qed.

(** The loader's stream handlers keep what its insert keeps. *)
Hypothesis insert_keeps :
  ∀ item d d', I d → Load.insert_codex_entry item d = inr d' → I d'.

Lemma preserves_flush items : preserves I (Load.flush fault items).
Proof.
  induction items as [|item items IH]; [apply preserves_ret|].
  cbn [Load.flush]. apply preserves_bind; [|done].
  intros w Hw. unfold Load.insert_item.
  pose proof (preserves_pool_query (Load.insert_codex_entry item) (insert_keeps item) w Hw).
  by destruct (pool_query _ _ _) as [[?|?|?] ?].
Qed.

Lemma on_data_keeps entry s w :
  I (db w) → I (db (Load.on_data fault entry s w).2).
Proof.
  intros Hw. unfold Load.on_data. destruct (negb _); [done|].
  destruct (Load.row_throws entry); [by rewrite resume_returns_db|].
  destruct (_ <=? _)%nat; [|cbn [snd]; by rewrite progress_db].
  match goal with |- context [Load.resume_returns ?s0 ?w0] =>
    pose proof (resume_returns_db s0 w0) as Hdb;
    destruct (Load.resume_returns s0 w0) as [s2 w2] end.
  cbn [fst snd db emit] in Hdb.
  assert (Hw2 : I (db w2)) by (by rewrite Hdb).
  pose proof (preserves_flush (Load.batch s2) w2 Hw2) as Hf.
  by destruct (Load.flush _ _ _) as [[?|?|?] w1].
Qed.

Lemma on_end_keeps s w :
  I (db w) → I (db (Load.on_end fault s w).2).
Proof.
  intros Hw. unfold Load.on_end.
  destruct (Load.batch s) eqn:Hb; [by rewrite resume_returns_db|].
  pose proof (resume_returns_db s w) as Hdb.
  destruct (Load.resume_returns s w) as [s1 w1]. cbn [fst snd] in Hdb.
  assert (Hw1 : I (db w1)) by (by rewrite Hdb).
  pose proof (preserves_flush (Load.batch s1) w1 Hw1).
  by destruct (Load.flush _ _ _) as [[?|?|?] w2].
Qed.

Lemma drain_keeps buffer s w :
  I (db w) → I (db (Load.drain fault buffer s w).2).
Proof.
  revert s w. induction buffer as [|v rest IH]; intros s w Hw; cbn [Load.drain].
  - destruct (_ || _); [done|]. by apply on_end_keeps.
  - destruct (_ || _); [done|].
    pose proof (on_data_keeps v (Load.handed_out s) w Hw) as H1.
    destruct (Load.on_data fault v (Load.handed_out s) w) as [s1 w1].
    pose proof (buffer_checked_db s1 w1) as H2.
    destruct (Load.buffer_checked s1 w1) as [s2 w2]. cbn [fst snd] in *.
    apply IH. by rewrite H2.
Qed.

Lemma preserves_insertData doc : preserves I (Load.insertData fault doc).
Proof.
  intros w Hw. unfold Load.insertData, Load.run_stream.
  pose proof (drain_keeps (Load.stream_values doc)
                (Load.Loader 0 [] false false Load.Pending None) w Hw).
  destruct (Load.drain _ _ _ _) as [s1 w1]. by destruct (Load.promise s1).
Qed.

End MonadFacts.


Create HintDb preserves discriminated.

(** Walks a script down to its queries, leaving one goal per statement. *)
Ltac keeps_structure :=
  cbv zeta;
  repeat first
    [ apply preserves_ret
    | apply preserves_throw
    | apply preserves_console_log
    | apply preserves_console_error
    | apply preserves_pool_end
    | apply preserves_process_exit
    | apply preserves_pool_select
    | match goal with
      | |- preserves _ (pool_query _ (if ?b then _ else _)) => destruct b
      | |- preserves _ (if ?b then _ else _) => destruct b
      | |- preserves _ (pool_query _ _) => apply preserves_pool_query
      | |- preserves _ (try_catch _ _) => apply preserves_try_catch; [|intros ?]
      | |- preserves _ (try_finally _ _) => apply preserves_try_finally
      | |- preserves _ (mbind _ _) => apply preserves_bind; [|intros ?]
      end ].

Section Unlocalised.

Context {env : environment}.

Variable fault : nat → option error.

Lemma unlocalised_other name t d :
  name ≠ "codex_entries" → name ≠ "regions" →
  unlocalised d → unlocalised (<[name := t]> d).
Proof.
  intros H1 H2 [Hc Hr]. split; intros t'; rewrite lookup_insert_ne by done; auto.
Qed.

Lemma unlocalised_delete name d :
  unlocalised d → unlocalised (delete name d).
Proof.
  intros [Hc Hr]. split; intros t'; rewrite lookup_delete_Some; naive_solver.
Qed.

Lemma unlocalised_codex t d :
  "region_name_localised" ∉ cols t →
  unlocalised d → unlocalised (<["codex_entries" := t]> d).
Proof.
  intros Ht [Hc Hr]. split; intros t'.
  - rewrite lookup_insert_eq. by intros [= <-].
  - rewrite lookup_insert_ne by done. auto.
Qed.

Lemma unlocalised_regions rg d :
  Forall (λ r, r !! "name_localised" = None) (rows rg) →
  unlocalised d → unlocalised (<["regions" := rg]> d).
Proof.
  intros Ht [Hc Hr]. split; intros t'.
  - rewrite lookup_insert_ne by done. auto.
  - rewrite lookup_insert_eq. by intros [= <-].
Qed.

Lemma drop_column_cols c t c' :
  c' ∈ cols (drop_column_if_exists c t) ↔ c' ∈ cols t ∧ c' ≠ c.
Proof. cbn. rewrite list_elem_of_filter. naive_solver. Qed.

Lemma relation_inr name d t : relation name d = inr t ↔ d !! name = Some t.
Proof. unfold relation. destruct (d !! name); naive_solver. Qed.

Lemma create_table_inr name t d d' :
  create_table name t d = inr d' ↔ d !! name = None ∧ d' = <[name := t]> d.
Proof. unfold create_table. destruct (d !! name); naive_solver. Qed.

Lemma add_column_inr c t t' :
  add_column c t = inr t' ↔
  (t' = Table (cols t ++ [c]) (not_null t) (unique t) (next_id t) (rows t)
   ∧ ¬ c ∈ cols t).
Proof.
  unfold add_column, has_column. case_bool_decide; naive_solver.
Qed.

Lemma bind_inr {A B} (r : error + A) (k : A → error + B) b :
  (r ≫= k) = inr b ↔ ∃ a, r = inr a ∧ k a = inr b.
Proof. destruct r; cbn; naive_solver. Qed.

Lemma require_columns_inr t cs :
  require_columns t cs = inr tt ↔ Forall (λ c, c ∈ cols t) cs.
Proof.
  unfold require_columns. destruct (forallb (has_column t) cs) eqn:E.
  - split; [|done]. intros _. apply Forall_forall. intros c Hc.
    rewrite forallb_forall in E. apply list_elem_of_In in Hc.
    apply E in Hc. by apply bool_decide_eq_true in Hc.
  - split; [done|]. intros HF. exfalso.
    assert (forallb (has_column t) cs = true); [|congruence].
    apply forallb_forall. intros c Hc. apply bool_decide_eq_true_2.
    rewrite Forall_forall in HF. apply HF. by apply list_elem_of_In.
Qed.

(** What an [INSERT ... SELECT] can do to a table, whatever it selects. *)
Lemma insert_select_shape key cs tuples t t' :
  insert_select key cs tuples t = inr t' →
  cols t' = cols t ∧ not_null t' = not_null t ∧ unique t' = unique t
  ∧ ∃ added,
      rows t' = rows t ++ added
      ∧ Forall (λ r, ∃ u i, r = <["id" := num i]> (tuple_row cs u)) added.
Proof.
  unfold insert_select. rewrite bind_inr. intros ([] & _ & Hfold).
  revert t Hfold. induction tuples as [|u rest IH]; intros t Hfold.
  - cbn in Hfold. injection Hfold as <-. split_and!; try done.
    exists []. by rewrite app_nil_r.
  - cbn [foldl] in Hfold.
    change (t' ← inr t; insert_do_nothing key t' (tuple_row cs u))
      with (insert_do_nothing key t (tuple_row cs u)) in Hfold.
    destruct (insert_do_nothing key t (tuple_row cs u)) as [e|t1] eqn:E.
    { exfalso. clear -Hfold. induction rest; cbn in Hfold; [done|auto]. }
    unfold insert_do_nothing in E.
    destruct (negb _); [done|]. destruct (negb _); [done|].
    destruct (IH _ Hfold) as (Hc & Hn & Hu & added & Hr & Ha).
    destruct (existsb _ _); injection E as <-; cbn in *.
    + split_and!; try done. by exists added.
    + split_and!; try done. eexists (_ :: added).
      rewrite Hr, <- app_assoc. split; [done|]. constructor; [|done]. by eexists _, _.
Qed.

Lemma unlocalised_drop_normalized d d' :
  unlocalised d → Normalize.drop_normalized d = inr d' → unlocalised d'.
Proof.
  intros Hd [= <-]. do 4 apply unlocalised_delete.
  destruct (d !! "codex_entries") as [t|] eqn:Ht; [|done].
  apply unlocalised_codex; [|done].
  rewrite !drop_column_cols. destruct Hd as [Hc _]. naive_solver.
Qed.

Lemma unlocalised_create_normalized d d' :
  unlocalised d → Normalize.create_normalized d = inr d' → unlocalised d'.
Proof.
  intros Hd. unfold Normalize.create_normalized. intros E.
  apply bind_inr in E as (d1 & H1 & E). apply bind_inr in E as (d2 & H2 & E).
  apply bind_inr in E as (d3 & H3 & E). apply bind_inr in E as (d4 & H4 & E).
  apply bind_inr in E as (t & Ht & E). apply bind_inr in E as (t1 & Ht1 & E).
  apply bind_inr in E as (t2 & Ht2 & E). apply bind_inr in E as (t3 & Ht3 & E).
  injection E as <-.
  apply create_table_inr in H1 as [_ ->], H2 as [_ ->], H3 as [_ ->], H4 as [_ ->].
  apply relation_inr in Ht. rewrite !lookup_insert_ne in Ht by done.
  apply add_column_inr in Ht1 as [-> _], Ht2 as [-> _], Ht3 as [-> _].
  apply unlocalised_codex.
  { cbn. rewrite !elem_of_app, !list_elem_of_singleton.
    destruct Hd as [Hc _]. specialize (Hc _ Ht). naive_solver. }
  apply unlocalised_other; [done..|]. apply unlocalised_other; [done..|].
  apply unlocalised_regions; [constructor|]. by apply unlocalised_other.
Qed.

Lemma unlocalised_insert_regions d d' :
  unlocalised d → Normalize.insert_regions d = inr d' → unlocalised d'.
Proof.
  intros Hd. unfold Normalize.insert_regions. intros E.
  apply bind_inr in E as (ce & Hce & E). apply bind_inr in E as ([] & _ & E).
  apply bind_inr in E as (rg & Hrg & E). apply bind_inr in E as (rg' & Hsel & E).
  injection E as <-.
  apply relation_inr in Hrg.
  apply insert_select_shape in Hsel as (_ & _ & _ & added & Hr & Ha).
  apply unlocalised_regions; [|done]. rewrite Hr. apply Forall_app. split.
  - by apply Hd.
  - eapply Forall_impl; [exact Ha|]. intros r Hr'. destruct Hr' as (u & i & ->).
    rewrite lookup_insert_ne by done. apply tuple_row_notin.
    rewrite list_elem_of_singleton. done.
Qed.

Lemma unlocalised_insert_regions_localised d d' :
  unlocalised d → Normalize.insert_regions_localised d = inr d' → unlocalised d'.
Proof.
  intros Hd. unfold Normalize.insert_regions_localised. intros E.
  apply bind_inr in E as (ce & Hce & E). apply bind_inr in E as ([] & Hreq & _).
  exfalso.
  apply relation_inr in Hce. apply require_columns_inr in Hreq.
  destruct Hd as [Hc _]. apply (Hc _ Hce).
  apply Forall_cons_1 in Hreq as [_ Hreq]. by apply Forall_cons_1 in Hreq as [Hreq _].
Qed.

Ltac binds E :=
  repeat (apply bind_inr in E as (? & ? & E)); injection E as <-.

Lemma unlocalised_insert_species d d' :
  unlocalised d → Normalize.insert_species d = inr d' → unlocalised d'.
Proof.
  intros Hd E. unfold Normalize.insert_species in E. binds E.
  by apply unlocalised_other.
Qed.

Lemma unlocalised_insert_systems_with_region d d' :
  unlocalised d → Normalize.insert_systems_with_region d = inr d' → unlocalised d'.
Proof.
  intros Hd E. unfold Normalize.insert_systems_with_region in E. binds E.
  by apply unlocalised_other.
Qed.

Lemma unlocalised_insert_systems d d' :
  unlocalised d → Normalize.insert_systems d = inr d' → unlocalised d'.
Proof.
  intros Hd E. unfold Normalize.insert_systems in E. binds E.
  by apply unlocalised_other.
Qed.

Lemma unlocalised_insert_bodies d d' :
  unlocalised d → Normalize.insert_bodies d = inr d' → unlocalised d'.
Proof.
  intros Hd E. unfold Normalize.insert_bodies in E. binds E.
  by apply unlocalised_other.
Qed.

Lemma unlocalised_update parts conds d d' :
  unlocalised d → update_codex_entries parts conds d = inr d' → unlocalised d'.
Proof.
  intros Hd E. unfold update_codex_entries in E. binds E.
  apply unlocalised_codex; [|done]. cbn. apply Hd. by apply relation_inr.
Qed.

Lemma drop_all_cols cs t c :
  c ∈ cols (foldl (λ t c, drop_column_if_exists c t) t cs) ↔ c ∈ cols t ∧ c ∉ cs.
Proof.
  revert t. induction cs as [|c' cs IH]; intros t; cbn [foldl].
  - rewrite elem_of_nil. naive_solver.
  - rewrite IH, drop_column_cols, elem_of_cons. naive_solver.
Qed.

Lemma unlocalised_drop_superseded d d' :
  unlocalised d → Normalize.drop_superseded d = inr d' → unlocalised d'.
Proof.
  intros Hd E. unfold Normalize.drop_superseded in E. binds E.
  apply unlocalised_codex; [|done]. intros Hc.
  apply (drop_all_cols Normalize.dropped_columns) in Hc as [Hc _]. revert Hc. apply Hd. by apply relation_inr.
Qed.

Lemma unlocalised_create_codex_entries d d' :
  unlocalised d → Load.create_codex_entries d = inr d' → unlocalised d'.
Proof.
  intros Hd. unfold Load.create_codex_entries.
  destruct (d !! "codex_entries"); intros [= <-]; [done|].
  apply unlocalised_codex; [|done]. cbn. unfold Load.codex_columns.
  rewrite !elem_of_cons, elem_of_nil. naive_solver.
Qed.

Lemma unlocalised_insert_codex_entry item d d' :
  unlocalised d → Load.insert_codex_entry item d = inr d' → unlocalised d'.
Proof.
  intros Hd. unfold Load.insert_codex_entry.
  destruct (d !! "codex_entries") as [t|] eqn:Ht; [|done].
  destruct (forallb _ _); intros [= <-].
  apply unlocalised_codex; [|done]. cbn. by apply Hd.
Qed.

Hint Resolve unlocalised_drop_normalized unlocalised_create_normalized
  unlocalised_insert_regions unlocalised_insert_regions_localised
  unlocalised_insert_species unlocalised_insert_systems_with_region
  unlocalised_insert_systems unlocalised_insert_bodies unlocalised_update
  unlocalised_drop_superseded unlocalised_create_codex_entries
  unlocalised_insert_codex_entry : preserves.

Lemma normalize_main_unlocalised : preserves unlocalised (Normalize.main fault).
Proof.
  unfold Normalize.main, Normalize.createNormalizedTables, Normalize.normalizeData,
    Normalize.cleanUpColumns.
  keeps_structure; intros d d' Hd E; eauto 2 with preserves.
Qed.

Lemma load_main_unlocalised doc : preserves unlocalised (Load.main fault doc).
Proof.
  unfold Load.main, Load.createTable.
  keeps_structure; try (intros d d' Hd E; eauto 2 with preserves).
  apply preserves_insertData. eauto 2 with preserves.
Qed.

End Unlocalised.


Section NormalizerFacts.

Context {env : environment}.

Lemma pipeline_unlocalised w : pipeline w → unlocalised (db w).
Proof.
  induction 1 as [|fault doc w _ IH|fault w _ IH].
  - split; intros t; unfold fresh; cbn [db]; by rewrite lookup_empty.
  - by apply load_main_unlocalised.
  - by apply normalize_main_unlocalised.
Qed.

(** C10. In every database the two scripts can produce, the schema probe
    reports [region_name_localised] absent, since [createTable] never
    makes that column, and every row of [regions] has a null
    [name_localised]: the localised insert is never the one that runs. *)
Theorem region_localised_unreachable w :
  pipeline w →
  (∀ chk, Normalize.check_columns (db w) = inr chk →
          Normalize.has_region_name_localised chk = false)
  ∧ (∀ rg, db w !! "regions" = Some rg →
           Forall (λ r, r !! "name_localised" = None) (rows rg))
  ∧ "region_name_localised" ∉ Load.codex_columns.
Proof.
  intros Hw. apply pipeline_unlocalised in Hw as [Hc Hr]. split_and!.
  - intros chk [= <-]. cbn. unfold Normalize.column_exists.
    destruct (db w !! "codex_entries") as [t|] eqn:Ht; [|done].
    apply bool_decide_eq_false_2. by apply Hc.
  - done.
  - unfold Load.codex_columns. rewrite !elem_of_cons, elem_of_nil. naive_solver.
Qed.

Lemma erase_lookup cs r c :
  erase cs r !! c = if decide (c ∈ cs) then None else r !! c.
Proof.
  unfold erase. revert r. induction cs as [|c' cs IH]; intros r; cbn [foldl].
  - by rewrite decide_False by apply not_elem_of_nil.
  - rewrite IH. destruct (decide (c = c')) as [->|Hne].
    + rewrite lookup_delete_eq. rewrite (decide_True (P := c' ∈ c' :: cs)) by left.
      by destruct (decide _).
    + rewrite lookup_delete_ne by done.
      destruct (decide (c ∈ cs)).
      * by rewrite decide_True by (by right).
      * rewrite decide_False; [done|]. rewrite elem_of_cons. naive_solver.
Qed.

Lemma filter_all {A} (P : A → Prop) `{∀ x, Decision (P x)} (l : list A) :
  (∀ x, P x) → filter P l = l.
Proof.
  intros HP. induction l as [|x l IH]; [done|].
  by rewrite filter_cons_True, IH.
Qed.

Lemma drop_all_spec cs t :
  foldl (λ t c, drop_column_if_exists c t) t cs
  = Table (filter (λ c, c ∉ cs) (cols t)) (not_null t) (unique t) (next_id t)
          (erase cs <$> rows t).
Proof.
  revert t. induction cs as [|c cs IH]; intros t; cbn [foldl].
  - destruct t as [cl nn un ni rs]. cbn. f_equal.
    + symmetry. apply filter_all. intros ?. apply not_elem_of_nil.
    + unfold erase. cbn. by rewrite list_fmap_id.
  - rewrite IH. cbn. f_equal.
    + rewrite list_filter_filter. apply list_filter_iff. intros c'.
      rewrite elem_of_cons. naive_solver.
    + rewrite <- list_fmap_compose. done.
Qed.

(** C7, as the specification states it, fails: after the cleanup of a
    table made by [createTable], the [category] column is still there. *)
Lemma category_column_survives :
  ¬ Forall (λ c, Normalize.column_exists
                   (db (Normalize.cleanUpColumns no_fault created).2) c = false)
           ["name"; "system"; "x"; "y"; "z"; "body"; "region_name"; "category"].
Proof.
  intros H. rewrite Forall_forall in H.
  specialize (H "category"). vm_compute in H.
  assert (true = false); [|done]. apply H.
  repeat (first [left | right]).
Qed.

(** C7, amended.  The cleanup removes from [codex_entries] the columns
    [name], [system], [x], [y], [z], [body] and [region_name] (and
    [index_id], [hud_category], [name_localized], [category_localized] and
    [region_name_localised], should they exist), with their cells, and
    nothing else: [english_name], [category], [sub_category] and
    [sub_category_localised] stay.  It succeeds whichever of these columns
    the table has. *)
Theorem column_cleanup fault w t :
  fault (queries w) = None →
  db w !! "codex_entries" = Some t →
  (Normalize.cleanUpColumns fault w).1 = Return tt
  ∧ db (Normalize.cleanUpColumns fault w).2 !! "codex_entries"
    = Some (Table (filter (λ c, c ∉ Normalize.dropped_columns) (cols t))
                  (not_null t) (unique t) (next_id t)
                  (erase Normalize.dropped_columns <$> rows t))
  ∧ (∀ r c, erase Normalize.dropped_columns r !! c
            = if decide (c ∈ Normalize.dropped_columns) then None else r !! c)
  ∧ Forall (λ c, c ∈ Normalize.dropped_columns)
           ["name"; "system"; "x"; "y"; "z"; "body"; "region_name"]
  ∧ Forall (λ c, c ∉ Normalize.dropped_columns)
           ["english_name"; "category"; "sub_category"; "sub_category_localised"].
Proof.
  intros Hf Ht.
  unfold Normalize.cleanUpColumns, try_catch, mbind, M_bind, pool_query.
  rewrite Hf. unfold Normalize.drop_superseded, relation. rewrite Ht.
  cbn [mbind result_bind fst snd db console_log emit].
  rewrite lookup_insert_eq, drop_all_spec. split_and!.
  - done.
  - done.
  - intros r c. apply erase_lookup.
  - repeat constructor; apply (bool_decide_unpack _); by vm_compute.
  - repeat constructor; apply (bool_decide_unpack _); by vm_compute.
Qed.

End NormalizerFacts.

Section RegionLocalisedUnreachableWitness.

#[local] Existing Instance plain.

Lemma region_localised_unreachable_witness :
  let w := (Normalize.main no_fault (Load.main no_fault scenario fresh).2).2 in
  (∀ chk, Normalize.check_columns (db w) = inr chk →
          Normalize.has_region_name_localised chk = false)
  ∧ (∀ rg, db w !! "regions" = Some rg →
           Forall (λ r, r !! "name_localised" = None) (rows rg))
  ∧ "region_name_localised" ∉ Load.codex_columns.
Proof.
  apply region_localised_unreachable.
  apply pipeline_normalize, pipeline_load, pipeline_new.
Defined.

End RegionLocalisedUnreachableWitness.

Section ColumnCleanupWitness.

#[local] Existing Instance plain.

Lemma column_cleanup_witness :
  (Normalize.cleanUpColumns no_fault created).1 = Return tt
  ∧ db (Normalize.cleanUpColumns no_fault created).2 !! "codex_entries"
    = Some (Table (filter (λ c, c ∉ Normalize.dropped_columns) Load.codex_columns)
                  ["id"] [["id"]] 1
                  (erase Normalize.dropped_columns <$> []))
  ∧ (∀ r c, erase Normalize.dropped_columns r !! c
            = if decide (c ∈ Normalize.dropped_columns) then None else r !! c)
  ∧ Forall (λ c, c ∈ Normalize.dropped_columns)
           ["name"; "system"; "x"; "y"; "z"; "body"; "region_name"]
  ∧ Forall (λ c, c ∉ Normalize.dropped_columns)
           ["english_name"; "category"; "sub_category"; "sub_category_localised"].
Proof.
  apply (column_cleanup no_fault created
           (Table Load.codex_columns ["id"] [["id"]] 1 [])).
  - reflexivity.
  - vm_compute. reflexivity.
Defined.

End ColumnCleanupWitness.


(** * Failure at the entry points *)

Section EntryPoints.

Context {env : environment}.

Variable fault : nat → option error.

Lemma insertData_settles doc w :
  (Load.insertData fault doc w).1 = Return tt
  ∨ ∃ e, (Load.insertData fault doc w).1 = Throw e.
Proof.
  destruct (insertData_outcome fault doc w) as [_ ->].
  destruct (run_stream_spec fault doc w) as (evs & _ & _ & [Hc|[Ha|Hf]]).
  - destruct Hc as (-> & _). by left.
  - destruct Ha as (e & item & pre & post & rs & -> & _). right. by exists e.
  - destruct Hf as (-> & _). right. by eexists.
Qed.

Lemma createTable_settles w :
  (Load.createTable fault w).1 = Return tt
  ∨ ∃ e, (Load.createTable fault w).1 = Throw e.
Proof.
  unfold Load.createTable, try_catch, mbind, M_bind, pool_query.
  destruct (fault (queries w)) as [e|]; cbn.
  - right. by exists e.
  - unfold Load.create_codex_entries.
    destruct (db w !! "codex_entries"); cbn; by left.
Qed.

(** Whatever goes wrong, the loader's [main] returns normally: the error
    it caught is not rethrown and no exit status is set. *)
Lemma load_main_returns doc w :
  (Load.main fault doc w).1 = Return tt.
Proof.
  unfold Load.main, try_finally, try_catch.
  unfold mbind at 1. unfold M_bind at 1.
  destruct (createTable_settles w) as [Hc|[e Hc]];
    destruct (Load.createTable fault w) as [r w1]; cbn in Hc; subst r; cbn; [|done].
  unfold mbind, M_bind.
  destruct (insertData_settles doc w1) as [Hi|[e Hi]];
    destruct (Load.insertData fault doc w1) as [r w2]; cbn in Hi; subst r; cbn; done.
Qed.

Lemma never_exits_ret {A} (a : A) : never_exits (mret a : M A).
Proof. by intros w c. Qed.

Lemma never_exits_throw {A} e : never_exits (throw e : M A).
Proof. by intros w c. Qed.

Lemma never_exits_console_log line : never_exits (console_log line).
Proof. by intros w c. Qed.

Lemma never_exits_console_error ctx e : never_exits (console_error ctx e).
Proof. by intros w c. Qed.

Lemma never_exits_pool_query stmt : never_exits (pool_query fault stmt).
Proof.
  intros w c. unfold pool_query. destruct (fault (queries w)); [done|].
  by destruct (stmt (db w)).
Qed.

Lemma never_exits_pool_select {A} (q : gmap string table → error + A) :
  never_exits (pool_select fault q).
Proof.
  intros w c. unfold pool_select. destruct (fault (queries w)); [done|].
  by destruct (q (db w)).
Qed.

Lemma never_exits_bind {A B} (m : M A) (k : A → M B) :
  never_exits m → (∀ a, never_exits (k a)) → never_exits (m ≫= k).
Proof.
  intros Hm Hk w c. unfold mbind, M_bind. specialize (Hm w).
  destruct (m w) as [[a|e|c'] w1]; cbn in *; [apply Hk|done|].
  by destruct (Hm c').
Qed.

Lemma never_exits_try_catch {A} (body : M A) handler :
  never_exits body → (∀ e, never_exits (handler e)) →
  never_exits (try_catch body handler).
Proof.
  intros Hb Hh w c. unfold try_catch. specialize (Hb w).
  destruct (body w) as [[a|e|c'] w1]; cbn in *; [done|apply Hh|].
  by destruct (Hb c').
Qed.

Ltac quiet_structure :=
  cbv zeta;
  repeat first
    [ apply never_exits_ret
    | apply never_exits_throw
    | apply never_exits_console_log
    | apply never_exits_console_error
    | apply never_exits_pool_select
    | apply never_exits_pool_query
    | match goal with
      | |- never_exits (if ?b then _ else _) => destruct b
      | |- never_exits (try_catch _ _) => apply never_exits_try_catch; [|intros ?]
      | |- never_exits (mbind _ _) => apply never_exits_bind; [|intros ?]
      end ].

Lemma normalize_stages_never_exit :
  never_exits (Normalize.createNormalizedTables fault;;
               Normalize.normalizeData fault;;
               Normalize.cleanUpColumns fault;;
               console_log "Database normalization completed successfully").
Proof.
  unfold Normalize.createNormalizedTables, Normalize.normalizeData,
    Normalize.cleanUpColumns.
  quiet_structure.
Qed.

(** The normalizer's [main] either completes or, having logged the error
    it caught, exits with status 1. *)
Lemma normalize_main_outcome w :
  (Normalize.main fault w).1 = Return tt
  ∨ ((Normalize.main fault w).1 = Exited 1
     ∧ ∃ e pre, trace (Normalize.main fault w).2
                = pre ++ [ConsoleError "Error in main:" e; ProcessExit 1]).
Proof.
  pose proof (normalize_stages_never_exit w) as Hne.
  unfold Normalize.main, try_finally, try_catch.
  set (body := (Normalize.createNormalizedTables fault;; _) : M unit) in *.
  destruct (body w) as [[[]|e|c] w1]; cbn.
  - by left.
  - right. split; [done|]. exists e, (trace w1).
    unfold mbind, M_bind, console_error, process_exit, emit. cbn.
    by rewrite <- app_assoc.
  - by destruct (Hne c).
Qed.

End EntryPoints.

Section LoadFailureExitStatus.

#[local] Existing Instance plain.

(** C9 at a failing input.  The second insert of the loader fails: the error
    reaches [main], is logged there, and is absorbed; [main] returns and the
    process ends with status 0, where the normalizer, on a failure, logs it
    and exits with status 1. *)
Theorem load_failure_exit_status :
  let e := ConnectionError "terminated" in
  let load := Load.main (fail_at 2 e) scenario fresh in
  let normalize := Normalize.main (fail_at 1 e) created in
  load.1 = Return tt
  ∧ exit_status load.1 = 0%Z
  ∧ drop 2 (trace load.2)
    = [InsertFailed (Load.to_row (record "Biology" "Fungoida" "Sol" "Mars" "Inner Orion Spur" "0")) e;
       ConsoleError "Error in main process:" e; PoolEnd]
  ∧ normalize.1 = Exited 1
  ∧ exit_status normalize.1 = 1%Z
  ∧ drop 1 (trace normalize.2)
    = [ConsoleError "Error creating normalized tables:" e;
       ConsoleError "Error in main:" e; ProcessExit 1].
Proof. vm_compute. repeat split. Qed.

End LoadFailureExitStatus.


(** * Natural keys *)

Section NaturalKeys.

Context {env : environment}.

(** An [INSERT ... SELECT] into a table that is still empty. *)
Lemma insert_select_fresh key cs tuples t :
  rows t = [] →
  key ∈ unique t →
  Forall (λ c, c ∈ cols t) cs →
  "id" ∉ key → "id" ∉ cs →
  Forall (λ u, Forall (λ c, is_Some (tuple_row cs u !! c)) (not_null t)) tuples →
  insert_select key cs tuples t = inr (filled key cs tuples t)
  ∧ cols (filled key cs tuples t) = cols t
  ∧ Forall (λ r, ∃ u i, u ∈ tuples ∧ r = <["id" := num i]> (tuple_row cs u))
           (rows (filled key cs tuples t))
  ∧ first_writer_wins key cs tuples (filled key cs tuples t).
Proof.
  intros Hrows Hkey Hcs Hidk Hidc Hnn.
  destruct (insert_select_spec key cs tuples t Hkey Hcs Hidk Hidc Hnn)
    as (t' & Hsel & Hc & Hn & Hu & (added & Hr & Ha) & Hf).
  unfold filled. rewrite Hsel.
  rewrite Hrows in Hr, Hf. cbn in Hr, Hf. rewrite Hr. by split_and!.
Qed.

Lemma insert_species_ok d ce :
  d !! "codex_entries" = Some ce →
  "english_name" ∈ cols ce →
  d !! "species" = Some Normalize.species_table →
  Normalize.insert_species d
  = inr (<["species" := filled ["english_name"] ["english_name"]
                        (Normalize.species_data ce) Normalize.species_table]> d)
  ∧ cols (filled ["english_name"] ["english_name"]
           (Normalize.species_data ce) Normalize.species_table)
    = cols Normalize.species_table
  ∧ Forall (λ r, ∃ u i, u ∈ (Normalize.species_data ce)
                        ∧ r = <["id" := num i]> (tuple_row ["english_name"] u))
           (rows (filled ["english_name"] ["english_name"]
                    (Normalize.species_data ce) Normalize.species_table))
  ∧ first_writer_wins ["english_name"] ["english_name"]
      (Normalize.species_data ce)
      (filled ["english_name"] ["english_name"]
         (Normalize.species_data ce) Normalize.species_table).
Proof.
  intros Hce Hcol Hsp.
  destruct (insert_select_fresh ["english_name"] ["english_name"]
              (Normalize.species_data ce) Normalize.species_table)
    as (Hsel & Hc & Hr & Hf);
    try done; try (by apply (bool_decide_unpack _)).
  { apply Forall_select_bind. intros r _. case_bool_decide as Hn; [|constructor].
    destruct Hn as [v Hv]. rewrite Hv. repeat constructor. cbn.
    by rewrite lookup_insert_eq. }
  split_and!; try done.
  unfold Normalize.insert_species, relation. rewrite Hce, Hsp. cbn [mbind result_bind].
  rewrite (proj2 (require_columns_inr ce ["english_name"])) by (by repeat constructor).
  cbn [mbind result_bind]. by rewrite Hsel.
Qed.

Lemma insert_regions_ok d ce :
  d !! "codex_entries" = Some ce →
  "region_name" ∈ cols ce →
  d !! "regions" = Some Normalize.regions_table →
  Normalize.insert_regions d
  = inr (<["regions" := filled ["name"] ["name"]
                        (Normalize.region_data ce) Normalize.regions_table]> d)
  ∧ cols (filled ["name"] ["name"]
           (Normalize.region_data ce) Normalize.regions_table)
    = cols Normalize.regions_table
  ∧ Forall (λ r, ∃ u i, u ∈ (Normalize.region_data ce)
                        ∧ r = <["id" := num i]> (tuple_row ["name"] u))
           (rows (filled ["name"] ["name"]
                    (Normalize.region_data ce) Normalize.regions_table))
  ∧ first_writer_wins ["name"] ["name"]
      (Normalize.region_data ce)
      (filled ["name"] ["name"]
         (Normalize.region_data ce) Normalize.regions_table).
Proof.
  intros Hce Hcol Hrg.
  destruct (insert_select_fresh ["name"] ["name"]
              (Normalize.region_data ce) Normalize.regions_table)
    as (Hsel & Hc & Hr & Hf);
    try done; try (by apply (bool_decide_unpack _)).
  { apply Forall_select_bind. intros r _. case_bool_decide as Hn; [|constructor].
    destruct Hn as [v Hv]. rewrite Hv. repeat constructor. cbn.
    by rewrite lookup_insert_eq. }
  split_and!; try done.
  unfold Normalize.insert_regions, relation. rewrite Hce, Hrg. cbn [mbind result_bind].
  rewrite (proj2 (require_columns_inr ce ["region_name"])) by (by repeat constructor).
  cbn [mbind result_bind]. by rewrite Hsel.
Qed.

Lemma insert_regions_localised_ok d ce :
  d !! "codex_entries" = Some ce →
  Forall (λ c, c ∈ cols ce) ["region_name"; "region_name_localised"] →
  d !! "regions" = Some Normalize.regions_table →
  Normalize.insert_regions_localised d
  = inr (<["regions" := filled ["name"] ["name"; "name_localised"]
                        (Normalize.region_data_localised ce) Normalize.regions_table]> d)
  ∧ cols (filled ["name"] ["name"; "name_localised"]
           (Normalize.region_data_localised ce) Normalize.regions_table)
    = cols Normalize.regions_table
  ∧ Forall (λ r, ∃ u i, u ∈ (Normalize.region_data_localised ce)
                        ∧ r = <["id" := num i]> (tuple_row ["name"; "name_localised"] u))
           (rows (filled ["name"] ["name"; "name_localised"]
                    (Normalize.region_data_localised ce) Normalize.regions_table))
  ∧ first_writer_wins ["name"] ["name"; "name_localised"]
      (Normalize.region_data_localised ce)
      (filled ["name"] ["name"; "name_localised"]
         (Normalize.region_data_localised ce) Normalize.regions_table).
Proof.
  intros Hce Hcol Hrg.
  destruct (insert_select_fresh ["name"] ["name"; "name_localised"]
              (Normalize.region_data_localised ce) Normalize.regions_table)
    as (Hsel & Hc & Hr & Hf);
    try done; try (by apply (bool_decide_unpack _)).
  { apply Forall_select_bind. intros r _. case_bool_decide as Hn; [|constructor].
    destruct Hn as [v Hv]. rewrite Hv. repeat constructor.
    rewrite tuple_row_cons. by rewrite lookup_insert_eq. }
  split_and!; try done.
  unfold Normalize.insert_regions_localised, relation.
  rewrite Hce, Hrg. cbn [mbind result_bind].
  rewrite (proj2 (require_columns_inr ce ["region_name"; "region_name_localised"])) by done.
  cbn [mbind result_bind]. by rewrite Hsel.
Qed.

Lemma insert_systems_ok d ce :
  d !! "codex_entries" = Some ce →
  Forall (λ c, c ∈ cols ce) ["system"; "x"; "y"; "z"] →
  d !! "systems" = Some Normalize.systems_table →
  Normalize.insert_systems d
  = inr (<["systems" := filled ["name"] ["name"; "x"; "y"; "z"]
                        (Normalize.system_data ce) Normalize.systems_table]> d)
  ∧ cols (filled ["name"] ["name"; "x"; "y"; "z"]
           (Normalize.system_data ce) Normalize.systems_table)
    = cols Normalize.systems_table
  ∧ Forall (λ r, ∃ u i, u ∈ (Normalize.system_data ce)
                        ∧ r = <["id" := num i]> (tuple_row ["name"; "x"; "y"; "z"] u))
           (rows (filled ["name"] ["name"; "x"; "y"; "z"]
                    (Normalize.system_data ce) Normalize.systems_table))
  ∧ first_writer_wins ["name"] ["name"; "x"; "y"; "z"]
      (Normalize.system_data ce)
      (filled ["name"] ["name"; "x"; "y"; "z"]
         (Normalize.system_data ce) Normalize.systems_table).
Proof.
  intros Hce Hcol Hsy.
  destruct (insert_select_fresh ["name"] ["name"; "x"; "y"; "z"]
              (Normalize.system_data ce) Normalize.systems_table)
    as (Hsel & Hc & Hr & Hf);
    try done; try (by apply (bool_decide_unpack _)).
  { apply Forall_select_bind. intros r _. case_bool_decide as Hn; [|constructor].
    destruct Hn as [v Hv]. rewrite Hv. repeat constructor.
    rewrite tuple_row_cons. by rewrite lookup_insert_eq. }
  split_and!; try done.
  unfold Normalize.insert_systems, relation. rewrite Hce, Hsy. cbn [mbind result_bind].
  rewrite (proj2 (require_columns_inr ce ["system"; "x"; "y"; "z"])) by done.
  cbn [mbind result_bind]. by rewrite Hsel.
Qed.

Lemma insert_systems_with_region_ok d ce rg :
  d !! "codex_entries" = Some ce →
  Forall (λ c, c ∈ cols ce) ["system"; "x"; "y"; "z"; "region_name"] →
  d !! "regions" = Some rg →
  d !! "systems" = Some Normalize.systems_table →
  Normalize.insert_systems_with_region d
  = inr (<["systems" := filled ["name"] ["name"; "x"; "y"; "z"; "region_id"]
                        (Normalize.system_data_with_region ce rg) Normalize.systems_table]> d)
  ∧ cols (filled ["name"] ["name"; "x"; "y"; "z"; "region_id"]
           (Normalize.system_data_with_region ce rg) Normalize.systems_table)
    = cols Normalize.systems_table
  ∧ Forall (λ r, ∃ u i, u ∈ (Normalize.system_data_with_region ce rg)
                        ∧ r = <["id" := num i]> (tuple_row ["name"; "x"; "y"; "z"; "region_id"] u))
           (rows (filled ["name"] ["name"; "x"; "y"; "z"; "region_id"]
                    (Normalize.system_data_with_region ce rg) Normalize.systems_table))
  ∧ first_writer_wins ["name"] ["name"; "x"; "y"; "z"; "region_id"]
      (Normalize.system_data_with_region ce rg)
      (filled ["name"] ["name"; "x"; "y"; "z"; "region_id"]
         (Normalize.system_data_with_region ce rg) Normalize.systems_table).
Proof.
  intros Hce Hcol Hrg Hsy.
  destruct (insert_select_fresh ["name"] ["name"; "x"; "y"; "z"; "region_id"]
              (Normalize.system_data_with_region ce rg) Normalize.systems_table)
    as (Hsel & Hc & Hr & Hf);
    try done; try (by apply (bool_decide_unpack _)).
  { apply Forall_select_bind. intros r _. apply Forall_forall. intros u Hu.
    apply list_elem_of_bind in Hu as (g & Hu & _).
    case_bool_decide as Hn; [|by apply elem_of_nil in Hu].
    apply list_elem_of_singleton in Hu as ->.
    destruct Hn as [v Hv]. rewrite Hv. repeat constructor.
    rewrite tuple_row_cons. by rewrite lookup_insert_eq. }
  split_and!; try done.
  unfold Normalize.insert_systems_with_region, relation.
  rewrite Hce, Hrg, Hsy. cbn [mbind result_bind].
  rewrite (proj2 (require_columns_inr ce ["system"; "x"; "y"; "z"; "region_name"])) by done.
  cbn [mbind result_bind]. by rewrite Hsel.
Qed.

Lemma insert_bodies_ok d ce sy :
  d !! "codex_entries" = Some ce →
  Forall (λ c, c ∈ cols ce) ["body"; "system"] →
  d !! "systems" = Some sy →
  d !! "bodies" = Some Normalize.bodies_table →
  Normalize.insert_bodies d
  = inr (<["bodies" := filled ["name"; "system_id"] ["name"; "system_id"]
                        (Normalize.body_data ce sy) Normalize.bodies_table]> d)
  ∧ cols (filled ["name"; "system_id"] ["name"; "system_id"]
           (Normalize.body_data ce sy) Normalize.bodies_table)
    = cols Normalize.bodies_table
  ∧ Forall (λ r, ∃ u i, u ∈ (Normalize.body_data ce sy)
                        ∧ r = <["id" := num i]> (tuple_row ["name"; "system_id"] u))
           (rows (filled ["name"; "system_id"] ["name"; "system_id"]
                    (Normalize.body_data ce sy) Normalize.bodies_table))
  ∧ first_writer_wins ["name"; "system_id"] ["name"; "system_id"]
      (Normalize.body_data ce sy)
      (filled ["name"; "system_id"] ["name"; "system_id"]
         (Normalize.body_data ce sy) Normalize.bodies_table).
Proof.
  intros Hce Hcol Hsy Hbd.
  destruct (insert_select_fresh ["name"; "system_id"] ["name"; "system_id"]
              (Normalize.body_data ce sy) Normalize.bodies_table)
    as (Hsel & Hc & Hr & Hf);
    try done; try (by apply (bool_decide_unpack _)).
  { apply Forall_select_bind. intros r _. apply Forall_forall. intros u Hu.
    apply list_elem_of_bind in Hu as (g & Hu & _).
    case_bool_decide as Hn; [|by apply elem_of_nil in Hu].
    apply list_elem_of_singleton in Hu as ->.
    destruct Hn as [v Hv]. rewrite Hv. repeat constructor.
    rewrite tuple_row_cons. by rewrite lookup_insert_eq. }
  split_and!; try done.
  unfold Normalize.insert_bodies, relation.
  rewrite Hce, Hsy, Hbd. cbn [mbind result_bind].
  rewrite (proj2 (require_columns_inr ce ["body"; "system"])) by done.
  cbn [mbind result_bind]. by rewrite Hsel.
Qed.

Lemma first_match_ext {A} (P Q : A → Prop)
    `{∀ x, Decision (P x)} `{∀ x, Decision (Q x)} (l : list A) :
  (∀ x, P x ↔ Q x) → first_match P l = first_match Q l.
Proof.
  intros HPQ. induction l as [|x l IH]; [done|]. cbn [first_match].
  rewrite IH. destruct (decide (P x)), (decide (Q x)); naive_solver.
Qed.

Lemma left_join_cons on right :
  ∃ g gs, left_join on right = g :: gs.
Proof.
  unfold left_join. destruct (filter _ right) as [|g gs]; cbn; eauto.
Qed.

Lemma has_key_single k v r : has_key [k] [v] r ↔ r !! k = Some v.
Proof. unfold has_key. cbn. split; [by intros [= ?]|by intros ->]. Qed.

Lemma fmap_singleton_inv {A B} (f : A → B) (l : list A) y :
  f <$> l = [y] → ∃ x, l = [x] ∧ f x = y.
Proof.
  destruct l as [|x [|x' l]]; cbn; intros E; try discriminate.
  injection E as <-. by exists x.
Qed.

Lemma named_tuple n (v : option jsval) cs u :
  "name" ∉ cs →
  has_key ["name"] [n] (tuple_row ("name" :: cs) (v :: u)) ↔ v = Some n.
Proof.
  intros Hcs. rewrite has_key_single, tuple_row_cons. destruct v as [x|].
  - rewrite lookup_insert_eq. naive_solver.
  - rewrite tuple_row_notin by done. naive_solver.
Qed.

End NaturalKeys.


(** * The normalizer, statement by statement *)

Section Runs.

Context {env : environment}.

Variable fault : nat → option error.
Hypothesis no_faults : ∀ n, fault n = None.

Lemma run_bind {A B} (m : M A) (k : A → M B) w a w1 :
  m w = (Return a, w1) → (m ≫= k) w = k a w1.
Proof. intros H. unfold mbind, M_bind. by rewrite H. Qed.

Lemma run_try_catch {A} (body : M A) handler w a w1 :
  body w = (Return a, w1) → try_catch body handler w = (Return a, w1).
Proof. intros H. unfold try_catch. by rewrite H. Qed.

Lemma run_pool_query stmt w d' :
  stmt (db w) = inr d' →
  pool_query fault stmt w = (Return tt, World d' (S (queries w)) (trace w)).
Proof. intros H. unfold pool_query. by rewrite no_faults, H. Qed.

Lemma run_guarded (b : bool) stmt l1 l2 w d' :
  (if b then stmt (db w) else inr (db w)) = inr d' →
  ∃ w1,
    (if b then pool_query fault stmt;; console_log l1 else console_log l2) w
    = (Return tt, w1)
    ∧ db w1 = d'
    ∧ trace w1 = trace w ++ [ConsoleLog (if b then l1 else l2)].
Proof.
  destruct b; intros H.
  - eexists. rewrite (run_bind _ _ _ _ _ (run_pool_query stmt w d' H)).
    unfold console_log, emit. cbn. done.
  - injection H as <-. eexists. unfold console_log, emit. cbn. done.
Qed.

Lemma createNormalizedTables_run w d1 d2 :
  Normalize.drop_normalized (db w) = inr d1 →
  Normalize.create_normalized d1 = inr d2 →
  ∃ w1, Normalize.createNormalizedTables fault w = (Return tt, w1)
        ∧ db w1 = d2 ∧ ∃ l, trace w1 = trace w ++ [ConsoleLog l].
Proof.
  intros H1 H2. eexists. unfold Normalize.createNormalizedTables.
  split; [apply run_try_catch|].
  - rewrite (run_bind _ _ _ _ _ (run_pool_query Normalize.drop_normalized w d1 H1)).
    rewrite (run_bind _ _ _ _ _ (run_pool_query Normalize.create_normalized
                                   (World d1 (S (queries w)) (trace w)) d2 H2)).
    unfold console_log, emit. cbn. done.
  - cbn. eauto.
Qed.

Lemma normalizeData_run w d' :
  normalize_steps (Normalize.probe (db w)) (db w) = inr d' →
  ∃ w1, Normalize.normalizeData fault w = (Return tt, w1)
        ∧ db w1 = d'
        ∧ (Normalize.has_region_name (Normalize.probe (db w)) = false →
           ConsoleLog "Skipping regions normalization - region_name column not found"
           ∈ trace w1).
Proof.
  intros H. unfold normalize_steps in H.
  apply bind_inr in H as (d1 & H1 & H). apply bind_inr in H as (d2 & H2 & H).
  apply bind_inr in H as (d3 & H3 & H). apply bind_inr in H as (d4 & H4 & H).
  set (chk := Normalize.probe (db w)) in *.
  unfold Normalize.normalizeData.
  assert (Hsel : pool_select fault Normalize.check_columns w
                 = (Return chk, World (db w) (S (queries w)) (trace w))).
  { unfold pool_select. by rewrite no_faults. }
  edestruct (run_guarded (Normalize.has_english_name chk) Normalize.insert_species
               "Species data normalized"
               "Skipping species normalization - english_name column not found"
               (World (db w) (S (queries w)) (trace w)))
    as (w1 & R1 & D1 & T1); [exact H1|].
  edestruct (run_guarded (Normalize.has_region_name chk)
               (if Normalize.has_region_name_localised chk
                then Normalize.insert_regions_localised else Normalize.insert_regions)
               "Regions data normalized"
               "Skipping regions normalization - region_name column not found" w1)
    as (w2 & R2 & D2 & T2); [rewrite D1; exact H2|].
  edestruct (run_guarded (Normalize.has_system chk)
               (if Normalize.has_region_name chk
                then Normalize.insert_systems_with_region else Normalize.insert_systems)
               "Systems data normalized"
               "Skipping systems normalization - system column not found" w2)
    as (w3 & R3 & D3 & T3); [rewrite D2; exact H3|].
  edestruct (run_guarded (Normalize.has_system chk) Normalize.insert_bodies
               "Body data normalized"
               "Skipping bodies normalization - system column not found" w3)
    as (w4 & R4 & D4 & T4); [rewrite D3; exact H4|].
  assert (∃ w5, (if (0 <? length (Normalize.updateParts chk))%nat
                 then pool_query fault
                        (update_codex_entries (Normalize.updateParts chk)
                           (Normalize.whereConditions chk));;
                      console_log "Foreign keys updated in codex_entries"
                 else mret tt) w4 = (Return tt, w5)
                ∧ db w5 = d' ∧ ∃ l, trace w5 = trace w4 ++ l) as (w5 & R5 & D5 & l5 & T5).
  { destruct (0 <? _)%nat.
    - rewrite <- D4 in H. eexists.
      rewrite (run_bind _ _ _ _ _ (run_pool_query _ w4 d' H)).
      unfold console_log, emit. cbn. eauto.
    - injection H as <-. exists w4. split_and!; [done..|]. exists []. by rewrite app_nil_r. }
  exists w5. split_and!.
  - apply run_try_catch.
    rewrite (run_bind _ _ _ _ _ Hsel). rewrite (run_bind _ _ _ _ _ R1).
    rewrite (run_bind _ _ _ _ _ R2). rewrite (run_bind _ _ _ _ _ R3).
    rewrite (run_bind _ _ _ _ _ R4). exact R5.
  - done.
  - intros Hr. rewrite T5, T4, T3, T2. rewrite Hr.
    rewrite !elem_of_app, !list_elem_of_singleton. auto.
Qed.

Lemma cleanUpColumns_run w d' :
  Normalize.drop_superseded (db w) = inr d' →
  ∃ w1, Normalize.cleanUpColumns fault w = (Return tt, w1)
        ∧ db w1 = d' ∧ ∃ l, trace w1 = trace w ++ [ConsoleLog l].
Proof.
  intros H. eexists. unfold Normalize.cleanUpColumns.
  split; [apply run_try_catch|].
  - rewrite (run_bind _ _ _ _ _ (run_pool_query Normalize.drop_superseded w d' H)).
    unfold console_log, emit. cbn. done.
  - cbn. eauto.
Qed.

(** Without faults the normalizer's [main] succeeds exactly when its
    statements do, and leaves the database they make. *)
Lemma main_run w d' :
  normalize_db (db w) = inr d' →
  (Normalize.main fault w).1 = Return tt
  ∧ db (Normalize.main fault w).2 = d'
  ∧ (∀ t, db w !! "codex_entries" = Some t → "region_name" ∉ cols t →
       ConsoleLog "Skipping regions normalization - region_name column not found"
       ∈ trace (Normalize.main fault w).2).
Proof.
  intros H. unfold normalize_db in H.
  apply bind_inr in H as (d1 & H1 & H). apply bind_inr in H as (d2 & H2 & H).
  apply bind_inr in H as (d3 & H3 & H).
  destruct (createNormalizedTables_run w d1 d2 H1 H2) as (w1 & R1 & D1 & l1 & T1).
  destruct (normalizeData_run w1 d3) as (w2 & R2 & D2 & T2); [by rewrite D1|].
  destruct (cleanUpColumns_run w2 d') as (w3 & R3 & D3 & l3 & T3); [by rewrite D2|].
  unfold Normalize.main, try_finally.
  rewrite (run_try_catch _ _ w tt (emit (ConsoleLog "Database normalization completed successfully") w3)).
  2:{ rewrite (run_bind _ _ _ _ _ R1), (run_bind _ _ _ _ _ R2),
        (run_bind _ _ _ _ _ R3). done. }
  cbn. split_and!; [done..|].
  intros t Ht Hc. rewrite !elem_of_app. left. left. rewrite T3, elem_of_app. left.
  apply T2. rewrite D1. cbn. unfold Normalize.column_exists.
  assert (∃ tB, d2 !! "codex_entries" = Some tB ∧ "region_name" ∉ cols tB)
    as (tB & -> & HtB); [|by apply bool_decide_eq_false_2].
  injection H1 as <-. rewrite Ht in H2.
  unfold Normalize.create_normalized in H2.
  repeat (apply bind_inr in H2 as (? & ? & H2)). injection H2 as <-.
  eexists. rewrite lookup_insert_eq. split; [done|].
  repeat match goal with
         | H : create_table _ _ _ = inr _ |- _ => apply create_table_inr in H as [_ ->]
         | H : relation _ _ = inr _ |- _ => apply relation_inr in H
         | H : add_column _ _ = inr _ |- _ => apply add_column_inr in H as [-> _]
         end.
  rewrite !lookup_insert_ne in * by done.
  rewrite !lookup_delete_ne in * by done.
  rewrite lookup_insert_eq in *.
  match goal with H : Some _ = Some _ |- _ => injection H as <- end.
  cbn. rewrite !elem_of_app, !list_elem_of_filter, !list_elem_of_singleton.
  naive_solver.
Qed.

End Runs.


Section Statements.

Context {env : environment}.

Lemma reset_prepared t :
  drop_column_if_exists "body_id"
    (drop_column_if_exists "system_id" (drop_column_if_exists "species_id" t))
  = Table (filter (λ c, c ∉ reference_columns) (cols t)) (not_null t) (unique t)
          (next_id t) (erase reference_columns <$> rows t).
Proof. apply (drop_all_spec reference_columns). Qed.

(** The first two statements: the reference tables are new and empty, the
    flat table has its three reference columns, empty. *)
Lemma prepare_spec d t :
  d !! "codex_entries" = Some t →
  ∃ dB,
    Normalize.drop_normalized d ≫= Normalize.create_normalized = inr dB
    ∧ dB !! "codex_entries" = Some (prepared t)
    ∧ dB !! "species" = Some Normalize.species_table
    ∧ dB !! "regions" = Some Normalize.regions_table
    ∧ dB !! "systems" = Some Normalize.systems_table
    ∧ dB !! "bodies" = Some Normalize.bodies_table.
Proof.
  intros Ht. unfold Normalize.drop_normalized. rewrite Ht, reset_prepared.
  cbn [mbind result_bind]. unfold Normalize.create_normalized, create_table, relation.
  repeat (rewrite ?lookup_delete_eq, ?lookup_insert_eq;
          rewrite ?lookup_delete_ne, ?lookup_insert_ne by done;
          cbn [mbind result_bind]).
  unfold add_column, has_column. cbn [cols not_null unique next_id rows].
  rewrite bool_decide_eq_false_2.
  2:{ rewrite list_elem_of_filter. intros [H _]. apply H. by apply (bool_decide_unpack _). }
  cbn [mbind result_bind cols not_null unique next_id rows].
  rewrite bool_decide_eq_false_2.
  2:{ rewrite elem_of_app, list_elem_of_filter, list_elem_of_singleton.
      intros [[H _]|?]; [|done]. apply H. by apply (bool_decide_unpack _). }
  cbn [mbind result_bind cols not_null unique next_id rows].
  rewrite bool_decide_eq_false_2.
  2:{ rewrite !elem_of_app, list_elem_of_filter, !list_elem_of_singleton.
      intros [[[H _]|?]|?]; [|done..]. apply H. by apply (bool_decide_unpack _). }
  cbn [mbind result_bind cols not_null unique next_id rows].
  eexists. split; [done|].
  repeat (rewrite ?lookup_insert_eq; rewrite ?lookup_insert_ne by done).
  split_and!; try done. unfold prepared, reference_columns.
  by rewrite <- !app_assoc.
Qed.

Lemma prepared_column t c :
  c ∉ reference_columns → c ∈ cols (prepared t) ↔ c ∈ cols t.
Proof.
  intros Hc. cbn. rewrite elem_of_app, list_elem_of_filter. naive_solver.
Qed.

Lemma prepared_reference t c :
  c ∈ reference_columns → c ∈ cols (prepared t).
Proof. intros Hc. cbn. rewrite elem_of_app. by right. Qed.

Lemma prepared_rows_empty t :
  Forall (λ r, ∀ c, c ∈ reference_columns → r !! c = None) (rows (prepared t)).
Proof.
  unfold prepared. cbn [rows]. apply Forall_forall. intros r Hr c Hc.
  apply list_elem_of_fmap in Hr as (r0 & -> & _).
  rewrite erase_lookup. by rewrite decide_True.
Qed.

End Statements.


Section Backfill.

Context {env : environment}.

Lemma lookup_assign c v (r : gmap string jsval) c' :
  assign c v r !! c' = if decide (c = c') then v else r !! c'.
Proof.
  unfold assign. destruct v as [x|], (decide (c = c')) as [->|Hne].
  - by rewrite lookup_insert_eq.
  - by rewrite lookup_insert_ne.
  - by rewrite lookup_delete_eq.
  - by rewrite lookup_delete_ne.
Qed.

Lemma filter_none {A} (P : A → Prop) `{∀ x, Decision (P x)} (l : list A) :
  (∀ x, ¬ P x) → filter P l = [].
Proof.
  intros HP. induction l as [|x l IH]; [done|].
  by rewrite filter_cons_False.
Qed.

Lemma bind_none {A B} (f : A → list B) (l : list A) :
  (∀ x, x ∈ l → f x = []) → l ≫= f = [].
Proof.
  induction l as [|x l IH]; intros H; [done|].
  rewrite bind_cons, H by left. cbn. apply IH. intros y Hy. apply H. by right.
Qed.

Lemma Is_true_sql_eq a v : Is_true (sql_eq a (Some v)) ↔ a = Some v.
Proof.
  destruct a as [x|]; unfold sql_eq.
  - rewrite bool_decide_spec. split; congruence.
  - split; [intros []|discriminate].
Qed.

Lemma Is_true_sql_eq_None a : ¬ Is_true (sql_eq a None).
Proof. destruct a; intros []. Qed.

Lemma first_writer_wins_unique key cs tuples t :
  first_writer_wins key cs tuples t → unique_on key t.
Proof.
  intros H kvals. specialize (H kvals).
  apply (f_equal length) in H. rewrite length_fmap in H. rewrite H.
  destruct (first_match _ _); cbn; lia.
Qed.

Lemma empty_unique key t : rows t = [] → unique_on key t.
Proof. intros H kvals. rewrite H. cbn. lia. Qed.

(** A correlated lookup by a unique column never fails. *)
Lemma scalar_unique t k v :
  unique_on [k] t →
  scalar (filter (λ s, Is_true (sql_eq (s !! k) v)) (rows t)) "id"
  = inr (id_of t k v).
Proof.
  intros Hu. unfold id_of. destruct v as [x|].
  - specialize (Hu [x]).
    rewrite (list_filter_iff _ (has_key [k] [x])).
    2:{ intros s. rewrite Is_true_sql_eq. symmetry. apply has_key_single. }
    by destruct (filter _ (rows t)) as [|s [|s' l]]; cbn in *; try lia.
  - rewrite filter_none; [done|]. intros s. apply Is_true_sql_eq_None.
Qed.

Lemma bind_if_length {A B} (l : list A) (c : A → bool) (y : B)
    (R : A → Prop) `{∀ x, Decision (R x)} :
  (∀ x, c x = true → R x) →
  length (l ≫= λ x, if c x then [y] else []) ≤ length (filter R l).
Proof.
  intros HR. induction l as [|x l IH]; [done|].
  rewrite bind_cons, length_app, filter_cons.
  destruct (c x) eqn:Hc.
  - rewrite decide_True by auto. cbn. lia.
  - destruct (decide (R x)); cbn; lia.
Qed.

Lemma filter_filter_length {A} (P Q : A → Prop)
    `{∀ x, Decision (P x)} `{∀ x, Decision (Q x)} (l : list A) :
  length (filter P (filter Q l)) ≤ length (filter P l).
Proof.
  induction l as [|x l IH]; [done|]. rewrite !filter_cons.
  destruct (decide (Q x)), (decide (P x)); rewrite ?filter_cons;
    repeat case_decide; cbn; try done; lia.
Qed.

Lemma bind_length_le_1 {A B} (f : A → list B) (P : A → Prop)
    `{∀ x, Decision (P x)} (l : list A) :
  (∀ x, length (f x) ≤ 1) →
  (∀ x, f x ≠ [] → P x) →
  length (filter P l) ≤ 1 →
  length (l ≫= f) ≤ 1.
Proof.
  intros Hf HP. induction l as [|x l IH]; intros Hl; [cbn; lia|].
  rewrite bind_cons, length_app. rewrite filter_cons in Hl.
  destruct (decide (P x)) as [Hx|Hx].
  - cbn in Hl. rewrite (bind_none f l).
    + specialize (Hf x). cbn. lia.
    + intros y Hy. destruct (f y) eqn:E; [done|]. exfalso.
      assert (y ∈ filter P l) as Hin.
      { apply list_elem_of_filter. split; [|done]. apply HP. by rewrite E. }
      destruct (filter P l); [by apply elem_of_nil in Hin|cbn in Hl; lia].
  - destruct (f x) eqn:E; [cbn; by apply IH|]. exfalso. apply Hx, HP. by rewrite E.
Qed.

(** The lookup of a body by its name and its system's name never fails
    either. *)
Lemma body_scalar_unique bd sy b n :
  unique_on ["name"] sy →
  unique_on ["name"; "system_id"] bd →
  scalar (b' ← rows bd;
          s ← filter (λ s, Is_true (sql_eq (b' !! "system_id") (s !! "id"))) (rows sy);
          if sql_eq (b' !! "name") b && sql_eq (s !! "name") n then [b'] else [])
         "id"
  = inr (body_id_of bd sy b n).
Proof.
  intros Hsy Hbd. unfold body_id_of.
  match goal with |- scalar ?L _ = _ => assert (length L ≤ 1) as Hlen end.
  2:{ destruct (_ ≫= _) as [|r [|r' l]]; cbn in *; try done; lia. }
  destruct n as [nv|].
  2:{ rewrite bind_none; [cbn; lia|]. intros b' _. apply bind_none. intros s _.
      destruct (s !! "name"); cbn; by rewrite andb_false_r. }
  destruct b as [bv|].
  2:{ rewrite bind_none; [cbn; lia|]. intros b' _. apply bind_none. intros s _.
      by destruct (b' !! "name"). }
  pose proof (Hsy [nv]) as HS.
  assert (Hinner : ∀ b' : gmap string jsval,
    length (s ← filter (λ s, Is_true (sql_eq (b' !! "system_id") (s !! "id"))) (rows sy);
            if sql_eq (b' !! "name") (Some bv) && sql_eq (s !! "name") (Some nv)
            then [b'] else []) ≤ 1).
  { intros b'.
    etrans; [apply (bind_if_length _ _ _ (has_key ["name"] [nv]))|].
    - intros s Hc. apply andb_true_iff in Hc as [_ Hc].
      apply has_key_single. by apply Is_true_sql_eq, Is_true_true.
    - etrans; [apply filter_filter_length|done]. }
  destruct (filter (has_key ["name"] [nv]) (rows sy)) as [|s0 [|s1 S]] eqn:ES;
    [| |cbn in HS; lia].
  { rewrite bind_none; [cbn; lia|]. intros b' _. apply bind_none. intros s Hs.
    apply list_elem_of_filter in Hs as [_ Hs].
    destruct (sql_eq (s !! "name") (Some nv)) eqn:E; [|by rewrite andb_false_r].
    exfalso. assert (s ∈ filter (has_key ["name"] [nv]) (rows sy)) as Hin.
    { apply list_elem_of_filter. split; [|done]. apply has_key_single.
      by apply Is_true_sql_eq, Is_true_true. }
    rewrite ES in Hin. by apply elem_of_nil in Hin. }
  destruct (s0 !! "id") as [sid|] eqn:Eid.
  - apply (bind_length_le_1 _ (has_key ["name"; "system_id"] [bv; sid])); [done| |apply Hbd].
    intros b' Hne.
    destruct (_ ≫= _) as [|x l] eqn:E in Hne; [done|].
    assert (x ∈ x :: l) as Hin by left. rewrite <- E in Hin.
    apply list_elem_of_bind in Hin as (s & Hin & Hs).
    apply list_elem_of_filter in Hs as [Hq Hs].
    destruct (sql_eq (b' !! "name") (Some bv) && sql_eq (s !! "name") (Some nv)) eqn:Hc;
      [|by apply elem_of_nil in Hin].
    apply andb_true_iff in Hc as [Hc1 Hc2].
    apply Is_true_true, Is_true_sql_eq in Hc1, Hc2.
    assert (s = s0) as ->.
    { assert (s ∈ filter (has_key ["name"] [nv]) (rows sy)) as Hin'.
      { apply list_elem_of_filter. split; [|done]. by apply has_key_single. }
      rewrite ES in Hin'. by apply list_elem_of_singleton in Hin'. }
    rewrite Eid in Hq. apply Is_true_sql_eq in Hq.
    unfold has_key. cbn. by rewrite Hc1, Hq.
  - rewrite bind_none; [cbn; lia|]. intros b' _. apply bind_none. intros s Hs.
    apply list_elem_of_filter in Hs as [Hq Hs].
    destruct (sql_eq (s !! "name") (Some nv)) eqn:E; [|by rewrite andb_false_r].
    exfalso. assert (s = s0) as ->.
    { assert (s ∈ filter (has_key ["name"] [nv]) (rows sy)) as Hin'.
      { apply list_elem_of_filter. split; [|done]. apply has_key_single.
        by apply Is_true_sql_eq, Is_true_true. }
      rewrite ES in Hin'. by apply list_elem_of_singleton in Hin'. }
    rewrite Eid in Hq. by apply Is_true_sql_eq_None in Hq.
Qed.

End Backfill.


Section Update.

Context {env : environment}.

Lemma id_of_None t k : id_of t k None = None.
Proof.
  unfold id_of. rewrite filter_none; [done|]. intros s. apply Is_true_sql_eq_None.
Qed.

Lemma body_id_of_None bd sy n : body_id_of bd sy None n = None.
Proof.
  unfold body_id_of. rewrite bind_none; [done|]. intros b' _. apply bind_none.
  intros s _. by destruct (b' !! "name").
Qed.

Lemma assign_None c (r : gmap string jsval) :
  r !! c = None → assign c None r = r.
Proof. intros H. cbn. by apply delete_id. Qed.

Lemma update_rows_spec d parts conds rs f :
  (∀ r, r ∈ rs →
        (if existsb (λ c, holds c r) conds then update_row d r parts r else inr r)
        = inr (f r)) →
  update_rows d parts conds rs = inr (f <$> rs).
Proof.
  induction rs as [|r rs IH]; intros H; [done|].
  cbn [update_rows]. rewrite H by left. cbn [mbind result_bind].
  rewrite IH; [done|]. intros r' Hr'. apply H. by right.
Qed.

Lemma set_rows_id t : set_rows t (rows t) = t.
Proof. by destruct t. Qed.

Variables (d : gmap string table) (ce sp sy bd : table).
Hypothesis Hce : d !! "codex_entries" = Some ce.
Hypothesis Hsp : d !! "species" = Some sp.
Hypothesis Hsy : d !! "systems" = Some sy.
Hypothesis Hbd : d !! "bodies" = Some bd.
Hypothesis Usp : unique_on ["english_name"] sp.
Hypothesis Usy : unique_on ["name"] sy.
Hypothesis Ubd : unique_on ["name"; "system_id"] bd.

Lemma value_species_id r :
  value Normalize.set_species_id d r
  = inr (id_of sp "english_name" (r !! "english_name")).
Proof.
  cbn [value Normalize.set_species_id]. unfold relation. rewrite Hsp.
  cbn [mbind result_bind]. by apply scalar_unique.
Qed.

Lemma value_system_id r :
  value Normalize.set_system_id d r = inr (id_of sy "name" (r !! "system")).
Proof.
  cbn [value Normalize.set_system_id]. unfold relation. rewrite Hsy.
  cbn [mbind result_bind]. by apply scalar_unique.
Qed.

Lemma value_body_id r :
  value Normalize.set_body_id d r
  = inr (body_id_of bd sy (r !! "body") (r !! "system")).
Proof.
  cbn [value Normalize.set_body_id]. unfold relation. rewrite Hbd, Hsy.
  cbn [mbind result_bind]. by apply body_scalar_unique.
Qed.

Lemma backfill_row (hE hS hR hL : bool) r :
  (∀ c, c ∈ reference_columns → r !! c = None) →
  (if existsb (λ c, holds c r) (Normalize.whereConditions (Normalize.ColumnCheck hE hR hL hS))
   then update_row d r (Normalize.updateParts (Normalize.ColumnCheck hE hR hL hS)) r
   else inr r)
  = inr (backfilled hE hS sp sy bd r).
Proof.
  intros Hr.
  assert (H1 : r !! "species_id" = None) by (apply Hr; by apply (bool_decide_unpack _)).
  assert (H2 : r !! "system_id" = None) by (apply Hr; by apply (bool_decide_unpack _)).
  assert (H3 : r !! "body_id" = None) by (apply Hr; by apply (bool_decide_unpack _)).
  unfold Normalize.whereConditions, Normalize.updateParts, backfilled.
  cbn [Normalize.has_english_name Normalize.has_system].
  destruct hE, hS; cbn [app existsb holds Normalize.english_name_not_null
                         Normalize.system_or_body_not_null update_row target
                         Normalize.set_species_id Normalize.set_system_id
                         Normalize.set_body_id];
    rewrite ?value_species_id, ?value_system_id, ?value_body_id;
    cbn [mbind result_bind]; try done.
  - destruct (r !! "english_name") as [e|] eqn:Ee.
    { rewrite bool_decide_eq_true_2 by eauto. by cbn [orb]. }
    rewrite bool_decide_eq_false_2 by (by intros [? ?]). cbn [orb].
    destruct (r !! "system") as [s|] eqn:Es.
    { rewrite bool_decide_eq_true_2 by eauto. by cbn [orb]. }
    rewrite bool_decide_eq_false_2 by (by intros [? ?]). cbn [orb].
    destruct (r !! "body") as [b|] eqn:Eb.
    { rewrite bool_decide_eq_true_2 by eauto. by cbn [orb]. }
    rewrite bool_decide_eq_false_2 by (by intros [? ?]). cbn [orb].
    rewrite !id_of_None, body_id_of_None.
    rewrite (assign_None "species_id" r) by done.
    rewrite (assign_None "system_id" r) by done.
    by rewrite (assign_None "body_id" r) by done.
  - destruct (r !! "english_name") as [e|] eqn:Ee.
    { rewrite bool_decide_eq_true_2 by eauto. by cbn [orb]. }
    rewrite bool_decide_eq_false_2 by (by intros [? ?]). cbn [orb].
    rewrite id_of_None. by rewrite assign_None.
  - destruct (r !! "system") as [s|] eqn:Es.
    { rewrite bool_decide_eq_true_2 by eauto. by cbn [orb]. }
    rewrite bool_decide_eq_false_2 by (by intros [? ?]). cbn [orb].
    destruct (r !! "body") as [b|] eqn:Eb.
    { rewrite bool_decide_eq_true_2 by eauto. by cbn [orb]. }
    rewrite bool_decide_eq_false_2 by (by intros [? ?]). cbn [orb].
    rewrite !id_of_None, body_id_of_None.
    rewrite (assign_None "system_id" r) by done.
    by rewrite (assign_None "body_id" r) by done.
Qed.

(** The [UPDATE] fills the reference columns of every row, for the columns
    the probe found. *)
Lemma update_spec (hE hS hR hL : bool) :
  Forall (λ c, c ∈ cols ce) reference_columns →
  (hE = true → "english_name" ∈ cols ce) →
  (hS = true → "system" ∈ cols ce ∧ "body" ∈ cols ce) →
  Forall (λ r, ∀ c, c ∈ reference_columns → r !! c = None) (rows ce) →
  (if (0 <? length (Normalize.updateParts (Normalize.ColumnCheck hE hR hL hS)))%nat
   then update_codex_entries (Normalize.updateParts (Normalize.ColumnCheck hE hR hL hS))
          (Normalize.whereConditions (Normalize.ColumnCheck hE hR hL hS)) d
   else inr d)
  = inr (<["codex_entries" := set_rows ce (backfilled hE hS sp sy bd <$> rows ce)]> d).
Proof.
  intros Hrefs HE HS Hrows.
  assert (Hupd : update_rows d (Normalize.updateParts (Normalize.ColumnCheck hE hR hL hS))
                   (Normalize.whereConditions (Normalize.ColumnCheck hE hR hL hS)) (rows ce)
                 = inr (backfilled hE hS sp sy bd <$> rows ce)).
  { apply update_rows_spec. intros r Hr. apply backfill_row.
    rewrite Forall_forall in Hrows. by apply Hrows. }
  apply Forall_cons_1 in Hrefs as [R1 Hrefs]. apply Forall_cons_1 in Hrefs as [R2 Hrefs].
  apply Forall_cons_1 in Hrefs as [R3 _].
  destruct (0 <? _)%nat eqn:Hlen.
  - unfold update_codex_entries, relation. rewrite Hce. cbn [mbind result_bind].
    rewrite Hupd.
    destruct hE, hS; try discriminate Hlen;
      cbn [Normalize.updateParts Normalize.whereConditions Normalize.has_english_name
             Normalize.has_system app fmap list_fmap target set_refs cond_refs
             Normalize.set_species_id Normalize.set_system_id Normalize.set_body_id
             Normalize.english_name_not_null Normalize.system_or_body_not_null
             mbind list_bind];
      try pose proof (HE eq_refl) as HE1;
      try pose proof (proj1 (HS eq_refl)) as HS1;
      try pose proof (proj2 (HS eq_refl)) as HS2;
      repeat (rewrite (proj2 (require_columns_inr _ _))
                by (repeat first [apply Forall_nil_2
                                 |apply Forall_cons_2; [assumption|]]));
      cbn [mbind result_bind]; done.
  - destruct hE, hS; try discriminate Hlen. cbn [backfilled].
    rewrite list_fmap_id, set_rows_id. by rewrite insert_id.
Qed.

End Update.


Section Pipeline.

Context {env : environment}.

Lemma probe_prepared dB t :
  dB !! "codex_entries" = Some (prepared t) →
  Normalize.probe dB
  = Normalize.ColumnCheck (bool_decide ("english_name" ∈ cols t))
                          (bool_decide ("region_name" ∈ cols t))
                          (bool_decide ("region_name_localised" ∈ cols t))
                          (bool_decide ("system" ∈ cols t)).
Proof.
  intros H. unfold Normalize.probe, Normalize.column_exists, has_column. rewrite H.
  f_equal; apply bool_decide_ext, prepared_column; by apply (bool_decide_unpack _).
Qed.

Lemma step_species dB t :
  dB !! "codex_entries" = Some (prepared t) →
  dB !! "species" = Some Normalize.species_table →
  (if bool_decide ("english_name" ∈ cols t)
   then Normalize.insert_species dB else inr dB)
  = inr (<["species" := species_of t]> dB)
  ∧ unique_on ["english_name"] (species_of t)
  ∧ populated (bool_decide ("english_name" ∈ cols t))
      ["english_name"] ["english_name"]
      (Normalize.species_data (prepared t)) Normalize.species_table (species_of t).
Proof.
  intros Hce Hsp. unfold species_of. case_bool_decide as HE.
  - destruct (insert_species_ok dB (prepared t)) as (E & _ & _ & W); try done.
    { apply prepared_column; [by apply (bool_decide_unpack _)|done]. }
    split_and!; [done| |done]. by eapply first_writer_wins_unique.
  - split_and!; [by rewrite insert_id| |done]. by apply empty_unique.
Qed.

Lemma step_regions d1 t :
  d1 !! "codex_entries" = Some (prepared t) →
  d1 !! "regions" = Some Normalize.regions_table →
  (if bool_decide ("region_name" ∈ cols t)
   then (if bool_decide ("region_name_localised" ∈ cols t)
         then Normalize.insert_regions_localised
         else Normalize.insert_regions) d1
   else inr d1)
  = inr (<["regions" := regions_of t]> d1)
  ∧ unique_on ["name"] (regions_of t).
Proof.
  intros Hce Hrg. unfold regions_of. case_bool_decide as HR.
  - assert (Hp : ∀ c, c ∉ reference_columns → c ∈ cols t → c ∈ cols (prepared t))
      by (intros c ??; by apply prepared_column).
    case_bool_decide as HL.
    + destruct (insert_regions_localised_ok d1 (prepared t)) as (E & _ & _ & W); try done.
      { repeat constructor; apply Hp; try done; by apply (bool_decide_unpack _). }
      split; [done|]. by eapply first_writer_wins_unique.
    + destruct (insert_regions_ok d1 (prepared t)) as (E & _ & _ & W); try done.
      { apply Hp; [by apply (bool_decide_unpack _)|done]. }
      split; [done|]. by eapply first_writer_wins_unique.
  - split; [by rewrite insert_id|]. by apply empty_unique.
Qed.

Lemma step_systems d2 t :
  d2 !! "codex_entries" = Some (prepared t) →
  d2 !! "regions" = Some (regions_of t) →
  d2 !! "systems" = Some Normalize.systems_table →
  ("system" ∈ cols t → Forall (λ c, c ∈ cols t) ["x"; "y"; "z"; "body"]) →
  (if bool_decide ("system" ∈ cols t)
   then (if bool_decide ("region_name" ∈ cols t)
         then Normalize.insert_systems_with_region
         else Normalize.insert_systems) d2
   else inr d2)
  = inr (<["systems" := systems_of t]> d2)
  ∧ unique_on ["name"] (systems_of t)
  ∧ populated (bool_decide ("system" ∈ cols t)) ["name"]
      (if bool_decide ("region_name" ∈ cols t)
       then ["name"; "x"; "y"; "z"; "region_id"] else ["name"; "x"; "y"; "z"])
      (if bool_decide ("region_name" ∈ cols t)
       then Normalize.system_data_with_region (prepared t) (regions_of t)
       else Normalize.system_data (prepared t))
      Normalize.systems_table (systems_of t).
Proof.
  intros Hce Hrg Hsy Hcols. unfold systems_of. case_bool_decide as HS.
  - specialize (Hcols HS).
    apply Forall_cons_1 in Hcols as [Hx Hcols]. apply Forall_cons_1 in Hcols as [Hy Hcols].
    apply Forall_cons_1 in Hcols as [Hz _].
    assert (Hp : ∀ c, c ∉ reference_columns → c ∈ cols t → c ∈ cols (prepared t))
      by (intros c ??; by apply prepared_column).
    case_bool_decide as HR.
    + destruct (insert_systems_with_region_ok d2 (prepared t) (regions_of t))
        as (E & _ & _ & W); try done.
      { repeat constructor; apply Hp; try done; by apply (bool_decide_unpack _). }
      split_and!; [done| |done]. by eapply first_writer_wins_unique.
    + destruct (insert_systems_ok d2 (prepared t)) as (E & _ & _ & W); try done.
      { repeat constructor; apply Hp; try done; by apply (bool_decide_unpack _). }
      split_and!; [done| |done]. by eapply first_writer_wins_unique.
  - split_and!; [by rewrite insert_id| |done]. by apply empty_unique.
Qed.

Lemma step_bodies d3 t :
  d3 !! "codex_entries" = Some (prepared t) →
  d3 !! "systems" = Some (systems_of t) →
  d3 !! "bodies" = Some Normalize.bodies_table →
  ("system" ∈ cols t → Forall (λ c, c ∈ cols t) ["x"; "y"; "z"; "body"]) →
  (if bool_decide ("system" ∈ cols t) then Normalize.insert_bodies d3 else inr d3)
  = inr (<["bodies" := bodies_of t]> d3)
  ∧ unique_on ["name"; "system_id"] (bodies_of t)
  ∧ populated (bool_decide ("system" ∈ cols t))
      ["name"; "system_id"] ["name"; "system_id"]
      (Normalize.body_data (prepared t) (systems_of t))
      Normalize.bodies_table (bodies_of t).
Proof.
  intros Hce Hsy Hbd Hcols. unfold bodies_of. case_bool_decide as HS.
  - specialize (Hcols HS). rewrite Forall_forall in Hcols.
    destruct (insert_bodies_ok d3 (prepared t) (systems_of t)) as (E & _ & _ & W);
      try done.
    { repeat constructor; (apply prepared_column; [by apply (bool_decide_unpack _)|]);
        [apply Hcols; by apply (bool_decide_unpack _)|done]. }
    split_and!; [done| |done]. by eapply first_writer_wins_unique.
  - split_and!; [by rewrite insert_id| |done]. by apply empty_unique.
Qed.

(** What the statements of the normalizer make of a database whose flat
    table is [t]: they all succeed, and leave the five tables described. *)
Lemma normalize_db_spec d t :
  d !! "codex_entries" = Some t →
  ("system" ∈ cols t → Forall (λ c, c ∈ cols t) ["x"; "y"; "z"; "body"]) →
  ∃ d',
    normalize_db d = inr d'
    ∧ d' !! "codex_entries" = Some (flat_after t)
    ∧ d' !! "species" = Some (species_of t)
    ∧ d' !! "regions" = Some (regions_of t)
    ∧ d' !! "systems" = Some (systems_of t)
    ∧ d' !! "bodies" = Some (bodies_of t)
    ∧ populated (bool_decide ("english_name" ∈ cols t))
        ["english_name"] ["english_name"]
        (Normalize.species_data (prepared t)) Normalize.species_table (species_of t)
    ∧ populated (bool_decide ("system" ∈ cols t)) ["name"]
        (if bool_decide ("region_name" ∈ cols t)
         then ["name"; "x"; "y"; "z"; "region_id"] else ["name"; "x"; "y"; "z"])
        (if bool_decide ("region_name" ∈ cols t)
         then Normalize.system_data_with_region (prepared t) (regions_of t)
         else Normalize.system_data (prepared t))
        Normalize.systems_table (systems_of t)
    ∧ populated (bool_decide ("system" ∈ cols t))
        ["name"; "system_id"] ["name"; "system_id"]
        (Normalize.body_data (prepared t) (systems_of t))
        Normalize.bodies_table (bodies_of t).
Proof.
  intros Ht Hcols.
  destruct (prepare_spec d t Ht) as (dB & HB & Bce & Bsp & Brg & Bsy & Bbd).
  apply bind_inr in HB as (dA & HA & HB).
  unfold normalize_db. rewrite HA. cbn [mbind result_bind]. rewrite HB.
  cbn [mbind result_bind]. rewrite (probe_prepared dB t Bce).
  unfold normalize_steps.
  cbn [Normalize.has_english_name Normalize.has_region_name
         Normalize.has_region_name_localised Normalize.has_system].
  destruct (step_species dB t Bce Bsp) as (-> & Usp & Psp). cbn [mbind result_bind].
  edestruct (step_regions (<["species" := species_of t]> dB) t) as (-> & Urg);
    try (by rewrite ?lookup_insert_eq, ?lookup_insert_ne).
  cbn [mbind result_bind].
  edestruct (step_systems (<["regions" := regions_of t]> (<["species" := species_of t]> dB)) t)
    as (-> & Usy & Psy);
    try (by rewrite ?lookup_insert_eq, ?lookup_insert_ne).
  cbn [mbind result_bind].
  edestruct (step_bodies (<["systems" := systems_of t]>
               (<["regions" := regions_of t]> (<["species" := species_of t]> dB))) t)
    as (-> & Ubd & Pbd);
    try (by rewrite ?lookup_insert_eq, ?lookup_insert_ne).
  cbn [mbind result_bind].
  set (d4 := <["bodies" := bodies_of t]> _).
  rewrite (update_spec d4 (prepared t) (species_of t) (systems_of t) (bodies_of t));
    try done; try (unfold d4; by rewrite ?lookup_insert_eq, ?lookup_insert_ne).
  - cbn [mbind result_bind].
    unfold Normalize.drop_superseded, relation. rewrite lookup_insert_eq.
    cbn [mbind result_bind]. rewrite drop_all_spec.
    eexists. split; [done|]. unfold d4.
    repeat (rewrite ?lookup_insert_eq; rewrite ?lookup_insert_ne by done).
    by split_and!.
  - unfold d4. rewrite !lookup_insert_ne by done. apply lookup_insert_eq.
  - unfold d4. rewrite lookup_insert_ne by done. apply lookup_insert_eq.
  - repeat constructor; apply prepared_reference; by apply (bool_decide_unpack _).
  - intros HE. apply bool_decide_eq_true in HE.
    apply prepared_column; [by apply (bool_decide_unpack _)|done].
  - intros HS. apply bool_decide_eq_true in HS. specialize (Hcols HS).
    rewrite Forall_forall in Hcols.
    split; (apply prepared_column; [by apply (bool_decide_unpack _)|]); [done|].
    apply Hcols. by apply (bool_decide_unpack _).
  - apply prepared_rows_empty.
Qed.

End Pipeline.


Section Rows.

Context {env : environment}.

Lemma bind_fmap_ext {A B C} (f : A → B) (g : B → list C) (h : A → list C) l :
  (∀ x, g (f x) = h x) → (f <$> l) ≫= g = l ≫= h.
Proof.
  intros E. induction l as [|x l IH]; [done|].
  cbn [fmap list_fmap]. by rewrite !bind_cons, E, IH.
Qed.

Lemma erase_keeps cs r c : c ∉ cs → erase cs r !! c = r !! c.
Proof. intros H. by rewrite erase_lookup, decide_False. Qed.

Lemma erase_drops cs r c : c ∈ cs → erase cs r !! c = None.
Proof. intros H. by rewrite erase_lookup, decide_True. Qed.

Lemma backfilled_keeps hE hS sp sy bd r c :
  c ∉ reference_columns → backfilled hE hS sp sy bd r !! c = r !! c.
Proof.
  intros H. unfold backfilled.
  assert ("species_id" ≠ c ∧ "system_id" ≠ c ∧ "body_id" ≠ c) as (H1 & H2 & H3).
  { repeat split; intros <-; apply H; by apply (bool_decide_unpack _). }
  destruct hE, hS; rewrite ?lookup_assign, ?decide_False by done; done.
Qed.


Lemma system_data_ext t t' f :
  rows t' = f <$> rows t →
  (∀ r c, c ∈ ["system"; "x"; "y"; "z"] → f r !! c = r !! c) →
  Normalize.system_data t' = Normalize.system_data t.
Proof.
  intros R E. unfold Normalize.system_data. rewrite R. f_equal.
  apply bind_fmap_ext. intros r.
  by rewrite !E by (by apply (bool_decide_unpack _)).
Qed.

Lemma body_data_ext t t' sy f :
  rows t' = f <$> rows t →
  (∀ r c, c ∈ ["system"; "body"] → f r !! c = r !! c) →
  Normalize.body_data t' sy = Normalize.body_data t sy.
Proof.
  intros R E. unfold Normalize.body_data. rewrite R. f_equal.
  apply bind_fmap_ext. intros r.
  by rewrite !E by (by apply (bool_decide_unpack _)).
Qed.


Lemma system_data_prepared t :
  Normalize.system_data (prepared t) = Normalize.system_data t.
Proof.
  apply (system_data_ext _ _ (erase reference_columns)); [done|].
  intros r c Hc. apply erase_keeps.
  repeat (apply elem_of_cons in Hc as [->|Hc]; [by apply (bool_decide_unpack _)|]).
  by apply elem_of_nil in Hc.
Qed.

Lemma body_data_prepared t sy :
  Normalize.body_data (prepared t) sy = Normalize.body_data t sy.
Proof.
  apply (body_data_ext _ _ _ (erase reference_columns)); [done|].
  intros r c Hc. apply erase_keeps.
  repeat (apply elem_of_cons in Hc as [->|Hc]; [by apply (bool_decide_unpack _)|]).
  by apply elem_of_nil in Hc.
Qed.

Lemma references_row hE hS sp sy bd r :
  references hE hS sp sy bd r
    (erase Normalize.dropped_columns
       (backfilled hE hS sp sy bd (erase reference_columns r))).
Proof.
  assert (K : ∀ c, c ∉ reference_columns →
              erase reference_columns r !! c = r !! c)
    by (intros; by apply erase_keeps).
  repeat split.
  - rewrite erase_keeps by (by apply (bool_decide_unpack _)).
    unfold backfilled. destruct hE, hS;
      rewrite ?lookup_assign; cbn [decide_rel]; rewrite ?decide_False by done;
      rewrite ?decide_True by done; rewrite ?K by (by apply (bool_decide_unpack _));
      try done; by apply erase_drops, (bool_decide_unpack _).
  - rewrite erase_keeps by (by apply (bool_decide_unpack _)).
    unfold backfilled. destruct hE, hS;
      rewrite ?lookup_assign; cbn [decide_rel]; rewrite ?decide_False by done;
      rewrite ?decide_True by done; rewrite ?K by (by apply (bool_decide_unpack _));
      try done; by apply erase_drops, (bool_decide_unpack _).
  - rewrite erase_keeps by (by apply (bool_decide_unpack _)).
    unfold backfilled. destruct hE, hS;
      rewrite ?lookup_assign; cbn [decide_rel]; rewrite ?decide_False by done;
      rewrite ?decide_True by done; rewrite ?K by (by apply (bool_decide_unpack _));
      try done; by apply erase_drops, (bool_decide_unpack _).
  - intros c Hc. by apply erase_drops.
  - intros c Hr Hd. by rewrite erase_keeps, backfilled_keeps, K.
Qed.

Lemma flat_after_rows t :
  Forall2 (references (bool_decide ("english_name" ∈ cols t))
                      (bool_decide ("system" ∈ cols t))
                      (species_of t) (systems_of t) (bodies_of t))
          (rows t) (rows (flat_after t)).
Proof.
  cbn [rows flat_after prepared]. rewrite <- !list_fmap_compose.
  apply Forall2_fmap_r, Forall_Forall2_diag, Forall_forall.
  intros r _. apply references_row.
Qed.

End Rows.


(** * What the population statements select *)

Section Selections.

Context {env : environment}.

Lemma bind_filter_fmap {A B} (P : A → Prop) `{∀ x, Decision (P x)}
    (f : A → B) (l : list A) :
  (x ← l; if bool_decide (P x) then [f x] else []) = f <$> filter P l.
Proof.
  induction l as [|x l IH]; [done|]. rewrite bind_cons, filter_cons, IH.
  case_bool_decide; [by rewrite decide_True|by rewrite decide_False].
Qed.

Lemma species_data_selection ce :
  Normalize.species_data ce
  = select_distinct (selection "english_name" ["english_name"] ce).
Proof.
  unfold Normalize.species_data, selection. f_equal.
  apply (bind_filter_fmap (λ r, is_Some (r !! "english_name"))
           (λ r, [r !! "english_name"])).
Qed.

Lemma region_data_selection ce :
  Normalize.region_data ce
  = select_distinct (selection "region_name" ["region_name"] ce).
Proof.
  unfold Normalize.region_data, selection. f_equal.
  apply (bind_filter_fmap (λ r, is_Some (r !! "region_name"))
           (λ r, [r !! "region_name"])).
Qed.

Lemma region_data_localised_selection ce :
  Normalize.region_data_localised ce
  = select_distinct
      (selection "region_name" ["region_name"; "region_name_localised"] ce).
Proof.
  unfold Normalize.region_data_localised, selection. f_equal.
  apply (bind_filter_fmap (λ r, is_Some (r !! "region_name"))
           (λ r, [r !! "region_name"; r !! "region_name_localised"])).
Qed.

Lemma system_data_selection ce :
  Normalize.system_data ce
  = select_distinct (selection "system" ["system"; "x"; "y"; "z"] ce).
Proof.
  unfold Normalize.system_data, selection. f_equal.
  apply (bind_filter_fmap (λ r, is_Some (r !! "system"))
           (λ r, [r !! "system"; r !! "x"; r !! "y"; r !! "z"])).
Qed.

Lemma sql_eq_sym a b : sql_eq a b = sql_eq b a.
Proof.
  destruct a as [x|], b as [y|]; try done. cbn.
  apply bool_decide_ext. naive_solver.
Qed.

(** The rows of a table that match a value in a column that is unique: one
    or none. *)
Lemma matches_unique t k v :
  unique_on [k] t →
  filter (λ s, Is_true (sql_eq (s !! k) v)) (rows t)
  = option_list (head (filter (λ s, Is_true (sql_eq (s !! k) v)) (rows t))).
Proof.
  intros Hu. destruct v as [x|].
  - specialize (Hu [x]).
    rewrite (list_filter_iff _ (has_key [k] [x])).
    2:{ intros s. rewrite Is_true_sql_eq. symmetry. apply has_key_single. }
    destruct (filter _ (rows t)) as [|s [|s' l]]; cbn in *; [done|done|lia].
  - assert (E : filter (λ s, Is_true (sql_eq (s !! k) None)) (rows t) = []);
      [|by rewrite E].
    induction (rows t) as [|s l IH]; [done|].
    rewrite filter_cons, decide_False by apply Is_true_sql_eq_None. done.
Qed.

Lemma system_data_with_region_located ce rg :
  unique_on ["name"] rg →
  Normalize.system_data_with_region ce rg = select_distinct (located rg ce).
Proof.
  intros Hu. unfold Normalize.system_data_with_region, located. f_equal.
  rewrite <- (bind_filter_fmap (λ r, is_Some (r !! "system"))).
  apply list_bind_ext; [|done]. intros r. unfold id_of, left_join.
  rewrite (list_filter_iff _ (λ s, Is_true (sql_eq (s !! "name") (r !! "region_name"))))
    by (intros s; by rewrite sql_eq_sym).
  rewrite (matches_unique rg "name" _ Hu).
  destruct (head _) as [g|]; cbn; by rewrite app_nil_r.
Qed.

Lemma body_data_housed ce sy :
  unique_on ["name"] sy →
  Normalize.body_data ce sy = select_distinct (housed sy ce).
Proof.
  intros Hu. unfold Normalize.body_data, housed. f_equal.
  induction (rows ce) as [|r l IH]; [done|].
  rewrite bind_cons, IH. cbn [omap list_omap].
  rewrite (list_filter_iff _ (λ s, Is_true (sql_eq (s !! "name") (r !! "system"))))
    by (intros s; by rewrite sql_eq_sym).
  rewrite (matches_unique sy "name" _ Hu).
  destruct (head _) as [s|]; case_bool_decide; done.
Qed.

Lemma first_writer_wins_select key cs l t :
  first_writer_wins key cs (select_distinct l) t
  ↔ first_writer_wins key cs (arrange l) t.
Proof.
  unfold first_writer_wins. by setoid_rewrite first_match_select.
Qed.

(** What conflict-skip leaves for one value of the key: the row of the
    first tuple delivered with it, and no row when no tuple has it. *)
Lemma wins_row key cs tuples t kvals :
  first_writer_wins key cs tuples t →
  (Exists (λ u, has_key key kvals (tuple_row cs u)) tuples →
   ∃ s u, filter (has_key key kvals) (rows t) = [s]
          ∧ u ∈ tuples ∧ has_key key kvals (tuple_row cs u)
          ∧ delete "id" s = tuple_row cs u)
  ∧ (¬ Exists (λ u, has_key key kvals (tuple_row cs u)) tuples →
     filter (has_key key kvals) (rows t) = []).
Proof.
  intros Hw. specialize (Hw kvals).
  destruct (first_match _ tuples) as [u|] eqn:E.
  - apply first_match_Some in E as (pre & post & -> & Hu & _).
    cbn in Hw. apply fmap_singleton_inv in Hw as (s & Hs & Hd). split.
    + intros _. exists s, u. split_and!; try done.
      apply elem_of_app. right. left.
    + intros Hn. exfalso. apply Hn, Exists_exists. exists u. split; [|done].
      apply elem_of_app. right. left.
  - apply first_match_None in E. cbn in Hw. apply fmap_nil_inv in Hw. split.
    + intros Hex. exfalso. by apply Forall_Exists_neg in E.
    + done.
Qed.

(** A system that a flat row names gets one row, with the coordinates of a
    flat row that names it; any other name gets none. *)
Lemma one_system_row ce rg sy n :
  first_writer_wins ["name"] ["name"; "x"; "y"; "z"; "region_id"]
    (arrange (located rg ce)) sy →
  (occurs "system" n ce →
   ∃ s r, filter (λ s, s !! "name" = Some n) (rows sy) = [s]
          ∧ r ∈ rows ce ∧ r !! "system" = Some n
          ∧ s !! "x" = r !! "x" ∧ s !! "y" = r !! "y" ∧ s !! "z" = r !! "z")
  ∧ (¬ occurs "system" n ce → filter (λ s, s !! "name" = Some n) (rows sy) = []).
Proof.
  intros Hw. destruct (wins_row _ _ _ _ [n] Hw) as [Hyes Hno].
  assert (Hnd : "name" ∉ ["x"; "y"; "z"; "region_id"])
    by (by apply (bool_decide_unpack _)).
  assert (Hex : Exists (λ u, has_key ["name"] [n]
                          (tuple_row ["name"; "x"; "y"; "z"; "region_id"] u))
                  (arrange (located rg ce))
                ↔ occurs "system" n ce).
  { unfold occurs. rewrite !Exists_exists. split.
    - intros (u & Hu & Hk). rewrite arrange_elem_of in Hu.
      apply list_elem_of_fmap in Hu as (r & -> & Hr).
      apply list_elem_of_filter in Hr as [_ Hr].
      exists r. split; [done|]. by apply named_tuple in Hk.
    - intros (r & Hr & Hn). eexists. split.
      + apply arrange_elem_of. apply list_elem_of_fmap. exists r. split; [done|].
        apply list_elem_of_filter. by rewrite Hn.
      + by apply named_tuple. }
  rewrite (list_filter_iff _ (has_key ["name"] [n]))
    by (intros s; by rewrite has_key_single).
  split.
  - intros Ho. apply Hex, Hyes in Ho as (s & u & Hs & Hu & Hk & Hd).
    rewrite arrange_elem_of in Hu.
    apply list_elem_of_fmap in Hu as (r & -> & Hr).
    apply list_elem_of_filter in Hr as [_ Hr].
    exists s, r. split_and!; try done.
    + by apply named_tuple in Hk.
    + rewrite <- (lookup_delete_ne s "id" "x"), Hd by done.
      by rewrite (tuple_row_lookup _ _ 1 "x") by (by apply (bool_decide_unpack _)).
    + rewrite <- (lookup_delete_ne s "id" "y"), Hd by done.
      by rewrite (tuple_row_lookup _ _ 2 "y") by (by apply (bool_decide_unpack _)).
    + rewrite <- (lookup_delete_ne s "id" "z"), Hd by done.
      by rewrite (tuple_row_lookup _ _ 3 "z") by (by apply (bool_decide_unpack _)).
  - intros Ho. apply Hno. by rewrite Hex.
Qed.

End Selections.

(** * Natural keys *)

(** C6.  Run on reference tables that are still empty, the population
    statements of the normalizer all succeed, whatever the flat table holds
    and in whatever order the server delivers what they select; and each
    table obeys its natural key with the first writer winning: for any value
    of the key (species by name, regions by name, systems by name, bodies by
    name and system) there is at most one row, made of the first tuple
    delivered with that key, every later one being skipped.  The tuples are
    those of the flat rows: the name for species and regions; name,
    coordinates and region for systems (with and without a region column);
    body and system for bodies.  In particular a system name that occurs in
    several flat rows, whatever their coordinates, gets exactly one row of
    [systems], with the coordinates of one of these rows, and a name that
    no flat row carries gets none. *)
Theorem natural_key_uniqueness {env : environment} d ce :
  d !! "codex_entries" = Some ce →
  Forall (λ c, c ∈ cols ce)
         ["english_name"; "region_name"; "system"; "x"; "y"; "z"; "body"] →
  d !! "species" = Some Normalize.species_table →
  d !! "regions" = Some Normalize.regions_table →
  d !! "systems" = Some Normalize.systems_table →
  d !! "bodies" = Some Normalize.bodies_table →
  ∃ sp rg sy bd sy0,
    Normalize.insert_species d = inr (<["species" := sp]> d)
    ∧ Normalize.insert_regions (<["species" := sp]> d)
      = inr (<["regions" := rg]> (<["species" := sp]> d))
    ∧ Normalize.insert_systems_with_region (<["regions" := rg]> (<["species" := sp]> d))
      = inr (<["systems" := sy]> (<["regions" := rg]> (<["species" := sp]> d)))
    ∧ Normalize.insert_bodies
        (<["systems" := sy]> (<["regions" := rg]> (<["species" := sp]> d)))
      = inr (<["bodies" := bd]>
               (<["systems" := sy]> (<["regions" := rg]> (<["species" := sp]> d))))
    ∧ Normalize.insert_systems d = inr (<["systems" := sy0]> d)
    ∧ first_writer_wins ["english_name"] ["english_name"]
        (arrange (selection "english_name" ["english_name"] ce)) sp
    ∧ first_writer_wins ["name"] ["name"]
        (arrange (selection "region_name" ["region_name"] ce)) rg
    ∧ first_writer_wins ["name"] ["name"; "x"; "y"; "z"; "region_id"]
        (arrange (located rg ce)) sy
    ∧ first_writer_wins ["name"] ["name"; "x"; "y"; "z"]
        (arrange (selection "system" ["system"; "x"; "y"; "z"] ce)) sy0
    ∧ first_writer_wins ["name"; "system_id"] ["name"; "system_id"]
        (arrange (housed sy ce)) bd
    ∧ ∀ n,
        (occurs "system" n ce →
         ∃ s r, filter (λ s, s !! "name" = Some n) (rows sy) = [s]
                ∧ r ∈ rows ce ∧ r !! "system" = Some n
                ∧ s !! "x" = r !! "x" ∧ s !! "y" = r !! "y" ∧ s !! "z" = r !! "z")
        ∧ (¬ occurs "system" n ce →
           filter (λ s, s !! "name" = Some n) (rows sy) = []).
Proof.
  intros Hce Hcols Hsp Hrg Hsy Hbd.
  rewrite Forall_forall in Hcols.
  assert (Hin : ∀ cs, Forall (λ c, c ∈ ["english_name"; "region_name"; "system";
                                       "x"; "y"; "z"; "body"]) cs →
                      Forall (λ c, c ∈ cols ce) cs).
  { intros cs H. eapply Forall_impl; [exact H|]. intros c. apply Hcols. }
  pose (sp := filled ["english_name"] ["english_name"]
                (Normalize.species_data ce) Normalize.species_table).
  pose (rg := filled ["name"] ["name"] (Normalize.region_data ce)
                Normalize.regions_table).
  pose (sy := filled ["name"] ["name"; "x"; "y"; "z"; "region_id"]
                (Normalize.system_data_with_region ce rg) Normalize.systems_table).
  pose (bd := filled ["name"; "system_id"] ["name"; "system_id"]
                (Normalize.body_data ce sy) Normalize.bodies_table).
  pose (sy0 := filled ["name"] ["name"; "x"; "y"; "z"]
                 (Normalize.system_data ce) Normalize.systems_table).
  destruct (insert_species_ok d ce) as (Esp & _ & _ & Wsp); try done.
  { apply Hcols. by apply (bool_decide_unpack _). }
  destruct (insert_regions_ok (<["species" := sp]> d) ce) as (Erg & _ & _ & Wrg);
    try (by rewrite lookup_insert_ne).
  { apply Hcols. by apply (bool_decide_unpack _). }
  destruct (insert_systems_with_region_ok
              (<["regions" := rg]> (<["species" := sp]> d)) ce rg)
    as (Esy & _ & _ & Wsy);
    try (by rewrite ?lookup_insert_eq, ?lookup_insert_ne).
  { apply Hin. repeat constructor; by apply (bool_decide_unpack _). }
  destruct (insert_bodies_ok
              (<["systems" := sy]> (<["regions" := rg]> (<["species" := sp]> d))) ce sy)
    as (Ebd & _ & _ & Wbd);
    try (by rewrite ?lookup_insert_eq, ?lookup_insert_ne).
  { apply Hin. repeat constructor; by apply (bool_decide_unpack _). }
  destruct (insert_systems_ok d ce) as (Esy0 & _ & _ & Wsy0); try done.
  { apply Hin. repeat constructor; by apply (bool_decide_unpack _). }
  assert (Urg : unique_on ["name"] rg) by (by eapply first_writer_wins_unique).
  assert (Usy : unique_on ["name"] sy) by (by eapply first_writer_wins_unique).
  assert (Wsy' : first_writer_wins ["name"] ["name"; "x"; "y"; "z"; "region_id"]
                   (arrange (located rg ce)) sy).
  { apply first_writer_wins_select.
    by rewrite <- (system_data_with_region_located _ _ Urg). }
  exists sp, rg, sy, bd, sy0. split_and!; try done.
  - apply first_writer_wins_select. by rewrite <- species_data_selection.
  - apply first_writer_wins_select. by rewrite <- region_data_selection.
  - apply first_writer_wins_select. by rewrite <- system_data_selection.
  - apply first_writer_wins_select. by rewrite <- (body_data_housed _ _ Usy).
  - intros n. by apply (one_system_row ce rg).
Qed.

Section NaturalKeyUniquenessWitness.

#[local] Existing Instance contrary.

Lemma natural_key_uniqueness_witness :
  ∃ sp rg sy bd sy0,
    Normalize.insert_species twins_db = inr (<["species" := sp]> twins_db)
    ∧ Normalize.insert_regions (<["species" := sp]> twins_db)
      = inr (<["regions" := rg]> (<["species" := sp]> twins_db))
    ∧ Normalize.insert_systems_with_region
        (<["regions" := rg]> (<["species" := sp]> twins_db))
      = inr (<["systems" := sy]> (<["regions" := rg]> (<["species" := sp]> twins_db)))
    ∧ Normalize.insert_bodies
        (<["systems" := sy]> (<["regions" := rg]> (<["species" := sp]> twins_db)))
      = inr (<["bodies" := bd]>
               (<["systems" := sy]> (<["regions" := rg]> (<["species" := sp]> twins_db))))
    ∧ Normalize.insert_systems twins_db = inr (<["systems" := sy0]> twins_db)
    ∧ first_writer_wins ["english_name"] ["english_name"]
        (arrange (selection "english_name" ["english_name"] (flat_of twins_db))) sp
    ∧ first_writer_wins ["name"] ["name"]
        (arrange (selection "region_name" ["region_name"] (flat_of twins_db))) rg
    ∧ first_writer_wins ["name"] ["name"; "x"; "y"; "z"; "region_id"]
        (arrange (located rg (flat_of twins_db))) sy
    ∧ first_writer_wins ["name"] ["name"; "x"; "y"; "z"]
        (arrange (selection "system" ["system"; "x"; "y"; "z"] (flat_of twins_db))) sy0
    ∧ first_writer_wins ["name"; "system_id"] ["name"; "system_id"]
        (arrange (housed sy (flat_of twins_db))) bd
    ∧ ∀ n,
        (occurs "system" n (flat_of twins_db) →
         ∃ s r, filter (λ s, s !! "name" = Some n) (rows sy) = [s]
                ∧ r ∈ rows (flat_of twins_db) ∧ r !! "system" = Some n
                ∧ s !! "x" = r !! "x" ∧ s !! "y" = r !! "y" ∧ s !! "z" = r !! "z")
        ∧ (¬ occurs "system" n (flat_of twins_db) →
           filter (λ s, s !! "name" = Some n) (rows sy) = []).
Proof.
  apply (natural_key_uniqueness twins_db (flat_of twins_db)).
  - vm_compute. reflexivity.
  - repeat constructor; apply (bool_decide_unpack _); vm_compute; exact I.
  - vm_compute. reflexivity.
  - vm_compute. reflexivity.
  - vm_compute. reflexivity.
  - vm_compute. reflexivity.
Defined.

End NaturalKeyUniquenessWitness.

Section TwinsInOrder.

#[local] Existing Instance plain.

(** Delivered in the order of the flat table, the one row of [Sol] has the
    coordinates of the first flat row. *)
Example twins_in_order :
  let d := db (Normalize.main no_fault (Load.main no_fault twins fresh).2).2 in
  (λ t, (λ s, (s !! "name", s !! "x")) <$> rows t) <$> d !! "systems"
  = Some [(Some (JStr "Sol"), Some (JNum (Finite (3 # 2))))].
Proof. vm_compute. reflexivity. Qed.

End TwinsInOrder.

Section TwinsInReverse.

#[local] Existing Instance contrary.

(** Delivered in the opposite order, it has those of the second. *)
Example twins_in_reverse :
  let d := db (Normalize.main no_fault (Load.main no_fault twins fresh).2).2 in
  (λ t, (λ s, (s !! "name", s !! "x")) <$> rows t) <$> d !! "systems"
  = Some [(Some (JStr "Sol"), Some (JNum (Finite (5 # 2))))].
Proof. vm_compute. reflexivity. Qed.

End TwinsInReverse.


(** * Conditional backfill *)

Section Legacy.

Context {env : environment}.

Lemma selection_prepared c cs t :
  c ∉ reference_columns → Forall (λ c, c ∉ reference_columns) cs →
  selection c cs (prepared t) = selection c cs t.
Proof.
  intros Hc Hcs. unfold selection. cbn [rows prepared].
  induction (rows t) as [|r l IH]; [done|].
  cbn [fmap list_fmap]. rewrite !filter_cons, erase_keeps by done.
  destruct (decide (is_Some (r !! c))); [|done].
  cbn [fmap list_fmap]. f_equal; [|done].
  apply list_fmap_ext. intros j k Hk. apply erase_keeps.
  rewrite Forall_forall in Hcs. apply Hcs. by eapply list_elem_of_lookup_2.
Qed.

Lemma housed_prepared sy t : housed sy (prepared t) = housed sy t.
Proof.
  unfold housed. cbn [rows prepared].
  induction (rows t) as [|r l IH]; [done|].
  cbn [fmap list_fmap omap list_omap]. rewrite IH.
  by rewrite !erase_keeps by (by apply (bool_decide_unpack _)).
Qed.

End Legacy.

(** C5 — conditional backfill.  Take a flat table [t] without the
    [region_name] column, in which [x], [y], [z] and [body] are there
    whenever [system] is, and no failing statement.  Then the normalizer's
    [main] returns without an error; the regions table is left as created,
    without a row, and the run says that it skips the regions; the species,
    systems and bodies tables are filled by conflict-skip, in the order of
    delivery, from what the flat rows hold (the names; the system names with
    their coordinates; the bodies with the row of their system), each one
    when the legacy column it reads ([english_name], [system]) is there, and
    left as created when it is not; and every flat row gets the references
    the lookups give for the legacy columns found, a null reference for a
    legacy column that is absent, and keeps its other cells. *)
Theorem conditional_backfill {env : environment} (fault : nat → option error) (w : world) (t : table) :
  (∀ n, fault n = None) →
  db w !! "codex_entries" = Some t →
  "region_name" ∉ cols t →
  ("system" ∈ cols t → Forall (λ c, c ∈ cols t) ["x"; "y"; "z"; "body"]) →
  ∃ sp sy bd ce,
    (Normalize.main fault w).1 = Return tt
    ∧ db (Normalize.main fault w).2 !! "species" = Some sp
    ∧ db (Normalize.main fault w).2 !! "regions" = Some Normalize.regions_table
    ∧ db (Normalize.main fault w).2 !! "systems" = Some sy
    ∧ db (Normalize.main fault w).2 !! "bodies" = Some bd
    ∧ db (Normalize.main fault w).2 !! "codex_entries" = Some ce
    ∧ ConsoleLog "Skipping regions normalization - region_name column not found"
      ∈ trace (Normalize.main fault w).2
    ∧ populated (bool_decide ("english_name" ∈ cols t))
        ["english_name"] ["english_name"]
        (arrange (selection "english_name" ["english_name"] t))
        Normalize.species_table sp
    ∧ populated (bool_decide ("system" ∈ cols t))
        ["name"] ["name"; "x"; "y"; "z"]
        (arrange (selection "system" ["system"; "x"; "y"; "z"] t))
        Normalize.systems_table sy
    ∧ populated (bool_decide ("system" ∈ cols t))
        ["name"; "system_id"] ["name"; "system_id"]
        (arrange (housed sy t)) Normalize.bodies_table bd
    ∧ Forall2 (references (bool_decide ("english_name" ∈ cols t))
                          (bool_decide ("system" ∈ cols t)) sp sy bd)
              (rows t) (rows ce).
Proof.
  intros NF Ht HR Hcols.
  destruct (normalize_db_spec (db w) t Ht)
    as (d' & N & Hce & Hsp & Hrg & Hsy & Hbd & Psp & Psy & Pbd); [done..|].
  destruct (main_run fault NF w d' N) as (R & D & L).
  exists (species_of t), (systems_of t), (bodies_of t), (flat_after t).
  rewrite D. rewrite (bool_decide_eq_false_2 _ HR) in Psy.
  unfold populated in *.
  split_and!; try done.
  - rewrite Hrg. unfold regions_of. by rewrite bool_decide_eq_false_2.
  - by apply (L t).
  - destruct (bool_decide ("english_name" ∈ cols t)); [|done].
    apply first_writer_wins_select.
    rewrite <- (selection_prepared _ _ t) by (by apply (bool_decide_unpack _)).
    by rewrite <- species_data_selection.
  - destruct (bool_decide ("system" ∈ cols t)); [|done].
    apply first_writer_wins_select.
    rewrite <- (selection_prepared _ _ t) by (by apply (bool_decide_unpack _)).
    by rewrite <- system_data_selection.
  - destruct (bool_decide ("system" ∈ cols t)); [|done].
    apply first_writer_wins_select. rewrite <- (housed_prepared _ t).
    rewrite <- body_data_housed; [done|]. by eapply first_writer_wins_unique.
  - apply flat_after_rows.
Qed.

Section ConditionalBackfillWitness.

#[local] Existing Instance contrary.

Lemma conditional_backfill_witness :
  ∃ sp sy bd ce,
    (Normalize.main no_fault regionless).1 = Return tt
    ∧ db (Normalize.main no_fault regionless).2 !! "species" = Some sp
    ∧ db (Normalize.main no_fault regionless).2 !! "regions"
      = Some Normalize.regions_table
    ∧ db (Normalize.main no_fault regionless).2 !! "systems" = Some sy
    ∧ db (Normalize.main no_fault regionless).2 !! "bodies" = Some bd
    ∧ db (Normalize.main no_fault regionless).2 !! "codex_entries" = Some ce
    ∧ ConsoleLog "Skipping regions normalization - region_name column not found"
      ∈ trace (Normalize.main no_fault regionless).2
    ∧ populated (bool_decide ("english_name" ∈ cols regionless_flat))
        ["english_name"] ["english_name"]
        (arrange (selection "english_name" ["english_name"] regionless_flat))
        Normalize.species_table sp
    ∧ populated (bool_decide ("system" ∈ cols regionless_flat))
        ["name"] ["name"; "x"; "y"; "z"]
        (arrange (selection "system" ["system"; "x"; "y"; "z"] regionless_flat))
        Normalize.systems_table sy
    ∧ populated (bool_decide ("system" ∈ cols regionless_flat))
        ["name"; "system_id"] ["name"; "system_id"]
        (arrange (housed sy regionless_flat)) Normalize.bodies_table bd
    ∧ Forall2 (references (bool_decide ("english_name" ∈ cols regionless_flat))
                          (bool_decide ("system" ∈ cols regionless_flat)) sp sy bd)
              (rows regionless_flat) (rows ce).
Proof.
  apply (conditional_backfill no_fault regionless regionless_flat).
  - reflexivity.
  - reflexivity.
  - apply (bool_decide_unpack _). vm_compute. exact I.
  - intros _. apply (bool_decide_unpack _). vm_compute. exact I.
Defined.

End ConditionalBackfillWitness.

Section BackfillFailsWithoutBody.

#[local] Existing Instance plain.

(** C5, as stated, fails on a flat table that lacks [region_name] and
    [body] and has [system]: the column probe does not cover [body], the
    statement that fills the bodies reads it, and the run ends with the
    error logged and exit status 1. *)
Lemma backfill_fails_without_body :
  ("region_name" ∉ cols bodyless_flat)
  ∧ "system" ∈ cols bodyless_flat
  ∧ ("body" ∉ cols bodyless_flat)
  ∧ (Normalize.main no_fault bodyless).1 = Exited 1
  ∧ ConsoleError "Error normalizing data:" (DatabaseError "column does not exist")
    ∈ trace (Normalize.main no_fault bodyless).2
  ∧ (ConsoleLog "Database normalization completed successfully"
     ∉ trace (Normalize.main no_fault bodyless).2).
Proof.
  split_and!; try (apply (bool_decide_unpack _); by vm_compute).
  by vm_compute.
Qed.

End BackfillFailsWithoutBody.

Section RegionlessRun.

#[local] Existing Instance plain.

(** The run on [regionless]: one system, two bodies, both flat rows
    referring to them, no region. *)
Example regionless_run :
  (Normalize.main no_fault regionless).1 = Return tt
  ∧ (length ∘ rows) <$> db (Normalize.main no_fault regionless).2 !! "regions" = Some 0%nat
  ∧ (length ∘ rows) <$> db (Normalize.main no_fault regionless).2 !! "systems" = Some 1%nat
  ∧ (length ∘ rows) <$> db (Normalize.main no_fault regionless).2 !! "bodies" = Some 2%nat
  ∧ (λ r, (r !! "species_id", r !! "system_id", r !! "body_id"))
    <$> table_rows (db (Normalize.main no_fault regionless).2)
    = [(Some (num 1), Some (num 1), Some (num 1));
       (Some (num 2), Some (num 1), Some (num 2))].
Proof. vm_compute. by split_and!. Qed.

End RegionlessRun.


(** * Running the normalizer again *)

Section Rerun.

Context {env : environment}.

Lemma filled_schema key cs tuples t0 :
  schema (filled key cs tuples t0) = schema t0.
Proof.
  unfold filled. destruct (insert_select key cs tuples t0) as [e|t'] eqn:E; [done|].
  apply insert_select_shape in E as (Hc & Hn & Hu & _).
  unfold schema. by rewrite Hc, Hn, Hu.
Qed.

Lemma species_of_schema t : schema (species_of t) = schema Normalize.species_table.
Proof. unfold species_of. case_bool_decide; [apply filled_schema|done]. Qed.




Lemma filter_id {A} (P : A → Prop) `{∀ x, Decision (P x)} (l : list A) :
  Forall P l → filter P l = l.
Proof.
  induction 1 as [|x l Hx _ IH]; [done|]. by rewrite filter_cons_True, IH.
Qed.











Lemma flat_after_rows_eq t :
  rows (flat_after t)
  = (λ r, erase Normalize.dropped_columns
            (backfilled (bool_decide ("english_name" ∈ cols t))
                        (bool_decide ("system" ∈ cols t))
                        (species_of t) (systems_of t) (bodies_of t)
                        (erase reference_columns r)))
    <$> rows t.
Proof.
  unfold flat_after, prepared. cbn [rows]. by rewrite <- !list_fmap_compose.
Qed.


End Rerun.

Section SecondRunLosesSystems.

#[local] Existing Instance plain.


End SecondRunLosesSystems.


Section SecondRunWitness.

#[local] Existing Instance plain.


End SecondRunWitness.


(** * The entry points *)

Section Traces.

Context {env : environment}.

Variable fault : nat → option error.

Lemma stays_open_ret {A} (a : A) : stays_open (mret a : M A).
Proof. intros w. exists []. by rewrite app_nil_r. Qed.

Lemma stays_open_throw {A} e : stays_open (throw e : M A).
Proof. intros w. exists []. by rewrite app_nil_r. Qed.

Lemma stays_open_emit ev w :
  working ev → ∃ evs, trace (emit ev w) = trace w ++ evs ∧ Forall working evs.
Proof. intros H. exists [ev]. split; [done|]. by constructor. Qed.

Lemma stays_open_console_log line : stays_open (console_log line).
Proof. intros w. by apply stays_open_emit. Qed.

Lemma stays_open_console_error ctx e : stays_open (console_error ctx e).
Proof. intros w. by apply stays_open_emit. Qed.

Lemma stays_open_pool_query stmt : stays_open (pool_query fault stmt).
Proof.
  intros w. exists []. rewrite app_nil_r. split; [|done].
  unfold pool_query. destruct (fault (queries w)); [done|]. by destruct (stmt (db w)).
Qed.

Lemma stays_open_pool_select {A} (q : gmap string table → error + A) :
  stays_open (pool_select fault q).
Proof.
  intros w. exists []. rewrite app_nil_r. split; [|done].
  unfold pool_select. destruct (fault (queries w)); [done|]. by destruct (q (db w)).
Qed.

Lemma stays_open_bind {A B} (m : M A) (k : A → M B) :
  stays_open m → (∀ a, stays_open (k a)) → stays_open (m ≫= k).
Proof.
  intros Hm Hk w. destruct (Hm w) as (evs & T & F).
  unfold mbind, M_bind. destruct (m w) as [[a|e|c] w1]; cbn [snd] in *.
  - destruct (Hk a w1) as (evs' & T' & F').
    exists (evs ++ evs'). rewrite T', T, app_assoc. split; [done|].
    by apply Forall_app.
  - by exists evs.
  - by exists evs.
Qed.

Lemma stays_open_try_catch {A} (body : M A) handler :
  stays_open body → (∀ e, stays_open (handler e)) →
  stays_open (try_catch body handler).
Proof.
  intros Hb Hh w. destruct (Hb w) as (evs & T & F).
  unfold try_catch. destruct (body w) as [[a|e|c] w1]; cbn [snd] in *.
  - by exists evs.
  - destruct (Hh e w1) as (evs' & T' & F').
    exists (evs ++ evs'). rewrite T', T, app_assoc. split; [done|].
    by apply Forall_app.
  - by exists evs.
Qed.

Lemma stays_open_insert_item item : stays_open (Load.insert_item fault item).
Proof.
  intros w. unfold Load.insert_item.
  destruct (stays_open_pool_query (Load.insert_codex_entry item) w) as (evs & T & F).
  destruct (pool_query fault (Load.insert_codex_entry item) w) as [[a|e|c] w1];
    cbn [snd] in *.
  - exists (evs ++ [Inserted item]). cbn. rewrite T, app_assoc. split; [done|].
    apply Forall_app. split; [done|]. by repeat constructor.
  - exists (evs ++ [InsertFailed item e]). cbn. rewrite T, app_assoc. split; [done|].
    apply Forall_app. split; [done|]. by repeat constructor.
  - by exists evs.
Qed.

Lemma stays_open_flush items : stays_open (Load.flush fault items).
Proof.
  induction items as [|item items IH]; cbn [Load.flush].
  - apply stays_open_ret.
  - apply stays_open_bind; [apply stays_open_insert_item|done].
Qed.

Lemma continues_refl w : continues w w.
Proof. exists []. by rewrite app_nil_r. Qed.

Lemma continues_trans w1 w2 w3 : continues w1 w2 → continues w2 w3 → continues w1 w3.
Proof.
  intros (evs & T & F) (evs' & T' & F'). exists (evs ++ evs').
  rewrite T', T, app_assoc. split; [done|]. by apply Forall_app.
Qed.

Lemma continues_emit ev w : working ev → continues w (emit ev w).
Proof. by apply stays_open_emit. Qed.

Lemma progress_open s w : continues w (Load.progress s w).
Proof.
  unfold Load.progress. destruct (_ =? _)%nat.
  - by apply continues_emit.
  - apply continues_refl.
Qed.

Lemma resume_returns_open s w : continues w (Load.resume_returns s w).2.
Proof.
  unfold Load.resume_returns. destruct (Load.resuming s).
  - apply progress_open.
  - apply continues_refl.
Qed.

Lemma buffer_checked_open s w : continues w (Load.buffer_checked s w).2.
Proof.
  unfold Load.buffer_checked. destruct (Load.resuming s) as [[|n]|];
    try apply continues_refl. apply resume_returns_open.
Qed.

Lemma on_data_open entry s w : continues w (Load.on_data fault entry s w).2.
Proof.
  unfold Load.on_data. destruct (negb _); [apply continues_refl|].
  destruct (Load.row_throws entry).
  { eapply continues_trans; [|apply resume_returns_open].
    apply continues_emit. by repeat constructor. }
  cbv zeta. destruct (_ <=? _)%nat; [|apply progress_open].
  match goal with
  | |- context [Load.resume_returns ?s1 ?w1] =>
      pose proof (resume_returns_open s1 w1) as H1;
      destruct (Load.resume_returns s1 w1) as [s2 w2]
  end.
  cbn [snd] in H1.
  assert (H0 : continues w w2).
  { eapply continues_trans; [|exact H1]. apply continues_emit. by repeat constructor. }
  pose proof (stays_open_flush (Load.batch s2) w2) as H2.
  destruct (Load.flush fault (Load.batch s2) w2) as [[a|e|c] w3]; cbn [snd] in *.
  - eapply continues_trans; [exact H0|]. eapply continues_trans; [exact H2|].
    apply continues_emit. by repeat constructor.
  - eapply continues_trans; [exact H0|]. eapply continues_trans; [exact H2|].
    apply continues_emit. by repeat constructor.
  - by eapply continues_trans.
Qed.

Lemma on_end_open s w : continues w (Load.on_end fault s w).2.
Proof.
  unfold Load.on_end. destruct (Load.batch s) as [|item items] eqn:Hb.
  - eapply continues_trans; [|apply resume_returns_open].
    apply continues_emit. by repeat constructor.
  - pose proof (resume_returns_open s w) as H1.
    destruct (Load.resume_returns s w) as [s1 w1]. cbn [snd] in H1.
    pose proof (stays_open_flush (Load.batch s1) w1) as H2.
    destruct (Load.flush fault (Load.batch s1) w1) as [[a|e|c] w2]; cbn [snd] in *.
    + eapply continues_trans; [exact H1|]. eapply continues_trans; [exact H2|].
      apply continues_emit. by repeat constructor.
    + by eapply continues_trans.
    + by eapply continues_trans.
Qed.

Lemma drain_open buffer s w : continues w (Load.drain fault buffer s w).2.
Proof.
  revert s w. induction buffer as [|v rest IH]; intros s w; cbn [Load.drain].
  - destruct (_ || _); [apply continues_refl|apply on_end_open].
  - destruct (_ || _); [apply continues_refl|].
    pose proof (on_data_open v (Load.handed_out s) w) as H1.
    destruct (Load.on_data fault v (Load.handed_out s) w) as [s1 w1]. cbn [snd] in H1.
    pose proof (buffer_checked_open s1 w1) as H2.
    destruct (Load.buffer_checked s1 w1) as [s2 w2]. cbn [snd] in H2.
    eapply continues_trans; [exact H1|]. eapply continues_trans; [exact H2|]. apply IH.
Qed.

Lemma stays_open_insertData doc : stays_open (Load.insertData fault doc).
Proof.
  intros w. unfold Load.insertData, Load.run_stream.
  destruct (drain_open (Load.stream_values doc)
              (Load.Loader 0 [] false false Load.Pending None) w) as (evs & T & F).
  destruct (Load.drain fault _ _ w) as [s1 w1]. cbn [snd] in *.
  exists evs. by destruct (Load.promise s1).
Qed.

Lemma stays_open_createTable : stays_open (Load.createTable fault).
Proof.
  unfold Load.createTable.
  apply stays_open_try_catch; [|intros e];
    (apply stays_open_bind; [|intros _]);
    auto using stays_open_pool_query, stays_open_console_log,
               stays_open_console_error, stays_open_throw.
Qed.

End Traces.

(** X1.  The loader's [main] never rejects and never leaves the process:
    whatever fails, in [createTable] or in any insert, it logs either the
    completion or the error, and then ends the pool, once, as its last effect. *)
Theorem load_main_ends_pool {env : environment} (fault : nat → option error) (doc : list jsval)
    (w : world) :
  (Load.main fault doc w).1 = Return tt
  ∧ ∃ evs final,
      trace (Load.main fault doc w).2 = trace w ++ evs ++ [final; PoolEnd]
      ∧ Forall working evs
      ∧ (final = ConsoleLog "Data insertion completed successfully"
         ∨ ∃ e, final = ConsoleError "Error in main process:" e).
Proof.
  split; [apply load_main_returns|].
  unfold Load.main, try_finally, try_catch, mbind, M_bind.
  destruct (stays_open_createTable fault w) as (evs1 & T1 & F1).
  destruct (createTable_settles fault w) as [R1|[e R1]].
  - destruct (Load.createTable fault w) as [o1 w1]. cbn [fst snd] in *. subst o1.
    destruct (stays_open_insertData fault doc w1) as (evs2 & T2 & F2).
    destruct (insertData_settles fault doc w1) as [R2|[e R2]].
    + destruct (Load.insertData fault doc w1) as [o2 w2]. cbn [fst snd] in *. subst o2.
      cbn. exists (evs1 ++ evs2), (ConsoleLog "Data insertion completed successfully").
      rewrite T2, T1, <- !app_assoc. split_and!; [done| |by left].
      by apply Forall_app.
    + destruct (Load.insertData fault doc w1) as [o2 w2]. cbn [fst snd] in *. subst o2.
      cbn. exists (evs1 ++ evs2), (ConsoleError "Error in main process:" e).
      rewrite T2, T1, <- !app_assoc. split_and!; [done| |right; by exists e].
      by apply Forall_app.
  - destruct (Load.createTable fault w) as [o1 w1]. cbn [fst snd] in *. subst o1.
    cbn. exists evs1, (ConsoleError "Error in main process:" e).
    rewrite T1, <- !app_assoc. split_and!; [done|done|right; by exists e].
Qed.


Section Stages.

Context {env : environment}.

Variable fault : nat → option error.

(** A stage of the normalizer: [try { body } catch (err) {
    console.error(ctx, err); throw err; }]. *)
Lemma stage_logs (body : M unit) ctx :
  stays_open body → never_exits body →
  logs_failure ctx (try_catch body (λ err, console_error ctx err;; throw err)).
Proof.
  intros Ho Hn w. destruct (Ho w) as (evs & T & F). specialize (Hn w).
  exists evs. split; [done|]. unfold try_catch.
  destruct (body w) as [[[]|e|c] w1]; cbn [fst snd] in *.
  - by left.
  - right. exists e. unfold mbind, M_bind, console_error, throw.
    cbn [fst snd emit trace db]. by rewrite T, <- app_assoc.
  - by destruct (Hn c).
Qed.

Ltac open_structure :=
  cbv zeta;
  repeat first
    [ apply stays_open_ret
    | apply stays_open_throw
    | apply stays_open_console_log
    | apply stays_open_console_error
    | apply stays_open_pool_select
    | apply stays_open_pool_query
    | apply never_exits_ret
    | apply never_exits_throw
    | apply never_exits_console_log
    | apply never_exits_console_error
    | apply never_exits_pool_select
    | apply never_exits_pool_query
    | match goal with
      | |- stays_open (if ?b then _ else _) => destruct b
      | |- stays_open (mbind _ _) => apply stays_open_bind; [|intros ?]
      | |- never_exits (if ?b then _ else _) => destruct b
      | |- never_exits (mbind _ _) => apply never_exits_bind; [|intros ?]
      end ].

Lemma createNormalizedTables_logs :
  logs_failure "Error creating normalized tables:"
    (Normalize.createNormalizedTables fault).
Proof. apply stage_logs; open_structure. Qed.

Lemma normalizeData_logs :
  logs_failure "Error normalizing data:" (Normalize.normalizeData fault).
Proof. apply stage_logs; open_structure. Qed.

Lemma cleanUpColumns_logs :
  logs_failure "Error cleaning up columns:" (Normalize.cleanUpColumns fault).
Proof. apply stage_logs; open_structure. Qed.

End Stages.

(** X2.  The normalizer's [main] has two ways to end, whatever fails. Either
    every stage returned: then it reports the completion and ends the pool, as
    its last two effects. Or a stage threw [e]: that stage has logged [e]
    under its own context, [main] logs it again and leaves with
    [process.exit(1)], and the pool is never ended, because the [finally]
    block is not reached. *)
Theorem normalize_main_ends {env : environment} (fault : nat → option error) (w : world) :
  ∃ evs,
    Forall working evs
    ∧ (((Normalize.main fault w).1 = Return tt
        ∧ trace (Normalize.main fault w).2
          = trace w ++ evs
            ++ [ConsoleLog "Database normalization completed successfully"; PoolEnd])
       ∨ ∃ e ctx,
           (Normalize.main fault w).1 = Exited 1
           ∧ ctx ∈ stage_contexts
           ∧ trace (Normalize.main fault w).2
             = trace w ++ evs
               ++ [ConsoleError ctx e; ConsoleError "Error in main:" e; ProcessExit 1]).
Proof.
  unfold Normalize.main, try_finally, try_catch, mbind, M_bind.
  destruct (createNormalizedTables_logs fault w) as (evs1 & F1 & [[R1 T1]|(e & R1 & T1)]);
    destruct (Normalize.createNormalizedTables fault w) as [o1 w1];
    cbn [fst snd] in *; subst o1.
  2:{ exists evs1. split; [done|]. right.
      exists e, "Error creating normalized tables:". cbn.
      rewrite T1, <- !app_assoc. split_and!; [done| |done].
      apply (bool_decide_unpack _). by vm_compute. }
  destruct (normalizeData_logs fault w1) as (evs2 & F2 & [[R2 T2]|(e & R2 & T2)]);
    destruct (Normalize.normalizeData fault w1) as [o2 w2];
    cbn [fst snd] in *; subst o2.
  2:{ exists (evs1 ++ evs2). split; [by apply Forall_app|]. right.
      exists e, "Error normalizing data:". cbn.
      rewrite T2, T1, <- !app_assoc. split_and!; [done| |done].
      apply (bool_decide_unpack _). by vm_compute. }
  destruct (cleanUpColumns_logs fault w2) as (evs3 & F3 & [[R3 T3]|(e & R3 & T3)]);
    destruct (Normalize.cleanUpColumns fault w2) as [o3 w3];
    cbn [fst snd] in *; subst o3.
  2:{ exists (evs1 ++ evs2 ++ evs3). split; [by rewrite !Forall_app|]. right.
      exists e, "Error cleaning up columns:". cbn.
      rewrite T3, T2, T1, <- !app_assoc. split_and!; [done| |done].
      apply (bool_decide_unpack _). by vm_compute. }
  exists (evs1 ++ evs2 ++ evs3). split; [by rewrite !Forall_app|]. left.
  cbn. by rewrite T3, T2, T1, <- !app_assoc.
Qed.


(** * Loading again, and loading after the normalizer *)

Section Reload.

Context {env : environment}.

Variable fault : nat → option error.
Hypothesis no_faults : ∀ n, fault n = None.

Lemma insert_item_returns item w :
  open_table (db w) →
  (Load.insert_item fault item w).1 = Return tt
  ∧ open_table (db (Load.insert_item fault item w).2).
Proof.
  intros (t & Ht & Hc). unfold Load.insert_item, pool_query, Load.insert_codex_entry.
  rewrite no_faults, Ht, Hc. cbn [fst snd db emit]. split; [done|].
  eexists. rewrite lookup_insert_eq. split; [done|]. exact Hc.
Qed.

Lemma flush_returns items w :
  open_table (db w) →
  (Load.flush fault items w).1 = Return tt
  ∧ open_table (db (Load.flush fault items w).2).
Proof.
  revert w. induction items as [|item items IH]; intros w Hw; cbn [Load.flush].
  - done.
  - destruct (insert_item_returns item w Hw) as [R Hw1].
    unfold mbind, M_bind.
    destruct (Load.insert_item fault item w) as [o w1]. cbn [fst snd] in *. subst o.
    by apply IH.
Qed.

Lemma on_data_continues entry s w :
  ready s → open_table (db w) →
  (Load.is_biology entry = true → Load.row_throws entry = false) →
  ready (Load.on_data fault entry s w).1
  ∧ open_table (db (Load.on_data fault entry s w).2).
Proof.
  intros (Hp & Hd & Hq & Hb) Hw Hconv. unfold Load.on_data.
  destruct (Load.is_biology entry); [|by split]. cbn [negb].
  rewrite Hconv by done. cbv zeta.
  destruct (_ <=? _)%nat eqn:E.
  - match goal with
    | |- context [Load.resume_returns ?s1 ?w1] =>
        destruct (resume_returns_spec s1 w1) as (evs & W2 & _ & Hsame & _);
        destruct (Load.resume_returns s1 w1) as [s2 w2]
    end.
    cbn [fst snd] in *. destruct Hsame as (_ & _ & _ & Hd2 & Hq2). cbn in Hd2, Hq2.
    destruct (flush_returns (Load.batch s2) w2) as [R Hw1]; [by rewrite W2|].
    destruct (Load.flush fault _ w2) as [o w1].
    cbn [fst snd] in *. subst o. cbn [fst snd]. split; [|done].
    split_and!; cbn; [done|congruence|congruence|apply batchSize_pos].
  - cbn [fst snd]. split.
    + split_and!; try done. cbn [Load.batch] in *. apply Nat.leb_gt in E. lia.
    + by rewrite progress_db.
Qed.

Lemma on_end_resolves s w :
  ready s → open_table (db w) →
  Load.promise (Load.on_end fault s w).1 = Load.Resolved.
Proof.
  intros (Hp & Hd & Hq & Hb) Hw. unfold Load.on_end.
  destruct (Load.batch s) as [|item items] eqn:Eb.
  - match goal with
    | |- context [Load.resume_returns ?s1 ?w1] =>
        destruct (resume_returns_spec s1 w1) as (evs & _ & _ & Hsame & _)
    end.
    destruct Hsame as (_ & _ & _ & _ & ->). unfold Load.settle. by rewrite Hq.
  - destruct (resume_returns_spec s w) as (evs & W1 & _ & Hsame & _).
    destruct (Load.resume_returns s w) as [s1 w1]. cbn [fst snd] in *.
    destruct Hsame as (_ & _ & _ & _ & Hq1).
    destruct (flush_returns (Load.batch s1) w1) as [R _]; [by rewrite W1|].
    destruct (Load.flush fault _ w1) as [o w2]. cbn [fst snd] in *. subst o.
    cbn [fst]. unfold Load.settle. by rewrite Hq1, Hq.
Qed.

Lemma drain_resolves buffer s w :
  ready s → open_table (db w) →
  Forall (λ entry, Load.is_biology entry = true → Load.row_throws entry = false)
         buffer →
  Load.promise (Load.drain fault buffer s w).1 = Load.Resolved.
Proof.
  revert s w. induction buffer as [|v rest IH]; intros s w Hs Hw Hconv;
    cbn [Load.drain];
    destruct Hs as (Hp & Hd & Hq & Hb) eqn:Es; rewrite Hp, Hd; cbn [orb].
  - apply on_end_resolves; [|done]. apply (ready_same s); [apply handed_out_same|done].
  - apply Forall_cons_1 in Hconv as [Hv Hconv].
    destruct (on_data_continues v (Load.handed_out s) w) as [Hs1 Hw1]; [|done..|].
    { apply (ready_same s); [apply handed_out_same|done]. }
    destruct (Load.on_data fault v (Load.handed_out s) w) as [s1 w1].
    cbn [fst snd] in *.
    destruct (buffer_checked_spec s1 w1) as (evs & W2 & _ & Hsame).
    destruct (Load.buffer_checked s1 w1) as [s2 w2]. cbn [fst snd] in *.
    apply IH; [by apply (ready_same s1)|by rewrite W2|done].
Qed.

Lemma insertData_returns doc w :
  open_table (db w) → convertible doc → (Load.insertData fault doc w).1 = Return tt.
Proof.
  intros Hw Hconv. destruct (insertData_outcome fault doc w) as [_ ->].
  unfold Load.run_stream. rewrite drain_resolves; [done| |done|].
  - apply ready_initial.
  - unfold Load.stream_values. apply Forall_forall. intros v Hv.
    apply list_elem_of_filter in Hv as [_ Hv].
    unfold convertible in Hconv. rewrite Forall_forall in Hconv. by apply Hconv.
Qed.

Lemma createTable_opens w :
  loadable (db w) →
  (Load.createTable fault w).1 = Return tt
  ∧ open_table (db (Load.createTable fault w).2)
  ∧ table_rows (db (Load.createTable fault w).2) = table_rows (db w)
  ∧ table_next (db (Load.createTable fault w).2) = table_next (db w).
Proof.
  intros Hl. unfold Load.createTable, try_catch, mbind, M_bind, pool_query,
    Load.create_codex_entries, table_rows, table_next.
  rewrite no_faults. destruct (db w !! "codex_entries") as [t|] eqn:Ht;
    cbn [fst snd db emit console_log].
  - rewrite Ht. split_and!; try done. exists t. split; [done|].
    apply forallb_forall. intros c Hc. apply bool_decide_eq_true.
    specialize (Hl t Ht). rewrite Forall_forall in Hl. apply Hl.
    by apply list_elem_of_In.
  - rewrite lookup_insert_eq. split_and!; try done. eexists.
    rewrite lookup_insert_eq. split; [done|]. by vm_compute.
Qed.

End Reload.

(** X3.  A load that no failure interrupts, into a database that has no flat
    table yet or one with the loader's columns, of a document every row of
    which can be built (no accepted record has, in a coordinate field, an
    object with a [toString] property of its own), completes and appends: the
    rows the table held stay as they are, and the row of every accepted record
    comes after them, numbered from the table's sequence. Nothing is compared
    with what is already stored, so that loading a document a second time
    stores its records a second time. *)
Theorem load_appends {env : environment} (fault : nat → option error) (doc : list jsval) (w : world) :
  (∀ n, fault n = None) →
  loadable (db w) →
  convertible doc →
  table_rows (db (Load.main fault doc w).2)
  = table_rows (db w)
    ++ stored_from (table_next (db w))
         (Load.to_row <$> filter (λ entry, field entry "hud_category" = JStr "Biology") doc)
  ∧ ∃ pre,
      trace (Load.main fault doc w).2
      = pre ++ [ConsoleLog "Data insertion completed successfully"; PoolEnd].
Proof.
  intros NF Hl Hconv. unfold Load.main, try_finally, try_catch, mbind, M_bind.
  destruct (createTable_opens fault NF w Hl) as (R1 & O1 & Rows1 & Next1).
  destruct (Load.createTable fault w) as [o1 w1]. cbn [fst snd] in *. subst o1.
  pose proof (insertData_returns fault NF doc w1 O1 Hconv) as R2.
  destruct (insertData_completed fault doc w1 R2) as (evs & _ & Rows2 & _).
  destruct (Load.insertData fault doc w1) as [o2 w2]. cbn [fst snd] in *. subst o2.
  cbn [fst snd db emit console_log pool_end trace].
  rewrite Rows2, Rows1, Next1, accepted_tagged. split; [done|].
  exists (trace w2). by rewrite <- app_assoc.
Qed.

Section LoadAppendsWitness.

#[local] Existing Instance plain.

Lemma load_appends_witness :
  table_rows (db (Load.main no_fault scenario loaded).2)
  = table_rows (db loaded)
    ++ stored_from (table_next (db loaded))
         (Load.to_row
          <$> filter (λ entry, field entry "hud_category" = JStr "Biology") scenario)
  ∧ ∃ pre,
      trace (Load.main no_fault scenario loaded).2
      = pre ++ [ConsoleLog "Data insertion completed successfully"; PoolEnd].
Proof.
  apply (load_appends no_fault scenario loaded).
  - reflexivity.
  - intros t Ht. apply (bool_decide_unpack _).
    assert (E : Some t = Some (flat_of (db loaded))) by (rewrite <- Ht; by vm_compute).
    injection E as ->. by vm_compute.
  - apply (bool_decide_unpack _). by vm_compute.
Defined.

End LoadAppendsWitness.


Section Unloadable.

Context {env : environment}.

Variable fault : nat → option error.
Variable d0 : gmap string table.
Variables (t : table) (c : string).
Hypothesis flat : d0 !! "codex_entries" = Some t.
Hypothesis named : c ∈ Load.insert_columns.
Hypothesis missing : c ∉ cols t.

Lemma insert_refused item : ∃ e, Load.insert_codex_entry item d0 = inl e.
Proof.
  unfold Load.insert_codex_entry. rewrite flat.
  destruct (forallb (has_column t) Load.insert_columns) eqn:E; [|by eexists].
  rewrite forallb_forall in E. apply list_elem_of_In, E in named.
  by apply bool_decide_eq_true in named.
Qed.

Lemma load_main_untouched doc : preserves (λ d, d = d0) (Load.main fault doc).
Proof.
  unfold Load.main. apply preserves_try_finally; [|apply preserves_pool_end].
  apply preserves_try_catch; [|intros e; apply preserves_console_error].
  apply preserves_bind; [|intros _; apply preserves_bind; [|intros _]].
  - unfold Load.createTable.
    apply preserves_try_catch;
      [|intros e; apply preserves_bind;
          [apply preserves_console_error|intros _; apply preserves_throw]].
    apply preserves_bind; [|intros _; apply preserves_console_log].
    apply preserves_pool_query. intros d d' -> H.
    unfold Load.create_codex_entries in H. rewrite flat in H. by injection H.
  - apply preserves_insertData. intros item d d' -> H.
    destruct (insert_refused item) as [e He]. by rewrite He in H.
  - apply preserves_console_log.
Qed.

End Unloadable.

(** X4.  The loader cannot write into a flat table that lacks one of the
    columns its [INSERT] names, as the table does once the normalizer has
    dropped [system], [x], [y], [z], [body], [name] and [region_name]: the
    database is left as it was, and when the document has a record to store,
    the failure of its insert is what [main] reports before it ends the pool. *)
Theorem load_refused {env : environment} (fault : nat → option error) (doc : list jsval) (w : world)
    (t : table) (c : string) :
  db w !! "codex_entries" = Some t →
  c ∈ Load.insert_columns →
  c ∉ cols t →
  db (Load.main fault doc w).2 = db w
  ∧ (filter (λ entry, field entry "hud_category" = JStr "Biology") doc ≠ [] →
     ∃ pre e,
       trace (Load.main fault doc w).2
       = pre ++ [ConsoleError "Error in main process:" e; PoolEnd]).
Proof.
  intros Ht Hc Hm. split.
  { by apply (load_main_untouched fault (db w) t c Ht Hc Hm doc w). }
  intros Hdoc. unfold Load.main, try_finally, try_catch, mbind, M_bind.
  assert (D1 : db (Load.createTable fault w).2 = db w).
  { unfold Load.createTable, try_catch, mbind, M_bind, pool_query,
      Load.create_codex_entries. rewrite Ht.
    by destruct (fault (queries w)). }
  pose proof (createTable_settles fault w) as S1.
  destruct (Load.createTable fault w) as [[[]|e|k] w1]; cbn [fst snd] in *.
  - pose proof (insertData_settles fault doc w1) as S2.
    pose proof (insertData_completed fault doc w1) as C.
    assert (D2 : db (Load.insertData fault doc w1).2 = db w1).
    { rewrite D1.
      apply (preserves_insertData fault (λ d, d = db w)); [|done].
      intros item d d' -> H.
      destruct (insert_refused (db w) t c Ht Hc Hm item) as [e He].
      by rewrite He in H. }
    destruct (Load.insertData fault doc w1) as [[[]|e|k] w2]; cbn [fst snd] in *.
    + destruct (C eq_refl) as (evs' & _ & Rows & _).
      rewrite D2 in Rows. apply (f_equal length) in Rows.
      rewrite length_app, stored_from_length, accepted_tagged, length_fmap in Rows.
      destruct (filter _ doc); [done|]. cbn in Rows. lia.
    + exists (trace w2), e. cbn. by rewrite <- app_assoc.
    + by destruct S2 as [?|[? ?]].
  - exists (trace w1), e. cbn. by rewrite <- app_assoc.
  - by destruct S1 as [?|[? ?]].
Qed.

Section LoadRefusedWitness.

#[local] Existing Instance plain.

Lemma load_refused_witness :
  db (Load.main no_fault scenario normalized).2 = db normalized
  ∧ (filter (λ entry, field entry "hud_category" = JStr "Biology") scenario ≠ [] →
     ∃ pre e,
       trace (Load.main no_fault scenario normalized).2
       = pre ++ [ConsoleError "Error in main process:" e; PoolEnd]).
Proof.
  apply (load_refused no_fault scenario normalized (flat_of (db normalized)) "system").
  - by vm_compute.
  - apply (bool_decide_unpack _). by vm_compute.
  - apply (bool_decide_unpack _). by vm_compute.
Defined.

End LoadRefusedWitness.


(** * What a stored row holds *)

Lemma copied_at (id : Z) (item : list jsval) (i : nat) (column : string) (v : jsval) :
  Load.insert_columns !! i = Some column →
  item !! i = Some v →
  stored id item !! column = cell v.
Proof.
  intros Hc Hv. unfold stored. rewrite lookup_insert_ne.
  - rewrite (param_row_lookup _ _ i); [|apply insert_columns_NoDup|done].
    by rewrite Hv.
  - intros <-. apply list_elem_of_lookup_2 in Hc. revert Hc.
    apply (bool_decide_unpack _). by vm_compute.
Qed.

(** X5.  The row stored for a record has the number it was given in [id]; in
    each column the loader copies, the property of that name as the record has
    it, or [NULL] when the record has no such property or has it [null] (the
    column [cmdrname] takes the property [cmdrName]); and no cell outside the
    columns of the table, so that [hud_category] itself is not stored. *)
Theorem stored_copies (id : Z) (entry : jsval) :
  stored id (Load.to_row entry) !! "id" = Some (num id)
  ∧ (∀ column property,
       (column, property) ∈ copied_fields →
       stored id (Load.to_row entry) !! column = cell (field entry property))
  ∧ (∀ column,
       is_Some (stored id (Load.to_row entry) !! column) →
       column ∈ Load.codex_columns).
Proof.
  split_and!.
  - unfold stored. by rewrite lookup_insert_eq.
  - intros column property H.
    assert (F : Forall (λ cp, stored id (Load.to_row entry) !! cp.1
                              = cell (field entry cp.2)) copied_fields).
    { repeat constructor; cbn [fst snd];
        first [ apply (copied_at _ _ 0); reflexivity
              | apply (copied_at _ _ 1); reflexivity
              | apply (copied_at _ _ 2); reflexivity
              | apply (copied_at _ _ 3); reflexivity
              | apply (copied_at _ _ 4); reflexivity
              | apply (copied_at _ _ 8); reflexivity
              | apply (copied_at _ _ 11); reflexivity
              | apply (copied_at _ _ 12); reflexivity
              | apply (copied_at _ _ 13); reflexivity
              | apply (copied_at _ _ 14); reflexivity
              | apply (copied_at _ _ 15); reflexivity
              | apply (copied_at _ _ 16); reflexivity
              | apply (copied_at _ _ 17); reflexivity ]. }
    rewrite Forall_forall in F. by apply (F (column, property)).
  - intros column [v H].
    destruct (decide (column ∈ Load.codex_columns)) as [|Hn]; [done|]. exfalso.
    assert (E : stored id (Load.to_row entry) !! column = None); [|by rewrite E in H].
    unfold stored. rewrite lookup_insert_ne.
    + apply tuple_row_notin. intros Hc. apply Hn. by right.
    + intros <-. apply Hn. by left.
Qed.


(** * Primary keys *)

Section Keys.

Context {env : environment}.

Variable fault : nat → option error.

Lemma keyed_empty c n u k : keyed (Table c n u k []).
Proof. split; constructor. Qed.

Lemma keyed_same t t' :
  ids t' = ids t → (next_id t ≤ next_id t')%Z → keyed t → keyed t'.
Proof.
  intros E Hn [Hd Hb]. unfold keyed. rewrite E. split; [done|].
  eapply Forall_impl; [done|]. intros v (i & -> & Hi). exists i. split; [done|lia].
Qed.

Lemma keyed_append t c n u r :
  keyed t →
  keyed (Table c n u (next_id t + 1) (rows t ++ [<["id" := num (next_id t)]> r])).
Proof.
  intros [Hd Hb]. unfold keyed, ids. cbn [rows next_id].
  rewrite fmap_app. cbn [fmap list_fmap]. rewrite lookup_insert_eq. split.
  - apply NoDup_app. split_and!; [done| |apply NoDup_singleton].
    intros v Hv ->%list_elem_of_singleton.
    rewrite Forall_forall in Hb. destruct (Hb _ Hv) as (i & E & Hi).
    injection E as E. lia.
  - apply Forall_app. split.
    + eapply Forall_impl; [done|]. intros v (i & -> & Hi). exists i. split; [done|lia].
    + repeat constructor. exists (next_id t). split; [done|lia].
Qed.

Lemma all_keyed_insert n t d :
  keyed t → all_keyed d → all_keyed (<[n := t]> d).
Proof.
  intros Ht Hd n' t'. destruct (decide (n = n')) as [->|Hne].
  - rewrite lookup_insert_eq. by intros [= <-].
  - rewrite lookup_insert_ne by done. apply Hd.
Qed.

Lemma all_keyed_delete n d : all_keyed d → all_keyed (delete n d).
Proof. intros Hd n' t' H. apply lookup_delete_Some in H as [_ H]. by eapply Hd. Qed.

Lemma ids_fmap f t c n u k :
  (∀ r, f r !! "id" = r !! "id") → ids (Table c n u k (f <$> rows t)) = ids t.
Proof.
  intros H. unfold ids. cbn [rows]. rewrite <- list_fmap_compose.
  apply list_fmap_ext. intros _ r _. apply H.
Qed.

Lemma keyed_drop_column c t :
  c ≠ "id" → keyed t → keyed (drop_column_if_exists c t).
Proof.
  intros Hc. apply keyed_same; [|done]. apply ids_fmap.
  intros r. by apply lookup_delete_ne.
Qed.

Lemma keyed_insert_do_nothing key t vals t' :
  keyed t → insert_do_nothing key t vals = inr t' → keyed t'.
Proof.
  intros Ht. unfold insert_do_nothing. cbv zeta.
  destruct (negb _); [done|]. destruct (negb _); [done|].
  destruct (existsb _ _); intros [= <-].
  - revert Ht. apply keyed_same; [done|]. cbn. lia.
  - by apply keyed_append.
Qed.

Lemma keyed_insert_select key cs tuples t t' :
  keyed t → insert_select key cs tuples t = inr t' → keyed t'.
Proof.
  unfold insert_select. rewrite bind_inr. intros Ht ([] & _ & Hfold).
  revert t Ht Hfold. induction tuples as [|u rest IH]; intros t Ht Hfold.
  - cbn in Hfold. by injection Hfold as <-.
  - cbn [foldl] in Hfold.
    change (t' ← inr t; insert_do_nothing key t' (tuple_row cs u))
      with (insert_do_nothing key t (tuple_row cs u)) in Hfold.
    destruct (insert_do_nothing key t (tuple_row cs u)) as [e|t1] eqn:E.
    { exfalso. clear -Hfold. induction rest; cbn in Hfold; [done|auto]. }
    apply (IH t1); [|done]. by eapply keyed_insert_do_nothing.
Qed.

Lemma update_row_id d ce parts r r' :
  Forall (λ p, target p ≠ "id") parts →
  update_row d ce parts r = inr r' → r' !! "id" = r !! "id".
Proof.
  intros Hp. revert r. induction Hp as [|p ps Hp _ IH]; intros r; cbn [update_row].
  - by intros [= <-].
  - rewrite bind_inr. intros (v & _ & E). rewrite (IH _ E).
    by rewrite lookup_assign, decide_False.
Qed.

Lemma update_rows_ids d parts conds rs rs' :
  Forall (λ p, target p ≠ "id") parts →
  update_rows d parts conds rs = inr rs' →
  (.!! "id") <$> rs' = (.!! "id") <$> rs.
Proof.
  intros Hp. revert rs'. induction rs as [|r rs IH]; intros rs'; cbn [update_rows].
  - by intros [= <-].
  - rewrite bind_inr. intros (r1 & E1 & E). rewrite bind_inr in E.
    destruct E as (rest & E2 & [= <-]). cbn [fmap list_fmap]. f_equal.
    + destruct (existsb _ _); [by eapply update_row_id|by injection E1 as <-].
    + by apply IH.
Qed.

(** The statements of the two scripts, one by one. *)

Lemma keyed_create_codex_entries d d' :
  all_keyed d → Load.create_codex_entries d = inr d' → all_keyed d'.
Proof.
  intros Hd. unfold Load.create_codex_entries.
  destruct (d !! "codex_entries"); intros [= <-]; [done|].
  apply all_keyed_insert; [apply keyed_empty|done].
Qed.

Lemma keyed_insert_codex_entry item d d' :
  all_keyed d → Load.insert_codex_entry item d = inr d' → all_keyed d'.
Proof.
  intros Hd. unfold Load.insert_codex_entry.
  destruct (d !! "codex_entries") as [t|] eqn:Ht; [|done].
  destruct (forallb _ _); intros [= <-].
  apply all_keyed_insert; [|done]. apply keyed_append. by eapply Hd.
Qed.

Lemma keyed_drop_normalized d d' :
  all_keyed d → Normalize.drop_normalized d = inr d' → all_keyed d'.
Proof.
  intros Hd [= <-]. do 4 apply all_keyed_delete.
  destruct (d !! "codex_entries") as [t|] eqn:Ht; [|done].
  apply all_keyed_insert; [|done].
  do 3 (apply keyed_drop_column; [done|]). by eapply Hd.
Qed.

Lemma keyed_create_normalized d d' :
  all_keyed d → Normalize.create_normalized d = inr d' → all_keyed d'.
Proof.
  intros Hd. unfold Normalize.create_normalized. intros E.
  apply bind_inr in E as (d1 & H1 & E). apply bind_inr in E as (d2 & H2 & E).
  apply bind_inr in E as (d3 & H3 & E). apply bind_inr in E as (d4 & H4 & E).
  apply bind_inr in E as (t & Ht & E). apply bind_inr in E as (t1 & Ht1 & E).
  apply bind_inr in E as (t2 & Ht2 & E). apply bind_inr in E as (t3 & Ht3 & E).
  injection E as <-.
  apply create_table_inr in H1 as [_ ->], H2 as [_ ->], H3 as [_ ->], H4 as [_ ->].
  apply relation_inr in Ht. rewrite !lookup_insert_ne in Ht by done.
  apply add_column_inr in Ht1 as [-> _], Ht2 as [-> _], Ht3 as [-> _].
  apply all_keyed_insert.
  { apply (keyed_same t); [done|cbn; lia|]. by eapply Hd. }
  repeat (apply all_keyed_insert; [apply keyed_empty|]). done.
Qed.

Lemma keyed_insert_into name key cs tuples d t d' :
  all_keyed d → d !! name = Some t →
  (t' ← insert_select key cs tuples t; inr (<[name := t']> d)) = inr d' →
  all_keyed d'.
Proof.
  intros Hd Ht. rewrite bind_inr. intros (t' & E & [= <-]).
  apply all_keyed_insert; [|done]. eapply keyed_insert_select; [|done]. by eapply Hd.
Qed.

Lemma keyed_insert_species d d' :
  all_keyed d → Normalize.insert_species d = inr d' → all_keyed d'.
Proof.
  intros Hd. unfold Normalize.insert_species. intros E.
  apply bind_inr in E as (ce & _ & E). apply bind_inr in E as (? & _ & E).
  apply bind_inr in E as (sp & Hsp%relation_inr & E).
  by eapply keyed_insert_into.
Qed.

Lemma keyed_insert_regions d d' :
  all_keyed d → Normalize.insert_regions d = inr d' → all_keyed d'.
Proof.
  intros Hd. unfold Normalize.insert_regions. intros E.
  apply bind_inr in E as (ce & _ & E). apply bind_inr in E as (? & _ & E).
  apply bind_inr in E as (rg & Hrg%relation_inr & E).
  by eapply keyed_insert_into.
Qed.

Lemma keyed_insert_regions_localised d d' :
  all_keyed d → Normalize.insert_regions_localised d = inr d' → all_keyed d'.
Proof.
  intros Hd. unfold Normalize.insert_regions_localised. intros E.
  apply bind_inr in E as (ce & _ & E). apply bind_inr in E as (? & _ & E).
  apply bind_inr in E as (rg & Hrg%relation_inr & E).
  by eapply keyed_insert_into.
Qed.

Lemma keyed_insert_systems d d' :
  all_keyed d → Normalize.insert_systems d = inr d' → all_keyed d'.
Proof.
  intros Hd. unfold Normalize.insert_systems. intros E.
  apply bind_inr in E as (ce & _ & E). apply bind_inr in E as (? & _ & E).
  apply bind_inr in E as (sy & Hsy%relation_inr & E).
  by eapply keyed_insert_into.
Qed.

Lemma keyed_insert_systems_with_region d d' :
  all_keyed d → Normalize.insert_systems_with_region d = inr d' → all_keyed d'.
Proof.
  intros Hd. unfold Normalize.insert_systems_with_region. intros E.
  apply bind_inr in E as (ce & _ & E). apply bind_inr in E as (? & _ & E).
  apply bind_inr in E as (rg & _ & E).
  apply bind_inr in E as (sy & Hsy%relation_inr & E).
  by eapply keyed_insert_into.
Qed.

Lemma keyed_insert_bodies d d' :
  all_keyed d → Normalize.insert_bodies d = inr d' → all_keyed d'.
Proof.
  intros Hd. unfold Normalize.insert_bodies. intros E.
  apply bind_inr in E as (ce & _ & E). apply bind_inr in E as (? & _ & E).
  apply bind_inr in E as (sy & _ & E).
  apply bind_inr in E as (bd & Hbd%relation_inr & E).
  by eapply keyed_insert_into.
Qed.

Lemma updateParts_targets chk :
  Forall (λ p, target p ≠ "id") (Normalize.updateParts chk).
Proof.
  unfold Normalize.updateParts.
  destruct (Normalize.has_english_name chk), (Normalize.has_system chk);
    by repeat constructor.
Qed.

Lemma keyed_update chk d d' :
  all_keyed d →
  update_codex_entries (Normalize.updateParts chk) (Normalize.whereConditions chk) d
  = inr d' →
  all_keyed d'.
Proof.
  intros Hd. unfold update_codex_entries. intros E.
  apply bind_inr in E as (t & Ht%relation_inr & E).
  apply bind_inr in E as (? & _ & E). apply bind_inr in E as (? & _ & E).
  apply bind_inr in E as (? & _ & E). apply bind_inr in E as (rs & Hrs & [= <-]).
  apply all_keyed_insert; [|done]. apply (keyed_same t); [|done|by eapply Hd].
  unfold ids. cbn [rows set_rows]. eapply update_rows_ids; [|done].
  apply updateParts_targets.
Qed.

Lemma keyed_drop_superseded d d' :
  all_keyed d → Normalize.drop_superseded d = inr d' → all_keyed d'.
Proof.
  intros Hd. unfold Normalize.drop_superseded. intros E.
  apply bind_inr in E as (t & Ht%relation_inr & [= <-]).
  apply all_keyed_insert; [|done].
  repeat (apply keyed_drop_column; [done|]). by eapply Hd.
Qed.

Lemma normalize_main_keyed : preserves all_keyed (Normalize.main fault).
Proof.
  unfold Normalize.main, Normalize.createNormalizedTables, Normalize.normalizeData,
    Normalize.cleanUpColumns.
  keeps_structure; intros d d' Hd E;
    eauto 2 using keyed_drop_normalized, keyed_create_normalized,
      keyed_insert_species, keyed_insert_regions, keyed_insert_regions_localised,
      keyed_insert_systems, keyed_insert_systems_with_region, keyed_insert_bodies,
      keyed_update, keyed_drop_superseded.
Qed.

Lemma load_main_keyed doc : preserves all_keyed (Load.main fault doc).
Proof.
  unfold Load.main, Load.createTable.
  keeps_structure; try (intros d d'; apply keyed_create_codex_entries).
  apply preserves_insertData. intros item d d'. apply keyed_insert_codex_entry.
Qed.

End Keys.

(** X7.  In every database the two scripts can produce from an empty one,
    whatever documents are loaded, however often either script runs and
    whatever fails on the way, every row of every table has a number of the
    table's sequence in [id], and no two rows of a table have the same. *)
Theorem primary_keys {env : environment} (w : world) :
  pipeline w → all_keyed (db w).
Proof.
  induction 1 as [|fault doc w _ IH|fault w _ IH].
  - intros n t H. unfold fresh in H. cbn [db] in H. by rewrite lookup_empty in H.
  - by apply load_main_keyed.
  - by apply normalize_main_keyed.
Qed.

Section PrimaryKeysWitness.

#[local] Existing Instance plain.

Lemma primary_keys_witness : all_keyed (db renormalized).
Proof.
  apply primary_keys.
  apply pipeline_normalize, pipeline_normalize, pipeline_load, pipeline_new.
Defined.

End PrimaryKeysWitness.


(** * Foreign keys *)

Section Lookups.

Context {env : environment}.

Lemma head_bind_Some {A B} (l : list A) (f : A → option B) y :
  head l ≫= f = Some y → ∃ x, x ∈ l ∧ f x = Some y.
Proof.
  destruct l as [|x l]; [done|]. cbn. intros H. exists x. split; [left|done].
Qed.

Lemma id_of_Some tb k v x :
  id_of tb k v = Some x →
  ∃ s, s ∈ rows tb ∧ is_Some v ∧ s !! k = v ∧ s !! "id" = Some x.
Proof.
  unfold id_of. intros (s & Hs & Hx)%head_bind_Some.
  apply list_elem_of_filter in Hs as [Hs Hin]. exists s.
  apply Is_true_true, sql_eq_true in Hs as (n & -> & ->). by split_and!.
Qed.

Lemma id_of_found tb k n s :
  s ∈ rows tb → s !! k = Some n →
  Forall (λ r, is_Some (r !! "id")) (rows tb) →
  is_Some (id_of tb k (Some n)).
Proof.
  intros Hin Hk Hid. unfold id_of.
  assert (Hf : s ∈ filter (λ s, Is_true (sql_eq (s !! k) (Some n))) (rows tb)).
  { apply list_elem_of_filter. split; [|done]. by apply Is_true_sql_eq. }
  destruct (filter _ (rows tb)) as [|s1 l] eqn:E; [by apply elem_of_nil in Hf|].
  cbn. rewrite Forall_forall in Hid. apply Hid.
  assert (H1 : s1 ∈ s1 :: l) by left. rewrite <- E in H1.
  by apply list_elem_of_filter in H1 as [_ ?].
Qed.

Lemma body_id_of_Some bd sy b n x :
  body_id_of bd sy b n = Some x →
  ∃ b1 s1,
    b1 ∈ rows bd ∧ s1 ∈ rows sy
    ∧ is_Some b ∧ b1 !! "name" = b
    ∧ is_Some n ∧ s1 !! "name" = n
    ∧ is_Some (s1 !! "id") ∧ b1 !! "system_id" = s1 !! "id"
    ∧ b1 !! "id" = Some x.
Proof.
  unfold body_id_of. intros (b1 & Hb & Hx)%head_bind_Some.
  apply list_elem_of_bind in Hb as (b0 & Hb & Hb0).
  apply list_elem_of_bind in Hb as (s1 & Hb & Hs1).
  apply list_elem_of_filter in Hs1 as [Hj Hs1].
  destruct (sql_eq (b0 !! "name") b && sql_eq (s1 !! "name") n) eqn:E;
    [|by apply elem_of_nil in Hb].
  apply list_elem_of_singleton in Hb as ->.
  apply andb_true_iff in E as [(v1 & E1 & ->)%sql_eq_true (v2 & E2 & ->)%sql_eq_true].
  apply Is_true_true, sql_eq_true in Hj as (j & Hj1 & Hj2).
  exists b0, s1. split_and!; try done. by rewrite Hj1, Hj2.
Qed.

Lemma body_id_of_found bd sy b n b0 s0 :
  b0 ∈ rows bd → s0 ∈ rows sy →
  b0 !! "name" = Some b → s0 !! "name" = Some n →
  is_Some (s0 !! "id") → b0 !! "system_id" = s0 !! "id" →
  Forall (λ r, is_Some (r !! "id")) (rows bd) →
  is_Some (body_id_of bd sy (Some b) (Some n)).
Proof.
  intros Hb Hs Hbn Hsn [j Hj] Hbs Hid. unfold body_id_of.
  set (l := rows bd ≫= _).
  assert (Hin : b0 ∈ l).
  { apply list_elem_of_bind. exists b0. split; [|done].
    apply list_elem_of_bind. exists s0. split.
    - rewrite Hbn, Hsn. unfold sql_eq. rewrite !bool_decide_eq_true_2 by done. left.
    - apply list_elem_of_filter. split; [|done].
      rewrite Hbs, Hj. unfold sql_eq. by rewrite bool_decide_eq_true_2. }
  destruct l as [|b1 l1] eqn:E; [by apply elem_of_nil in Hin|].
  cbn. rewrite Forall_forall in Hid. apply Hid.
  assert (H1 : b1 ∈ l) by (rewrite E; left). unfold l in H1.
  apply list_elem_of_bind in H1 as (b2 & H1 & Hb2).
  apply list_elem_of_bind in H1 as (s2 & H1 & _).
  destruct (_ && _); [|by apply elem_of_nil in H1].
  by apply list_elem_of_singleton in H1 as ->.
Qed.

(** A table filled by conflict-skip has a row for every key among the
    tuples it was filled from. *)
Lemma filled_has_row key cs tuples tb kvals u0 :
  first_writer_wins key cs tuples tb → made_of cs tuples tb →
  u0 ∈ tuples → has_key key kvals (tuple_row cs u0) →
  ∃ s i, s ∈ rows tb ∧ has_key key kvals s ∧ s !! "id" = Some (num i).
Proof.
  intros Hw Hm Hu Hk. specialize (Hw kvals).
  destruct (first_match (λ u, has_key key kvals (tuple_row cs u)) tuples) as [u1|] eqn:E.
  - cbn in Hw. apply fmap_singleton_inv in Hw as (s & Hs & _).
    assert (Hin : s ∈ filter (has_key key kvals) (rows tb)) by (rewrite Hs; left).
    apply list_elem_of_filter in Hin as [Hks Hin].
    unfold made_of in Hm. rewrite Forall_forall in Hm.
    destruct (Hm s Hin) as (u & i & _ & ->).
    exists (<["id" := num i]> (tuple_row cs u)), i.
    split_and!; [done|done|by rewrite lookup_insert_eq].
  - apply first_match_None in E. rewrite Forall_forall in E. by destruct (E u0 Hu).
Qed.

Lemma made_of_ids cs tuples tb :
  made_of cs tuples tb → Forall (λ r, is_Some (r !! "id")) (rows tb).
Proof.
  intros H. eapply Forall_impl; [exact H|].
  intros r (u & i & _ & ->). by rewrite lookup_insert_eq.
Qed.

End Lookups.


Section Tables.

Context {env : environment}.

Variable t : table.
Hypothesis system_columns :
  "system" ∈ cols t → Forall (λ c, c ∈ cols t) ["x"; "y"; "z"; "body"].

Lemma legacy_prepared c :
  c ∈ cols t → c ∉ reference_columns → c ∈ cols (prepared t).
Proof. intros ??. by apply prepared_column. Qed.

Lemma species_made :
  "english_name" ∈ cols t →
  first_writer_wins ["english_name"] ["english_name"]
    (Normalize.species_data (prepared t)) (species_of t)
  ∧ made_of ["english_name"] (Normalize.species_data (prepared t)) (species_of t).
Proof.
  intros HE. unfold species_of. rewrite bool_decide_eq_true_2 by done.
  destruct (insert_species_ok
              (<["species" := Normalize.species_table]>
                 (<["codex_entries" := prepared t]> ∅)) (prepared t))
    as (_ & _ & F & W); [| |by rewrite lookup_insert_eq|by split].
  - rewrite lookup_insert_ne by done. apply lookup_insert_eq.
  - apply legacy_prepared; [done|]. by apply (bool_decide_unpack _).
Qed.

Lemma systems_made :
  "system" ∈ cols t →
  if bool_decide ("region_name" ∈ cols t)
  then first_writer_wins ["name"] ["name"; "x"; "y"; "z"; "region_id"]
         (Normalize.system_data_with_region (prepared t) (regions_of t)) (systems_of t)
       ∧ made_of ["name"; "x"; "y"; "z"; "region_id"]
           (Normalize.system_data_with_region (prepared t) (regions_of t))
           (systems_of t)
  else first_writer_wins ["name"] ["name"; "x"; "y"; "z"]
         (Normalize.system_data (prepared t)) (systems_of t)
       ∧ made_of ["name"; "x"; "y"; "z"] (Normalize.system_data (prepared t))
           (systems_of t).
Proof.
  intros HS. unfold systems_of. rewrite (bool_decide_eq_true_2 _ HS).
  pose proof (system_columns HS) as Hc. rewrite Forall_forall in Hc.
  assert (Hp : ∀ c, c ∈ ["system"; "x"; "y"; "z"] → c ∈ cols (prepared t)).
  { intros c Hin. apply legacy_prepared.
    - apply elem_of_cons in Hin as [->|Hin]; [done|]. apply Hc.
      rewrite !elem_of_cons in *. tauto.
    - revert Hin. rewrite !elem_of_cons, elem_of_nil. unfold reference_columns.
      rewrite !elem_of_cons, elem_of_nil.
      intros [->|[->|[->|[->|[]]]]] [?|[?|[?|[]]]]; discriminate. }
  case_bool_decide as HR.
  - destruct (insert_systems_with_region_ok
                (<["systems" := Normalize.systems_table]>
                   (<["regions" := regions_of t]>
                      (<["codex_entries" := prepared t]> ∅)))
                (prepared t) (regions_of t))
      as (_ & _ & F & W); [| | |by rewrite lookup_insert_eq|by split].
    + rewrite !lookup_insert_ne by done. apply lookup_insert_eq.
    + repeat (apply Forall_cons_2;
                [apply Hp; apply (bool_decide_unpack _); by vm_compute|]).
      apply Forall_cons_2; [|done].
      apply legacy_prepared; [done|]. by apply (bool_decide_unpack _).
    + rewrite lookup_insert_ne by done. apply lookup_insert_eq.
  - destruct (insert_systems_ok
                (<["systems" := Normalize.systems_table]>
                   (<["codex_entries" := prepared t]> ∅)) (prepared t))
      as (_ & _ & F & W); [| |by rewrite lookup_insert_eq|by split].
    + rewrite lookup_insert_ne by done. apply lookup_insert_eq.
    + repeat (apply Forall_cons_2;
                [apply Hp; apply (bool_decide_unpack _); by vm_compute|]).
      done.
Qed.

Lemma bodies_made :
  "system" ∈ cols t →
  first_writer_wins ["name"; "system_id"] ["name"; "system_id"]
    (Normalize.body_data (prepared t) (systems_of t)) (bodies_of t)
  ∧ made_of ["name"; "system_id"]
      (Normalize.body_data (prepared t) (systems_of t)) (bodies_of t).
Proof.
  intros HS. unfold bodies_of. rewrite (bool_decide_eq_true_2 _ HS).
  pose proof (system_columns HS) as Hc. rewrite Forall_forall in Hc.
  destruct (insert_bodies_ok
              (<["bodies" := Normalize.bodies_table]>
                 (<["systems" := systems_of t]>
                    (<["codex_entries" := prepared t]> ∅)))
              (prepared t) (systems_of t))
    as (_ & _ & F & W); [| | |by rewrite lookup_insert_eq|by split].
  - rewrite !lookup_insert_ne by done. apply lookup_insert_eq.
  - apply Forall_cons_2; [|apply Forall_cons_2; [|done]].
    + apply legacy_prepared; [|by apply (bool_decide_unpack _)].
      apply Hc. apply (bool_decide_unpack _). by vm_compute.
    + apply legacy_prepared; [done|]. by apply (bool_decide_unpack _).
  - rewrite lookup_insert_ne by done. apply lookup_insert_eq.
Qed.

Lemma left_join_elem on right g g0 :
  g ∈ left_join on right → g = Some g0 → g0 ∈ right.
Proof.
  unfold left_join. destruct (filter _ right) as [|x l] eqn:E.
  - intros ->%list_elem_of_singleton. done.
  - intros (g1 & -> & Hin)%list_elem_of_fmap [= ->]. rewrite <- E in Hin.
    by apply list_elem_of_filter in Hin as [_ ?].
Qed.

Lemma bodies_refer :
  Forall (λ b, refers_to (systems_of t) (b !! "system_id")) (rows (bodies_of t)).
Proof.
  destruct (decide ("system" ∈ cols t)) as [HS|HS].
  2:{ unfold bodies_of. rewrite (bool_decide_eq_false_2 _ HS). constructor. }
  destruct (bodies_made HS) as [_ Hm]. eapply Forall_impl; [exact Hm|].
  intros b (u & i & Hu & ->) x. rewrite lookup_insert_ne by done.
  apply select_distinct_elem_of, list_elem_of_bind in Hu as (r & Hu & _).
  apply list_elem_of_bind in Hu as (s & Hu & Hs).
  apply list_elem_of_filter in Hs as [_ Hs].
  case_bool_decide; [|by apply elem_of_nil in Hu].
  apply list_elem_of_singleton in Hu as ->.
  rewrite (tuple_row_lookup _ _ 1); [|by repeat constructor; set_solver|done].
  cbn. intros Hx. by exists s.
Qed.

Lemma systems_refer :
  Forall (λ s, refers_to (regions_of t) (s !! "region_id")) (rows (systems_of t)).
Proof.
  destruct (decide ("system" ∈ cols t)) as [HS|HS].
  2:{ unfold systems_of. rewrite (bool_decide_eq_false_2 _ HS). constructor. }
  pose proof (systems_made HS) as Hm. case_bool_decide as HR; destruct Hm as [_ Hm].
  - eapply Forall_impl; [exact Hm|].
    intros s (u & i & Hu & ->) x. rewrite lookup_insert_ne by done.
    apply select_distinct_elem_of, list_elem_of_bind in Hu as (r & Hu & _).
    apply list_elem_of_bind in Hu as (g & Hu & Hg).
    case_bool_decide; [|by apply elem_of_nil in Hu].
    apply list_elem_of_singleton in Hu as ->.
    rewrite (tuple_row_lookup _ _ 4); [|apply (bool_decide_unpack _); by vm_compute|done].
    cbn. destruct g as [g0|]; [|done]. cbn. intros Hx. exists g0. split; [|done].
    by eapply left_join_elem.
  - eapply Forall_impl; [exact Hm|].
    intros s (u & i & Hu & ->) x. rewrite lookup_insert_ne by done.
    rewrite tuple_row_notin; [done|]. apply (bool_decide_unpack _). by vm_compute.
Qed.

Lemma flat_refers :
  Forall (λ r, refers_to (species_of t) (r !! "species_id")
               ∧ refers_to (systems_of t) (r !! "system_id")
               ∧ refers_to (bodies_of t) (r !! "body_id"))
         (rows (flat_after t)).
Proof.
  rewrite flat_after_rows_eq. apply Forall_fmap, Forall_forall. intros r _.
  destruct (references_row (bool_decide ("english_name" ∈ cols t))
              (bool_decide ("system" ∈ cols t))
              (species_of t) (systems_of t) (bodies_of t) r) as (S1 & Y1 & B1 & _).
  cbn [compose]. rewrite S1, Y1, B1. split_and!; intros x Hx.
  - destruct (bool_decide ("english_name" ∈ cols t)); [|done].
    apply id_of_Some in Hx as (s & ? & _ & _ & ?). by exists s.
  - destruct (bool_decide ("system" ∈ cols t)); [|done].
    apply id_of_Some in Hx as (s & ? & _ & _ & ?). by exists s.
  - destruct (bool_decide ("system" ∈ cols t)); [|done].
    apply body_id_of_Some in Hx as (b1 & s1 & ? & _ & _ & _ & _ & _ & _ & _ & ?).
    by exists b1.
Qed.

End Tables.

(** X12.  Referential integrity. After a run of the normalizer that no failure
    interrupts, every reference is null or the [id] of a row that is there:
    [species_id], [system_id] and [body_id] of a flat row in [species],
    [systems] and [bodies], [system_id] of a body in [systems], and
    [region_id] of a system in [regions]. The model checks no foreign key, so
    this is what the statements themselves guarantee. *)
Theorem references_valid {env : environment} (fault : nat → option error) (w : world) (t : table) :
  (∀ n, fault n = None) →
  db w !! "codex_entries" = Some t →
  ("system" ∈ cols t → Forall (λ c, c ∈ cols t) ["x"; "y"; "z"; "body"]) →
  ∃ sp rg sy bd ce,
    db (Normalize.main fault w).2 !! "species" = Some sp
    ∧ db (Normalize.main fault w).2 !! "regions" = Some rg
    ∧ db (Normalize.main fault w).2 !! "systems" = Some sy
    ∧ db (Normalize.main fault w).2 !! "bodies" = Some bd
    ∧ db (Normalize.main fault w).2 !! "codex_entries" = Some ce
    ∧ Forall (λ r, refers_to sp (r !! "species_id")
                   ∧ refers_to sy (r !! "system_id")
                   ∧ refers_to bd (r !! "body_id")) (rows ce)
    ∧ Forall (λ b, refers_to sy (b !! "system_id")) (rows bd)
    ∧ Forall (λ s, refers_to rg (s !! "region_id")) (rows sy).
Proof.
  intros NF Ht Hcols.
  destruct (normalize_db_spec (db w) t Ht Hcols)
    as (d' & N & Hce & Hsp & Hrg & Hsy & Hbd & _).
  destruct (main_run fault NF w d' N) as (_ & D & _). rewrite D.
  exists (species_of t), (regions_of t), (systems_of t), (bodies_of t), (flat_after t).
  split_and!; try done.
  - apply flat_refers.
  - by apply bodies_refer.
  - by apply systems_refer.
Qed.

Section ReferencesValidWitness.

#[local] Existing Instance plain.

Lemma references_valid_witness :
  ∃ sp rg sy bd ce,
    db (Normalize.main no_fault loaded).2 !! "species" = Some sp
    ∧ db (Normalize.main no_fault loaded).2 !! "regions" = Some rg
    ∧ db (Normalize.main no_fault loaded).2 !! "systems" = Some sy
    ∧ db (Normalize.main no_fault loaded).2 !! "bodies" = Some bd
    ∧ db (Normalize.main no_fault loaded).2 !! "codex_entries" = Some ce
    ∧ Forall (λ r, refers_to sp (r !! "species_id")
                   ∧ refers_to sy (r !! "system_id")
                   ∧ refers_to bd (r !! "body_id")) (rows ce)
    ∧ Forall (λ b, refers_to sy (b !! "system_id")) (rows bd)
    ∧ Forall (λ s, refers_to rg (s !! "region_id")) (rows sy).
Proof.
  apply (references_valid no_fault loaded (flat_of (db loaded))).
  - reflexivity.
  - by vm_compute.
  - intros _. apply (bool_decide_unpack _). by vm_compute.
Defined.

End ReferencesValidWitness.


Section Resolution.

Context {env : environment}.

Variable t : table.
Hypothesis system_columns :
  "system" ∈ cols t → Forall (λ c, c ∈ cols t) ["x"; "y"; "z"; "body"].

Lemma prepared_row r :
  r ∈ rows t → erase reference_columns r ∈ rows (prepared t).
Proof. intros H. cbn [rows prepared]. by apply list_elem_of_fmap_2. Qed.

Lemma legacy_cell r c :
  c ∉ reference_columns → erase reference_columns r !! c = r !! c.
Proof. apply erase_keeps. Qed.

Lemma species_row r n :
  "english_name" ∈ cols t → r ∈ rows t → r !! "english_name" = Some n →
  ∃ s, s ∈ rows (species_of t) ∧ s !! "english_name" = Some n.
Proof.
  intros HE Hr Hn. destruct (species_made t HE) as [Hw Hm].
  destruct (filled_has_row _ _ _ _ [n] [Some n] Hw Hm) as (s & i & Hs & Hk & _).
  - apply select_distinct_elem_of, list_elem_of_bind.
    exists (erase reference_columns r). split; [|by apply prepared_row].
    rewrite legacy_cell by (by apply (bool_decide_unpack _)).
    rewrite Hn, bool_decide_eq_true_2 by done. left.
  - apply has_key_single. by rewrite tuple_row_cons, lookup_insert_eq.
  - exists s. split; [done|]. by apply has_key_single.
Qed.

Lemma system_row r n :
  "system" ∈ cols t → r ∈ rows t → r !! "system" = Some n →
  ∃ s x, s ∈ rows (systems_of t) ∧ s !! "name" = Some n ∧ s !! "id" = Some x.
Proof.
  intros HS Hr Hn. pose proof (systems_made t system_columns HS) as Hm.
  assert (Hc : erase reference_columns r !! "system" = Some n).
  { by rewrite legacy_cell by (by apply (bool_decide_unpack _)). }
  case_bool_decide as HR; destruct Hm as [Hw Hm].
  - destruct (left_join_cons
                (λ g, sql_eq (erase reference_columns r !! "region_name") (g !! "name"))
                (rows (regions_of t))) as (g & gs & Hg).
    destruct (filled_has_row _ _ _ _ [n]
                [Some n; erase reference_columns r !! "x";
                 erase reference_columns r !! "y"; erase reference_columns r !! "z";
                 g ≫= (.!! "id")] Hw Hm) as (s & i & Hs & Hk & Hi).
    + apply select_distinct_elem_of, list_elem_of_bind.
      exists (erase reference_columns r). split; [|by apply prepared_row].
      rewrite Hg, bind_cons, Hc, bool_decide_eq_true_2 by done.
      apply elem_of_app. left. left.
    + apply named_tuple; [|done]. apply (bool_decide_unpack _). by vm_compute.
    + exists s, (num i). split_and!; [done| |done]. by apply has_key_single.
  - destruct (filled_has_row _ _ _ _ [n]
                [Some n; erase reference_columns r !! "x";
                 erase reference_columns r !! "y"; erase reference_columns r !! "z"]
                Hw Hm) as (s & i & Hs & Hk & Hi).
    + apply select_distinct_elem_of, list_elem_of_bind.
      exists (erase reference_columns r). split; [|by apply prepared_row].
      rewrite Hc, bool_decide_eq_true_2 by done. left.
    + apply named_tuple; [|done]. apply (bool_decide_unpack _). by vm_compute.
    + exists s, (num i). split_and!; [done| |done]. by apply has_key_single.
Qed.

Lemma body_row r b n :
  "system" ∈ cols t → r ∈ rows t → r !! "body" = Some b → r !! "system" = Some n →
  ∃ b0 s0, b0 ∈ rows (bodies_of t) ∧ s0 ∈ rows (systems_of t)
           ∧ b0 !! "name" = Some b ∧ s0 !! "name" = Some n
           ∧ is_Some (s0 !! "id") ∧ b0 !! "system_id" = s0 !! "id".
Proof.
  intros HS Hr Hb Hn. destruct (system_row r n HS Hr Hn) as (s0 & x & Hs0 & Hsn & Hsx).
  destruct (bodies_made t system_columns HS) as [Hw Hm].
  destruct (filled_has_row _ _ _ _ [b; x] [Some b; Some x] Hw Hm)
    as (b0 & i & Hb0 & Hk & _).
  - apply select_distinct_elem_of, list_elem_of_bind.
    exists (erase reference_columns r). split; [|by apply prepared_row].
    rewrite !legacy_cell by (by apply (bool_decide_unpack _)).
    apply list_elem_of_bind. exists s0. split.
    + rewrite Hb, bool_decide_eq_true_2 by done. rewrite Hsx. left.
    + apply list_elem_of_filter. split; [|done].
      rewrite Hn, Hsn. unfold sql_eq. by rewrite bool_decide_eq_true_2.
  - unfold has_key. cbn [fmap list_fmap]. rewrite !tuple_row_cons.
    rewrite lookup_insert_eq, lookup_insert_ne, lookup_insert_eq by done. done.
  - unfold has_key in Hk. cbn [fmap list_fmap] in Hk. injection Hk as Hk1 Hk2.
    exists b0, s0. split_and!; try done. by rewrite Hsx.
Qed.

Lemma flat_resolved :
  Forall2 (resolved t (species_of t) (systems_of t) (bodies_of t))
          (rows t) (rows (flat_after t)).
Proof.
  rewrite flat_after_rows_eq.
  apply Forall2_fmap_r, Forall_Forall2_diag, Forall_forall. intros r Hr.
  destruct (references_row (bool_decide ("english_name" ∈ cols t))
              (bool_decide ("system" ∈ cols t))
              (species_of t) (systems_of t) (bodies_of t) r) as (S1 & Y1 & B1 & _).
  split_and!.
  - intros HE n Hn. rewrite S1, (bool_decide_eq_true_2 _ HE), Hn.
    destruct (species_row r n HE Hr Hn) as (s & Hs & Hsn).
    destruct (species_made t HE) as [_ Hm].
    destruct (id_of_found (species_of t) "english_name" n s Hs Hsn) as [x Hx].
    { by eapply made_of_ids. }
    destruct (id_of_Some _ _ _ _ Hx) as (s' & ? & _ & ? & ?). by exists s', x.
  - intros HS n Hn. rewrite Y1, (bool_decide_eq_true_2 _ HS), Hn.
    destruct (system_row r n HS Hr Hn) as (s & x0 & Hs & Hsn & _).
    pose proof (systems_made t system_columns HS) as Hm.
    destruct (id_of_found (systems_of t) "name" n s Hs Hsn) as [x Hx].
    { case_bool_decide; destruct Hm as [_ Hm]; by eapply made_of_ids. }
    destruct (id_of_Some _ _ _ _ Hx) as (s' & ? & _ & ? & ?). by exists s', x.
  - intros HS b n Hb Hn. rewrite B1, (bool_decide_eq_true_2 _ HS), Hb, Hn.
    destruct (body_row r b n HS Hr Hb Hn) as (b0 & s0 & Hb0 & Hs0 & Hbn & Hsn & Hi & Hbs).
    destruct (bodies_made t system_columns HS) as [_ Hm].
    destruct (body_id_of_found (bodies_of t) (systems_of t) b n b0 s0) as [x Hx];
      try done.
    { by eapply made_of_ids. }
    destruct (body_id_of_Some _ _ _ _ _ Hx)
      as (b1 & s1 & ? & ? & _ & ? & _ & ? & ? & ? & ?).
    by exists b1, s1, x.
Qed.

End Resolution.

(** X11.  Every name is resolved. After a run of the normalizer that no
    failure interrupts, a flat row that had a species name refers to the row
    of [species] with that name, one that had a system name to the row of
    [systems] with that name, and one that had both a body and a system name
    to a row of [bodies] with that name whose system is a row of [systems]
    with that name: none of these references is left null. *)
Theorem references_resolved {env : environment} (fault : nat → option error) (w : world) (t : table) :
  (∀ n, fault n = None) →
  db w !! "codex_entries" = Some t →
  ("system" ∈ cols t → Forall (λ c, c ∈ cols t) ["x"; "y"; "z"; "body"]) →
  ∃ sp sy bd ce,
    db (Normalize.main fault w).2 !! "species" = Some sp
    ∧ db (Normalize.main fault w).2 !! "systems" = Some sy
    ∧ db (Normalize.main fault w).2 !! "bodies" = Some bd
    ∧ db (Normalize.main fault w).2 !! "codex_entries" = Some ce
    ∧ Forall2 (resolved t sp sy bd) (rows t) (rows ce).
Proof.
  intros NF Ht Hcols.
  destruct (normalize_db_spec (db w) t Ht Hcols)
    as (d' & N & Hce & Hsp & Hrg & Hsy & Hbd & _).
  destruct (main_run fault NF w d' N) as (_ & D & _). rewrite D.
  exists (species_of t), (systems_of t), (bodies_of t), (flat_after t).
  split_and!; try done. by apply flat_resolved.
Qed.

Section ReferencesResolvedWitness.

#[local] Existing Instance plain.

Lemma references_resolved_witness :
  ∃ sp sy bd ce,
    db (Normalize.main no_fault loaded).2 !! "species" = Some sp
    ∧ db (Normalize.main no_fault loaded).2 !! "systems" = Some sy
    ∧ db (Normalize.main no_fault loaded).2 !! "bodies" = Some bd
    ∧ db (Normalize.main no_fault loaded).2 !! "codex_entries" = Some ce
    ∧ Forall2 (resolved (flat_of (db loaded)) sp sy bd)
              (rows (flat_of (db loaded))) (rows ce).
Proof.
  apply (references_resolved no_fault loaded (flat_of (db loaded))).
  - reflexivity.
  - by vm_compute.
  - intros _. apply (bool_decide_unpack _). by vm_compute.
Defined.

End ReferencesResolvedWitness.


(** * One row per name *)

Section Names.

Context {env : environment}.

Lemma filled_count key cs tuples tb kvals :
  first_writer_wins key cs tuples tb →
  length (filter (has_key key kvals) (rows tb))
  = if bool_decide (Exists (λ u, has_key key kvals (tuple_row cs u)) tuples)
    then 1 else 0.
Proof.
  intros Hw. specialize (Hw kvals). apply (f_equal length) in Hw.
  rewrite length_fmap in Hw. rewrite Hw.
  destruct (first_match _ tuples) as [u|] eqn:E.
  - apply first_match_Some in E as (pre & post & -> & Hu & _).
    rewrite bool_decide_eq_true_2; [done|].
    apply Exists_exists. exists u. split; [|done].
    apply elem_of_app. right. left.
  - apply first_match_None in E. rewrite bool_decide_eq_false_2; [done|].
    by apply Forall_Exists_neg in E.
Qed.

Variable t : table.
Hypothesis system_columns :
  "system" ∈ cols t → Forall (λ c, c ∈ cols t) ["x"; "y"; "z"; "body"].

Lemma species_count n :
  "english_name" ∈ cols t →
  count_of "english_name" n (species_of t)
  = if bool_decide (occurs "english_name" n t) then 1 else 0.
Proof.
  intros HE. destruct (species_made t HE) as [Hw _].
  unfold count_of.
  rewrite (list_filter_iff _ (has_key ["english_name"] [n]))
    by (intros s; by rewrite has_key_single).
  rewrite (filled_count _ _ _ _ _ Hw). erewrite bool_decide_ext; [reflexivity|].
  unfold occurs. rewrite !Exists_exists. split.
  - intros (u & Hu & Hk).
    apply select_distinct_elem_of, list_elem_of_bind in Hu as (r0 & Hu & Hr0).
    cbn [rows prepared] in Hr0. apply list_elem_of_fmap in Hr0 as (r & -> & Hr).
    rewrite erase_keeps in Hu by (by apply (bool_decide_unpack _)).
    case_bool_decide; [|by apply elem_of_nil in Hu].
    apply list_elem_of_singleton in Hu as ->. exists r. split; [done|].
    apply has_key_single in Hk. rewrite tuple_row_cons in Hk.
    destruct (r !! "english_name"); [|by rewrite tuple_row_notin in Hk by set_solver].
    by rewrite lookup_insert_eq in Hk.
  - intros (r & Hr & Hn). exists [Some n]. split.
    + apply select_distinct_elem_of, list_elem_of_bind.
      exists (erase reference_columns r). split; [|by apply prepared_row].
      rewrite erase_keeps by (by apply (bool_decide_unpack _)).
      rewrite Hn, bool_decide_eq_true_2 by done. left.
    + apply has_key_single. by rewrite tuple_row_cons, lookup_insert_eq.
Qed.

Lemma systems_count n :
  "system" ∈ cols t →
  count_of "name" n (systems_of t)
  = if bool_decide (occurs "system" n t) then 1 else 0.
Proof.
  intros HS. pose proof (systems_made t system_columns HS) as Hm.
  unfold count_of.
  rewrite (list_filter_iff _ (has_key ["name"] [n]))
    by (intros s; by rewrite has_key_single).
  case_bool_decide as HR; destruct Hm as [Hw _];
    rewrite (filled_count _ _ _ _ _ Hw); (erewrite bool_decide_ext; [reflexivity|]);
    unfold occurs; rewrite !Exists_exists; split.
  - intros (u & Hu & Hk).
    apply select_distinct_elem_of, list_elem_of_bind in Hu as (r0 & Hu & Hr0).
    cbn [rows prepared] in Hr0. apply list_elem_of_fmap in Hr0 as (r & -> & Hr).
    apply list_elem_of_bind in Hu as (g & Hu & _).
    rewrite (erase_keeps _ _ "system") in Hu by (by apply (bool_decide_unpack _)).
    case_bool_decide; [|by apply elem_of_nil in Hu].
    apply list_elem_of_singleton in Hu as ->. exists r. split; [done|].
    apply named_tuple in Hk; [done|]. apply (bool_decide_unpack _). by vm_compute.
  - intros (r & Hr & Hn).
    destruct (left_join_cons
                (λ g, sql_eq (erase reference_columns r !! "region_name") (g !! "name"))
                (rows (regions_of t))) as (g & gs & Hg).
    exists [Some n; erase reference_columns r !! "x";
            erase reference_columns r !! "y"; erase reference_columns r !! "z";
            g ≫= (.!! "id")]. split.
    + apply select_distinct_elem_of, list_elem_of_bind.
      exists (erase reference_columns r). split; [|by apply prepared_row].
      rewrite Hg, bind_cons.
      rewrite (erase_keeps _ _ "system") by (by apply (bool_decide_unpack _)).
      rewrite Hn, bool_decide_eq_true_2 by done. apply elem_of_app. left. left.
    + apply named_tuple; [|done]. apply (bool_decide_unpack _). by vm_compute.
  - intros (u & Hu & Hk).
    apply select_distinct_elem_of, list_elem_of_bind in Hu as (r0 & Hu & Hr0).
    cbn [rows prepared] in Hr0. apply list_elem_of_fmap in Hr0 as (r & -> & Hr).
    rewrite (erase_keeps _ _ "system") in Hu by (by apply (bool_decide_unpack _)).
    case_bool_decide; [|by apply elem_of_nil in Hu].
    apply list_elem_of_singleton in Hu as ->. exists r. split; [done|].
    apply named_tuple in Hk; [done|]. apply (bool_decide_unpack _). by vm_compute.
  - intros (r & Hr & Hn).
    exists [Some n; erase reference_columns r !! "x";
            erase reference_columns r !! "y"; erase reference_columns r !! "z"]. split.
    + apply select_distinct_elem_of, list_elem_of_bind.
      exists (erase reference_columns r). split; [|by apply prepared_row].
      rewrite (erase_keeps _ _ "system") by (by apply (bool_decide_unpack _)).
      rewrite Hn, bool_decide_eq_true_2 by done. left.
    + apply named_tuple; [|done]. apply (bool_decide_unpack _). by vm_compute.
Qed.

End Names.

(** X10.  One row per name. After a run of the normalizer that no failure
    interrupts, [species] has exactly one row for each species name that
    occurs in the flat table and none for any other value, and [systems] has
    exactly one row for each system name that occurs and none for any other,
    however many flat rows carry the name and whatever else they carry. *)
Theorem one_row_per_name {env : environment} (fault : nat → option error) (w : world) (t : table) :
  (∀ n, fault n = None) →
  db w !! "codex_entries" = Some t →
  ("system" ∈ cols t → Forall (λ c, c ∈ cols t) ["x"; "y"; "z"; "body"]) →
  ∃ sp sy,
    db (Normalize.main fault w).2 !! "species" = Some sp
    ∧ db (Normalize.main fault w).2 !! "systems" = Some sy
    ∧ ("english_name" ∈ cols t →
       ∀ n, count_of "english_name" n sp
            = if bool_decide (occurs "english_name" n t) then 1 else 0)
    ∧ ("system" ∈ cols t →
       ∀ n, count_of "name" n sy
            = if bool_decide (occurs "system" n t) then 1 else 0).
Proof.
  intros NF Ht Hcols.
  destruct (normalize_db_spec (db w) t Ht Hcols)
    as (d' & N & Hce & Hsp & Hrg & Hsy & Hbd & _).
  destruct (main_run fault NF w d' N) as (_ & D & _). rewrite D.
  exists (species_of t), (systems_of t). split_and!; try done.
  - intros HE n. by apply species_count.
  - intros HS n. by apply systems_count.
Qed.

Section OneRowPerNameWitness.

#[local] Existing Instance plain.

Lemma one_row_per_name_witness :
  ∃ sp sy,
    db (Normalize.main no_fault loaded).2 !! "species" = Some sp
    ∧ db (Normalize.main no_fault loaded).2 !! "systems" = Some sy
    ∧ ("english_name" ∈ cols (flat_of (db loaded)) →
       ∀ n, count_of "english_name" n sp
            = if bool_decide (occurs "english_name" n (flat_of (db loaded)))
              then 1 else 0)
    ∧ ("system" ∈ cols (flat_of (db loaded)) →
       ∀ n, count_of "name" n sy
            = if bool_decide (occurs "system" n (flat_of (db loaded))) then 1 else 0).
Proof.
  apply (one_row_per_name no_fault loaded (flat_of (db loaded))).
  - reflexivity.
  - by vm_compute.
  - intros _. apply (bool_decide_unpack _). by vm_compute.
Defined.

End OneRowPerNameWitness.


(** * The normalizer before a load, and the cleanup twice *)

(** X14.  Run on a database that has no flat table, the normalizer gets past
    its teardown, which tolerates the missing table, and fails in the
    statement that creates the reference tables, at [ALTER TABLE
    codex_entries]: that statement is undone as a whole, so that no reference
    table is left (nor any that was there before), the error is logged by the
    stage and by [main], and the process exits with status 1. *)
Theorem normalize_without_flat_table {env : environment} (fault : nat → option error) (w : world) :
  (∀ n, fault n = None) →
  db w !! "codex_entries" = None →
  ∃ e,
    (Normalize.main fault w).1 = Exited 1
    ∧ db (Normalize.main fault w).2
      = delete "regions" (delete "species" (delete "systems" (delete "bodies" (db w))))
    ∧ trace (Normalize.main fault w).2
      = trace w
        ++ [ConsoleError "Error creating normalized tables:" e;
            ConsoleError "Error in main:" e; ProcessExit 1].
Proof.
  intros NF Ht. exists (DatabaseError "relation does not exist: codex_entries").
  unfold Normalize.main, Normalize.createNormalizedTables, try_finally, try_catch,
    mbind, M_bind, pool_query.
  rewrite !NF. unfold Normalize.drop_normalized. rewrite Ht. cbn [db queries trace].
  rewrite NF.
  set (d1 := delete "regions" _).
  assert (E : Normalize.create_normalized d1
              = inl (DatabaseError "relation does not exist: codex_entries")).
  { unfold Normalize.create_normalized, create_table, relation, d1.
    repeat (rewrite ?lookup_delete_eq, ?lookup_insert_eq;
            rewrite ?lookup_delete_ne, ?lookup_insert_ne by done;
            cbn [mbind result_bind]).
    by rewrite Ht. }
  rewrite E. cbn [fst snd db trace queries emit console_error throw process_exit].
  by rewrite <- !app_assoc.
Qed.

Section NormalizeWithoutFlatTableWitness.

#[local] Existing Instance plain.

Lemma normalize_without_flat_table_witness :
  ∃ e,
    (Normalize.main no_fault fresh).1 = Exited 1
    ∧ db (Normalize.main no_fault fresh).2
      = delete "regions"
          (delete "species" (delete "systems" (delete "bodies" (db fresh))))
    ∧ trace (Normalize.main no_fault fresh).2
      = trace fresh
        ++ [ConsoleError "Error creating normalized tables:" e;
            ConsoleError "Error in main:" e; ProcessExit 1].
Proof.
  apply (normalize_without_flat_table no_fault fresh); reflexivity.
Defined.

End NormalizeWithoutFlatTableWitness.

Section Again.

Context {env : environment}.

Lemma erase_erase cs r : erase cs (erase cs r) = erase cs r.
Proof.
  apply map_eq. intros c. rewrite !erase_lookup. by destruct (decide (c ∈ cs)).
Qed.

Lemma filter_filter_same {A} (P : A → Prop) `{∀ x, Decision (P x)} (l : list A) :
  filter P (filter P l) = filter P l.
Proof.
  apply filter_id, Forall_forall. intros x Hx.
  by apply list_elem_of_filter in Hx as [? _].
Qed.

Lemma drop_all_again cs t :
  foldl (λ t c, drop_column_if_exists c t)
        (foldl (λ t c, drop_column_if_exists c t) t cs) cs
  = foldl (λ t c, drop_column_if_exists c t) t cs.
Proof.
  rewrite !drop_all_spec. cbn [cols not_null unique next_id rows].
  rewrite filter_filter_same. f_equal. rewrite <- list_fmap_compose.
  apply list_fmap_ext. intros _ r _. apply erase_erase.
Qed.

End Again.

(** X13.  The cleanup can be run again: with [DROP COLUMN IF EXISTS]
    throughout, a second run of [cleanUpColumns] finds nothing to drop, does
    not fail and leaves the database as the first run left it. *)
Theorem cleanup_again (fault : nat → option error) (w : world) (t : table) :
  (∀ n, fault n = None) →
  db w !! "codex_entries" = Some t →
  (Normalize.cleanUpColumns fault w).1 = Return tt
  ∧ (Normalize.cleanUpColumns fault (Normalize.cleanUpColumns fault w).2).1 = Return tt
  ∧ db (Normalize.cleanUpColumns fault (Normalize.cleanUpColumns fault w).2).2
    = db (Normalize.cleanUpColumns fault w).2.
Proof.
  intros NF Ht.
  destruct (cleanUpColumns_run fault NF w
              (<["codex_entries" :=
                   foldl (λ t c, drop_column_if_exists c t) t
                         Normalize.dropped_columns]> (db w)))
    as (w1 & R1 & D1 & _).
  { unfold Normalize.drop_superseded, relation. by rewrite Ht. }
  rewrite R1. cbn [fst snd].
  destruct (cleanUpColumns_run fault NF w1 (db w1)) as (w2 & R2 & D2 & _).
  { unfold Normalize.drop_superseded, relation. rewrite D1, lookup_insert_eq.
    cbn [mbind result_bind]. by rewrite drop_all_again, insert_insert_eq. }
  rewrite R2. by split_and!.
Qed.

Section CleanupAgainWitness.

#[local] Existing Instance plain.

Lemma cleanup_again_witness :
  (Normalize.cleanUpColumns no_fault loaded).1 = Return tt
  ∧ (Normalize.cleanUpColumns no_fault (Normalize.cleanUpColumns no_fault loaded).2).1
    = Return tt
  ∧ db (Normalize.cleanUpColumns no_fault (Normalize.cleanUpColumns no_fault loaded).2).2
    = db (Normalize.cleanUpColumns no_fault loaded).2.
Proof.
  apply (cleanup_again no_fault loaded (flat_of (db loaded))).
  - reflexivity.
  - by vm_compute.
Defined.

End CleanupAgainWitness.


(** * What the normalizer leaves alone *)

Section Frame.

Context {env : environment}.

Variable fault : nat → option error.
Variables (c : string) (l : list (option jsval)).
Hypothesis no_reference : c ∉ reference_columns.
Hypothesis not_dropped : c ∉ Normalize.dropped_columns.

Lemma cells_fmap f t cl n u k :
  (∀ r, f r !! c = r !! c) → cells c (Table cl n u k (f <$> rows t)) = cells c t.
Proof.
  intros H. unfold cells. cbn [rows]. rewrite <- list_fmap_compose.
  apply list_fmap_ext. intros _ r _. apply H.
Qed.

Lemma reads_other name x d :
  name ≠ "codex_entries" → column_reads c l d → column_reads c l (<[name := x]> d).
Proof.
  intros Hn (t & Ht & Hc). exists t. by rewrite lookup_insert_ne.
Qed.

Lemma reads_flat t t' d :
  d !! "codex_entries" = Some t → cells c t' = cells c t →
  column_reads c l d → column_reads c l (<["codex_entries" := t']> d).
Proof.
  intros Ht E (t0 & Ht0 & Hc). exists t'. rewrite lookup_insert_eq. split; [done|].
  rewrite E. by replace t with t0 by congruence.
Qed.

Lemma update_row_cell d ce parts r r' :
  Forall (λ p, target p ≠ c) parts →
  update_row d ce parts r = inr r' → r' !! c = r !! c.
Proof.
  intros Hp. revert r. induction Hp as [|p ps Hp _ IH]; intros r; cbn [update_row].
  - by intros [= <-].
  - rewrite bind_inr. intros (v & _ & E). rewrite (IH _ E).
    by rewrite lookup_assign, decide_False.
Qed.

Lemma update_rows_cells d parts conds rs rs' :
  Forall (λ p, target p ≠ c) parts →
  update_rows d parts conds rs = inr rs' →
  (.!! c) <$> rs' = (.!! c) <$> rs.
Proof.
  intros Hp. revert rs'. induction rs as [|r rs IH]; intros rs'; cbn [update_rows].
  - by intros [= <-].
  - rewrite bind_inr. intros (r1 & E1 & E). rewrite bind_inr in E.
    destruct E as (rest & E2 & [= <-]). cbn [fmap list_fmap]. f_equal.
    + destruct (existsb _ _); [by eapply update_row_cell|by injection E1 as <-].
    + by apply IH.
Qed.

Lemma updateParts_references chk :
  Forall (λ p, target p ≠ c) (Normalize.updateParts chk).
Proof.
  assert (H : ∀ x, x ∈ reference_columns → x ≠ c) by (by intros x ? ->).
  unfold Normalize.updateParts.
  destruct (Normalize.has_english_name chk), (Normalize.has_system chk);
    repeat constructor; apply H; apply (bool_decide_unpack _); by vm_compute.
Qed.

Lemma reads_drop_normalized d d' :
  column_reads c l d → Normalize.drop_normalized d = inr d' → column_reads c l d'.
Proof.
  intros (t & Ht & Hc) E. unfold Normalize.drop_normalized in E.
  rewrite Ht, reset_prepared in E. injection E as <-. eexists.
  rewrite !lookup_delete_ne by done. rewrite lookup_insert_eq. split; [done|].
  rewrite <- Hc. apply cells_fmap. intros r. by apply erase_keeps.
Qed.

Lemma reads_create_normalized d d' :
  column_reads c l d → Normalize.create_normalized d = inr d' → column_reads c l d'.
Proof.
  intros Hd. unfold Normalize.create_normalized. intros E.
  apply bind_inr in E as (d1 & H1 & E). apply bind_inr in E as (d2 & H2 & E).
  apply bind_inr in E as (d3 & H3 & E). apply bind_inr in E as (d4 & H4 & E).
  apply bind_inr in E as (t & Ht & E). apply bind_inr in E as (t1 & Ht1 & E).
  apply bind_inr in E as (t2 & Ht2 & E). apply bind_inr in E as (t3 & Ht3 & E).
  injection E as <-.
  apply create_table_inr in H1 as [_ ->], H2 as [_ ->], H3 as [_ ->], H4 as [_ ->].
  apply relation_inr in Ht.
  apply add_column_inr in Ht1 as [-> _], Ht2 as [-> _], Ht3 as [-> _].
  apply (reads_flat t); [done|done|].
  by repeat (apply reads_other; [done|]).
Qed.

Lemma reads_insert_into name key cs tuples d t d' :
  name ≠ "codex_entries" → column_reads c l d →
  (t' ← insert_select key cs tuples t; inr (<[name := t']> d)) = inr d' →
  column_reads c l d'.
Proof.
  intros Hn Hd. rewrite bind_inr. intros (t' & _ & [= <-]). by apply reads_other.
Qed.

Lemma reads_insert_species d d' :
  column_reads c l d → Normalize.insert_species d = inr d' → column_reads c l d'.
Proof.
  intros Hd. unfold Normalize.insert_species. intros E.
  apply bind_inr in E as (ce & _ & E). apply bind_inr in E as (? & _ & E).
  apply bind_inr in E as (sp & _ & E).
  eapply (reads_insert_into "species"); [done|exact Hd|exact E].
Qed.

Lemma reads_insert_regions d d' :
  column_reads c l d → Normalize.insert_regions d = inr d' → column_reads c l d'.
Proof.
  intros Hd. unfold Normalize.insert_regions. intros E.
  apply bind_inr in E as (ce & _ & E). apply bind_inr in E as (? & _ & E).
  apply bind_inr in E as (rg & _ & E).
  eapply (reads_insert_into "regions"); [done|exact Hd|exact E].
Qed.

Lemma reads_insert_regions_localised d d' :
  column_reads c l d → Normalize.insert_regions_localised d = inr d' →
  column_reads c l d'.
Proof.
  intros Hd. unfold Normalize.insert_regions_localised. intros E.
  apply bind_inr in E as (ce & _ & E). apply bind_inr in E as (? & _ & E).
  apply bind_inr in E as (rg & _ & E).
  eapply (reads_insert_into "regions"); [done|exact Hd|exact E].
Qed.

Lemma reads_insert_systems d d' :
  column_reads c l d → Normalize.insert_systems d = inr d' → column_reads c l d'.
Proof.
  intros Hd. unfold Normalize.insert_systems. intros E.
  apply bind_inr in E as (ce & _ & E). apply bind_inr in E as (? & _ & E).
  apply bind_inr in E as (sy & _ & E).
  eapply (reads_insert_into "systems"); [done|exact Hd|exact E].
Qed.

Lemma reads_insert_systems_with_region d d' :
  column_reads c l d → Normalize.insert_systems_with_region d = inr d' →
  column_reads c l d'.
Proof.
  intros Hd. unfold Normalize.insert_systems_with_region. intros E.
  apply bind_inr in E as (ce & _ & E). apply bind_inr in E as (? & _ & E).
  apply bind_inr in E as (rg & _ & E). apply bind_inr in E as (sy & _ & E).
  eapply (reads_insert_into "systems"); [done|exact Hd|exact E].
Qed.

Lemma reads_insert_bodies d d' :
  column_reads c l d → Normalize.insert_bodies d = inr d' → column_reads c l d'.
Proof.
  intros Hd. unfold Normalize.insert_bodies. intros E.
  apply bind_inr in E as (ce & _ & E). apply bind_inr in E as (? & _ & E).
  apply bind_inr in E as (sy & _ & E). apply bind_inr in E as (bd & _ & E).
  eapply (reads_insert_into "bodies"); [done|exact Hd|exact E].
Qed.

Lemma reads_update chk d d' :
  column_reads c l d →
  update_codex_entries (Normalize.updateParts chk) (Normalize.whereConditions chk) d
  = inr d' →
  column_reads c l d'.
Proof.
  intros Hd. unfold update_codex_entries. intros E.
  apply bind_inr in E as (t & Ht%relation_inr & E).
  apply bind_inr in E as (? & _ & E). apply bind_inr in E as (? & _ & E).
  apply bind_inr in E as (? & _ & E). apply bind_inr in E as (rs & Hrs & E).
  injection E as <-. apply (reads_flat t); [done| |done].
  unfold cells. cbn [rows set_rows]. eapply update_rows_cells; [|done].
  apply updateParts_references.
Qed.

Lemma reads_drop_superseded d d' :
  column_reads c l d → Normalize.drop_superseded d = inr d' → column_reads c l d'.
Proof.
  intros Hd. unfold Normalize.drop_superseded. intros E.
  apply bind_inr in E as (t & Ht%relation_inr & E). rewrite drop_all_spec in E.
  injection E as <-. apply (reads_flat t); [done| |done].
  apply cells_fmap. intros r. by apply erase_keeps.
Qed.

Lemma normalize_main_reads : preserves (column_reads c l) (Normalize.main fault).
Proof.
  unfold Normalize.main, Normalize.createNormalizedTables, Normalize.normalizeData,
    Normalize.cleanUpColumns.
  keeps_structure; intros d d' Hd E;
    eauto 2 using reads_drop_normalized, reads_create_normalized,
      reads_insert_species, reads_insert_regions, reads_insert_regions_localised,
      reads_insert_systems, reads_insert_systems_with_region, reads_insert_bodies,
      reads_update, reads_drop_superseded.
Qed.

End Frame.

(** X8.  The normalizer leaves alone what it has no business with. Whatever
    fails, and whichever legacy columns it finds, a run neither adds nor
    removes nor reorders the rows of the flat table, and it changes no cell of
    a column that is neither one of the three references nor in its drop list:
    [id], [english_name], the time stamps, [latitude], [longitude], [category]
    and the like read after the run as they did before. *)
Theorem normalize_keeps_cells {env : environment} (fault : nat → option error) (w : world) (t : table)
    (c : string) :
  db w !! "codex_entries" = Some t →
  c ∉ reference_columns →
  c ∉ Normalize.dropped_columns →
  ∃ t', db (Normalize.main fault w).2 !! "codex_entries" = Some t'
        ∧ cells c t' = cells c t.
Proof.
  intros Ht Hr Hd.
  apply (normalize_main_reads fault c (cells c t) Hr Hd w). by exists t.
Qed.

Section NormalizeKeepsCellsWitness.

#[local] Existing Instance plain.

Lemma normalize_keeps_cells_witness :
  ∃ t', db (Normalize.main (fail_at 5 (ConnectionError "terminated")) loaded).2
        !! "codex_entries" = Some t'
        ∧ cells "english_name" t' = cells "english_name" (flat_of (db loaded)).
Proof.
  apply (normalize_keeps_cells (fail_at 5 (ConnectionError "terminated")) loaded
           (flat_of (db loaded)) "english_name").
  - by vm_compute.
  - apply (bool_decide_unpack _). by vm_compute.
  - apply (bool_decide_unpack _). by vm_compute.
Defined.

End NormalizeKeepsCellsWitness.


(** * Starting over *)

Section StartOver.

Context {env : environment}.

Lemma prepared_prepared t : prepared (prepared t) = prepared t.
Proof.
  unfold prepared. cbn [cols not_null unique next_id rows]. f_equal.
  - rewrite filter_app, filter_filter_same.
    replace (filter (λ c, c ∉ reference_columns) reference_columns)
      with (@nil string) by done.
    by rewrite app_nil_r.
  - rewrite <- list_fmap_compose. apply list_fmap_ext. intros _ r _.
    apply erase_erase.
Qed.

(** The first two statements touch the flat table and the four reference
    tables, and nothing else. *)
Lemma prepare_other d t dB n :
  d !! "codex_entries" = Some t →
  Normalize.drop_normalized d ≫= Normalize.create_normalized = inr dB →
  n ∉ normalized_tables →
  dB !! n = d !! n.
Proof.
  intros Ht E Hn.
  assert (Hne : n ≠ "codex_entries" ∧ n ≠ "species" ∧ n ≠ "regions"
                ∧ n ≠ "systems" ∧ n ≠ "bodies").
  { unfold normalized_tables in Hn. rewrite !elem_of_cons, elem_of_nil in Hn.
    split_and!; intros ->; tauto. }
  destruct Hne as (N1 & N2 & N3 & N4 & N5).
  apply bind_inr in E as (d1 & [= <-] & E). rewrite Ht in E.
  unfold Normalize.create_normalized in E.
  apply bind_inr in E as (e1 & H1 & E). apply bind_inr in E as (e2 & H2 & E).
  apply bind_inr in E as (e3 & H3 & E). apply bind_inr in E as (e4 & H4 & E).
  apply bind_inr in E as (t0 & _ & E). apply bind_inr in E as (t1 & _ & E).
  apply bind_inr in E as (t2 & _ & E). apply bind_inr in E as (t3 & _ & E).
  injection E as <-.
  apply create_table_inr in H1 as [_ ->], H2 as [_ ->], H3 as [_ ->], H4 as [_ ->].
  rewrite !lookup_insert_ne by done. rewrite !lookup_delete_ne by done.
  by rewrite lookup_insert_ne.
Qed.

End StartOver.

(** X9.  [createNormalizedTables] starts over. Whatever an earlier run left in
    them, the four reference tables come out as created, without a row, and
    the flat table with its three reference columns last and empty in every
    row, its other columns and cells as they were; run once more, the stage
    changes nothing. *)
Theorem create_tables_starts_over (fault : nat → option error) (w : world)
    (t : table) :
  (∀ n, fault n = None) →
  db w !! "codex_entries" = Some t →
  (Normalize.createNormalizedTables fault w).1 = Return tt
  ∧ db (Normalize.createNormalizedTables fault w).2 !! "species"
    = Some Normalize.species_table
  ∧ db (Normalize.createNormalizedTables fault w).2 !! "regions"
    = Some Normalize.regions_table
  ∧ db (Normalize.createNormalizedTables fault w).2 !! "systems"
    = Some Normalize.systems_table
  ∧ db (Normalize.createNormalizedTables fault w).2 !! "bodies"
    = Some Normalize.bodies_table
  ∧ db (Normalize.createNormalizedTables fault w).2 !! "codex_entries"
    = Some (Table (filter (λ c, c ∉ reference_columns) (cols t) ++ reference_columns)
              (not_null t) (unique t) (next_id t)
              (erase reference_columns <$> rows t))
  ∧ db (Normalize.createNormalizedTables fault
          (Normalize.createNormalizedTables fault w).2).2
    = db (Normalize.createNormalizedTables fault w).2.
Proof.
  intros NF Ht.
  destruct (prepare_spec (db w) t Ht) as (dB & HB & Bce & Bsp & Brg & Bsy & Bbd).
  pose proof HB as HB0. apply bind_inr in HB as (dA & HA & HB).
  destruct (createNormalizedTables_run fault NF w dA dB HA HB) as (w1 & R1 & D1 & _).
  rewrite R1. cbn [fst snd]. rewrite D1. split_and!; try done.
  destruct (prepare_spec dB (prepared t) Bce) as (dC & HC & Cce & Csp & Crg & Csy & Cbd).
  pose proof HC as HC0. apply bind_inr in HC as (dA' & HA' & HC).
  destruct (createNormalizedTables_run fault NF w1 dA' dC) as (w2 & R2 & D2 & _);
    [by rewrite D1|done|].
  rewrite R2. cbn [snd]. rewrite D2. apply map_eq. intros n.
  destruct (decide (n ∈ normalized_tables)) as [Hn|Hn].
  - unfold normalized_tables in Hn. rewrite !elem_of_cons, elem_of_nil in Hn.
    destruct Hn as [->|[->|[->|[->|[->|[]]]]]]; try congruence.
    by rewrite Cce, Bce, prepared_prepared.
  - by apply (prepare_other dB (prepared t)).
Qed.

Section CreateTablesStartsOverWitness.

#[local] Existing Instance plain.

Lemma create_tables_starts_over_witness :
  (Normalize.createNormalizedTables no_fault normalized).1 = Return tt
  ∧ db (Normalize.createNormalizedTables no_fault normalized).2 !! "species"
    = Some Normalize.species_table
  ∧ db (Normalize.createNormalizedTables no_fault normalized).2 !! "regions"
    = Some Normalize.regions_table
  ∧ db (Normalize.createNormalizedTables no_fault normalized).2 !! "systems"
    = Some Normalize.systems_table
  ∧ db (Normalize.createNormalizedTables no_fault normalized).2 !! "bodies"
    = Some Normalize.bodies_table
  ∧ db (Normalize.createNormalizedTables no_fault normalized).2 !! "codex_entries"
    = Some (Table (filter (λ c, c ∉ reference_columns) (cols (flat_of (db normalized)))
                   ++ reference_columns)
              (not_null (flat_of (db normalized))) (unique (flat_of (db normalized)))
              (next_id (flat_of (db normalized)))
              (erase reference_columns <$> rows (flat_of (db normalized))))
  ∧ db (Normalize.createNormalizedTables no_fault
          (Normalize.createNormalizedTables no_fault normalized).2).2
    = db (Normalize.createNormalizedTables no_fault normalized).2.
Proof.
  apply (create_tables_starts_over no_fault normalized (flat_of (db normalized))).
  - reflexivity.
  - by vm_compute.
Defined.

End CreateTablesStartsOverWitness.


(** * A run that fails *)

Section Failed.

Context {env : environment}.

Variable fault : nat → option error.
Variables (c : string) (l : list (option jsval)).
Hypothesis no_reference : c ∉ reference_columns.

(** The population statements do not write the flat table. *)
Lemma insert_into_flat name key cs tuples (d : gmap string table) t d' :
  name ≠ "codex_entries" →
  (t' ← insert_select key cs tuples t; inr (<[name := t']> d)) = inr d' →
  d' !! "codex_entries" = d !! "codex_entries".
Proof.
  intros Hn. rewrite bind_inr. intros (t' & _ & [= <-]). by apply lookup_insert_ne.
Qed.

Lemma population_flat stmt d d' :
  stmt ∈ [Normalize.insert_species; Normalize.insert_regions;
          Normalize.insert_regions_localised; Normalize.insert_systems;
          Normalize.insert_systems_with_region; Normalize.insert_bodies] →
  stmt d = inr d' → d' !! "codex_entries" = d !! "codex_entries".
Proof.
  rewrite !elem_of_cons, elem_of_nil.
  intros [->|[->|[->|[->|[->|[->|[]]]]]]] E.
  - unfold Normalize.insert_species in E.
    apply bind_inr in E as (ce & _ & E). apply bind_inr in E as (? & _ & E).
    apply bind_inr in E as (sp & _ & E).
    eapply (insert_into_flat "species"); [done|exact E].
  - unfold Normalize.insert_regions in E.
    apply bind_inr in E as (ce & _ & E). apply bind_inr in E as (? & _ & E).
    apply bind_inr in E as (rg & _ & E).
    eapply (insert_into_flat "regions"); [done|exact E].
  - unfold Normalize.insert_regions_localised in E.
    apply bind_inr in E as (ce & _ & E). apply bind_inr in E as (? & _ & E).
    apply bind_inr in E as (rg & _ & E).
    eapply (insert_into_flat "regions"); [done|exact E].
  - unfold Normalize.insert_systems in E.
    apply bind_inr in E as (ce & _ & E). apply bind_inr in E as (? & _ & E).
    apply bind_inr in E as (sy & _ & E).
    eapply (insert_into_flat "systems"); [done|exact E].
  - unfold Normalize.insert_systems_with_region in E.
    apply bind_inr in E as (ce & _ & E). apply bind_inr in E as (? & _ & E).
    apply bind_inr in E as (rg & _ & E). apply bind_inr in E as (sy & _ & E).
    eapply (insert_into_flat "systems"); [done|exact E].
  - unfold Normalize.insert_bodies in E.
    apply bind_inr in E as (ce & _ & E). apply bind_inr in E as (? & _ & E).
    apply bind_inr in E as (sy & _ & E). apply bind_inr in E as (bd & _ & E).
    eapply (insert_into_flat "bodies"); [done|exact E].
Qed.

Lemma there_population stmt d d' :
  stmt ∈ [Normalize.insert_species; Normalize.insert_regions;
          Normalize.insert_regions_localised; Normalize.insert_systems;
          Normalize.insert_systems_with_region; Normalize.insert_bodies] →
  column_there c d → stmt d = inr d' → column_there c d'.
Proof.
  intros Hs (t & Ht & Hc) E. exists t. split; [|done].
  by rewrite (population_flat stmt d d' Hs E).
Qed.

Lemma there_drop_normalized d d' :
  column_there c d → Normalize.drop_normalized d = inr d' → column_there c d'.
Proof.
  intros (t & Ht & Hc) E. unfold Normalize.drop_normalized in E.
  rewrite Ht, reset_prepared in E. injection E as <-. eexists.
  rewrite !lookup_delete_ne by done. rewrite lookup_insert_eq. split; [done|].
  cbn [cols]. by apply list_elem_of_filter.
Qed.

Lemma there_create_normalized d d' :
  column_there c d → Normalize.create_normalized d = inr d' → column_there c d'.
Proof.
  intros (t0 & Ht0 & Hc). unfold Normalize.create_normalized. intros E.
  apply bind_inr in E as (d1 & H1 & E). apply bind_inr in E as (d2 & H2 & E).
  apply bind_inr in E as (d3 & H3 & E). apply bind_inr in E as (d4 & H4 & E).
  apply bind_inr in E as (t & Ht & E). apply bind_inr in E as (t1 & Ht1 & E).
  apply bind_inr in E as (t2 & Ht2 & E). apply bind_inr in E as (t3 & Ht3 & E).
  injection E as <-.
  apply create_table_inr in H1 as [_ ->], H2 as [_ ->], H3 as [_ ->], H4 as [_ ->].
  apply relation_inr in Ht. rewrite !lookup_insert_ne in Ht by done.
  apply add_column_inr in Ht1 as [-> _], Ht2 as [-> _], Ht3 as [-> _].
  eexists. rewrite lookup_insert_eq. split; [done|]. cbn [cols].
  rewrite !elem_of_app. do 3 left. congruence.
Qed.

Lemma there_update parts conds d d' :
  column_there c d → update_codex_entries parts conds d = inr d' →
  column_there c d'.
Proof.
  intros (t0 & Ht0 & Hc). unfold update_codex_entries. intros E.
  apply bind_inr in E as (t & Ht%relation_inr & E).
  apply bind_inr in E as (? & _ & E). apply bind_inr in E as (? & _ & E).
  apply bind_inr in E as (? & _ & E). apply bind_inr in E as (rs & Hrs & E).
  injection E as <-. eexists. rewrite lookup_insert_eq. split; [done|].
  cbn [cols set_rows]. congruence.
Qed.

Lemma stages_keep :
  preserves (column_kept c l) (Normalize.createNormalizedTables fault)
  ∧ preserves (column_kept c l) (Normalize.normalizeData fault).
Proof.
  unfold Normalize.createNormalizedTables, Normalize.normalizeData.
  split; keeps_structure; intros d d' [Hd1 Hd2] E; split;
    first
      [ by eapply there_drop_normalized
      | by eapply there_create_normalized
      | by eapply there_update
      | by eapply reads_drop_normalized
      | by eapply reads_create_normalized
      | by eapply reads_update
      | eapply there_population; [|exact Hd1|exact E];
        rewrite !elem_of_cons; tauto
      | eauto 2 using reads_insert_species, reads_insert_regions,
          reads_insert_regions_localised, reads_insert_systems,
          reads_insert_systems_with_region, reads_insert_bodies ].
Qed.

Lemma cleanUpColumns_untouched w :
  (Normalize.cleanUpColumns fault w).1 ≠ Return tt →
  db (Normalize.cleanUpColumns fault w).2 = db w.
Proof.
  unfold Normalize.cleanUpColumns, try_catch, mbind, M_bind, pool_query.
  destruct (fault (queries w)); [done|].
  by destruct (Normalize.drop_superseded (db w)).
Qed.

Lemma failed_run_keeps w :
  column_kept c l (db w) → (Normalize.main fault w).1 ≠ Return tt →
  column_kept c l (db (Normalize.main fault w).2).
Proof.
  intros Hw. destruct stages_keep as [K1 K2]. specialize (K1 w Hw).
  unfold Normalize.main, try_finally, try_catch, mbind, M_bind.
  destruct (Normalize.createNormalizedTables fault w) as [[[]|e|k] w1];
    cbn [fst snd] in *; [|done..].
  specialize (K2 w1 K1).
  destruct (Normalize.normalizeData fault w1) as [[[]|e|k] w2];
    cbn [fst snd] in *; [|done..].
  pose proof (cleanUpColumns_untouched w2) as U.
  destruct (Normalize.cleanUpColumns fault w2) as [[[]|e|k] w3];
    cbn [fst snd] in *.
  - by intros [].
  - intros _. cbn [fst snd db emit console_error process_exit]. by rewrite U.
  - intros _. cbn [fst snd db]. by rewrite U.
Qed.

End Failed.

(** X15.  A run that fails loses nothing. The legacy columns are dropped by
    the last statement of the last stage, so that when the normalizer does not
    complete, whatever failed, every column of the flat table other than the
    three references is still there and reads as it did before the run. *)
Theorem failed_run_loses_nothing {env : environment} (fault : nat → option error) (w : world)
    (t : table) (c : string) :
  db w !! "codex_entries" = Some t →
  c ∈ cols t →
  c ∉ reference_columns →
  (Normalize.main fault w).1 ≠ Return tt →
  ∃ t', db (Normalize.main fault w).2 !! "codex_entries" = Some t'
        ∧ c ∈ cols t'
        ∧ cells c t' = cells c t.
Proof.
  intros Ht Hc Hr Hfail.
  destruct (failed_run_keeps fault c (cells c t) Hr w) as [(t1 & Ht1 & Hc1) (t2 & Ht2 & Hl)];
    [split; by exists t|done|].
  exists t1. split_and!; [done|done|]. congruence.
Qed.

Section FailedRunLosesNothingWitness.

#[local] Existing Instance plain.

Lemma failed_run_loses_nothing_witness :
  ∃ t', db (Normalize.main (fail_at 11 (ConnectionError "terminated")) loaded).2
        !! "codex_entries" = Some t'
        ∧ "system" ∈ cols t'
        ∧ cells "system" t' = cells "system" (flat_of (db loaded)).
Proof.
  apply (failed_run_loses_nothing (fail_at 11 (ConnectionError "terminated")) loaded
           (flat_of (db loaded)) "system").
  - by vm_compute.
  - apply (bool_decide_unpack _). by vm_compute.
  - apply (bool_decide_unpack _). by vm_compute.
  - by vm_compute.
Defined.

End FailedRunLosesNothingWitness.


(** * When the table cannot be created *)

(** X16.  When the statement that creates the table fails, with [e], the
    loader logs [e] twice, under ["Error creating table:"] and under ["Error
    in main process:"], ends the pool, and has done nothing else: the
    document is not read, no insert is tried and the database is as it
    was. *)
Theorem create_table_failure {env : environment} (fault : nat → option error) (doc : list jsval)
    (w : world) (e : error) :
  fault (queries w) = Some e →
  (Load.createTable fault w).1 = Throw e
  ∧ db (Load.main fault doc w).2 = db w
  ∧ queries (Load.main fault doc w).2 = S (queries w)
  ∧ trace (Load.main fault doc w).2
    = trace w ++ [ConsoleError "Error creating table:" e;
                  ConsoleError "Error in main process:" e; PoolEnd].
Proof.
  intros H.
  unfold Load.main, Load.createTable, try_finally, try_catch, mbind, M_bind, pool_query.
  rewrite H. cbn [fst snd db queries trace emit console_error throw pool_end].
  by rewrite <- !app_assoc.
Qed.

Section CreateTableFailureWitness.

#[local] Existing Instance plain.

Lemma create_table_failure_witness :
  (Load.createTable (fail_at 0 (ConnectionError "refused")) fresh).1
  = Throw (ConnectionError "refused")
  ∧ db (Load.main (fail_at 0 (ConnectionError "refused")) scenario fresh).2 = db fresh
  ∧ queries (Load.main (fail_at 0 (ConnectionError "refused")) scenario fresh).2
    = S (queries fresh)
  ∧ trace (Load.main (fail_at 0 (ConnectionError "refused")) scenario fresh).2
    = trace fresh ++ [ConsoleError "Error creating table:" (ConnectionError "refused");
                      ConsoleError "Error in main process:" (ConnectionError "refused");
                      PoolEnd].
Proof.
  apply (create_table_failure (fail_at 0 (ConnectionError "refused")) scenario fresh).
  reflexivity.
Defined.

End CreateTableFailureWitness.


(** * Trying again after a failure *)

Section Retry.

Context {env : environment}.

Variable fault : nat → option error.
Variable P : table.

Lemma prepared_reset t :
  prepared (Table (filter (λ c, c ∉ reference_columns) (cols t)) (not_null t)
              (unique t) (next_id t) (erase reference_columns <$> rows t))
  = prepared t.
Proof.
  unfold prepared. cbn [cols not_null unique next_id rows]. f_equal.
  - by rewrite filter_filter_same.
  - rewrite <- list_fmap_compose. apply list_fmap_ext. intros _ r _.
    apply erase_erase.
Qed.

Lemma prepared_added t :
  prepared (Table (((cols t ++ ["species_id"]) ++ ["system_id"]) ++ ["body_id"])
              (not_null t) (unique t) (next_id t) (rows t))
  = prepared t.
Proof.
  unfold prepared. cbn [cols not_null unique next_id rows]. f_equal.
  rewrite !filter_app.
  replace (filter (λ c, c ∉ reference_columns) ["species_id"]) with (@nil string)
    by done.
  replace (filter (λ c, c ∉ reference_columns) ["system_id"]) with (@nil string)
    by done.
  replace (filter (λ c, c ∉ reference_columns) ["body_id"]) with (@nil string)
    by done.
  by rewrite !app_nil_r.
Qed.

Lemma update_rows_erase chk d rs rs' :
  update_rows d (Normalize.updateParts chk) (Normalize.whereConditions chk) rs
  = inr rs' →
  erase reference_columns <$> rs' = erase reference_columns <$> rs.
Proof.
  revert rs'. induction rs as [|r rs IH]; intros rs'; cbn [update_rows].
  - by intros [= <-].
  - rewrite bind_inr. intros (r1 & E1 & E). rewrite bind_inr in E.
    destruct E as (rest & E2 & [= <-]). cbn [fmap list_fmap]. f_equal; [|by apply IH].
    destruct (existsb _ _); [|by injection E1 as <-].
    apply map_eq. intros c. rewrite !erase_lookup.
    destruct (decide (c ∈ reference_columns)) as [|Hc]; [done|].
    eapply update_row_cell; [|exact E1]. by apply updateParts_references.
Qed.

Lemma prep_drop_normalized d d' :
  flat_prepared P d → Normalize.drop_normalized d = inr d' → flat_prepared P d'.
Proof.
  intros (t & Ht & Hp) E. unfold Normalize.drop_normalized in E.
  rewrite Ht, reset_prepared in E. injection E as <-. eexists.
  rewrite !lookup_delete_ne by done. rewrite lookup_insert_eq. split; [done|].
  by rewrite prepared_reset.
Qed.

Lemma prep_create_normalized d d' :
  flat_prepared P d → Normalize.create_normalized d = inr d' → flat_prepared P d'.
Proof.
  intros (t0 & Ht0 & Hp). unfold Normalize.create_normalized. intros E.
  apply bind_inr in E as (d1 & H1 & E). apply bind_inr in E as (d2 & H2 & E).
  apply bind_inr in E as (d3 & H3 & E). apply bind_inr in E as (d4 & H4 & E).
  apply bind_inr in E as (t & Ht & E). apply bind_inr in E as (t1 & Ht1 & E).
  apply bind_inr in E as (t2 & Ht2 & E). apply bind_inr in E as (t3 & Ht3 & E).
  injection E as <-.
  apply create_table_inr in H1 as [_ ->], H2 as [_ ->], H3 as [_ ->], H4 as [_ ->].
  apply relation_inr in Ht. rewrite !lookup_insert_ne in Ht by done.
  apply add_column_inr in Ht1 as [-> _], Ht2 as [-> _], Ht3 as [-> _].
  eexists. rewrite lookup_insert_eq. split; [done|].
  cbn [cols not_null unique next_id rows]. rewrite prepared_added. congruence.
Qed.

Lemma prep_population stmt d d' :
  stmt ∈ [Normalize.insert_species; Normalize.insert_regions;
          Normalize.insert_regions_localised; Normalize.insert_systems;
          Normalize.insert_systems_with_region; Normalize.insert_bodies] →
  flat_prepared P d → stmt d = inr d' → flat_prepared P d'.
Proof.
  intros Hs (t & Ht & Hp) E. exists t. split; [|done].
  by rewrite (population_flat stmt d d' Hs E).
Qed.

Lemma prep_update chk d d' :
  flat_prepared P d →
  update_codex_entries (Normalize.updateParts chk) (Normalize.whereConditions chk) d
  = inr d' →
  flat_prepared P d'.
Proof.
  intros (t0 & Ht0 & Hp). unfold update_codex_entries. intros E.
  apply bind_inr in E as (t & Ht%relation_inr & E).
  apply bind_inr in E as (? & _ & E). apply bind_inr in E as (? & _ & E).
  apply bind_inr in E as (? & _ & E). apply bind_inr in E as (rs & Hrs & E).
  injection E as <-. eexists. rewrite lookup_insert_eq. split; [done|].
  replace t0 with t in * by congruence. rewrite <- Hp.
  unfold prepared, set_rows. cbn [cols not_null unique next_id rows]. f_equal.
  by eapply update_rows_erase.
Qed.

Lemma stages_prepared :
  preserves (flat_prepared P) (Normalize.createNormalizedTables fault)
  ∧ preserves (flat_prepared P) (Normalize.normalizeData fault).
Proof.
  unfold Normalize.createNormalizedTables, Normalize.normalizeData.
  split; keeps_structure; intros d d' Hd E;
    first
      [ by eapply prep_drop_normalized
      | by eapply prep_create_normalized
      | by eapply prep_update
      | eapply prep_population; [|exact Hd|exact E]; rewrite !elem_of_cons; tauto ].
Qed.

Lemma failed_run_prepared w :
  flat_prepared P (db w) → (Normalize.main fault w).1 ≠ Return tt →
  flat_prepared P (db (Normalize.main fault w).2).
Proof.
  intros Hw. destruct stages_prepared as [K1 K2]. specialize (K1 w Hw).
  unfold Normalize.main, try_finally, try_catch, mbind, M_bind.
  destruct (Normalize.createNormalizedTables fault w) as [[[]|e|k] w1];
    cbn [fst snd] in *; [|done..].
  specialize (K2 w1 K1).
  destruct (Normalize.normalizeData fault w1) as [[[]|e|k] w2];
    cbn [fst snd] in *; [|done..].
  pose proof (cleanUpColumns_untouched fault w2) as U.
  destruct (Normalize.cleanUpColumns fault w2) as [[[]|e|k] w3];
    cbn [fst snd] in *.
  - by intros [].
  - intros _. cbn [fst snd db emit console_error process_exit]. by rewrite U.
  - intros _. cbn [fst snd db]. by rewrite U.
Qed.

End Retry.

Section SameTables.

Context {env : environment}.

Variables t1 t : table.
Hypothesis same : prepared t1 = prepared t.

Lemma same_column c :
  c ∉ reference_columns → c ∈ cols t1 ↔ c ∈ cols t.
Proof.
  intros Hc. by rewrite <- (prepared_column t1), <- (prepared_column t), same.
Qed.

Lemma same_found c :
  c ∉ reference_columns → bool_decide (c ∈ cols t1) = bool_decide (c ∈ cols t).
Proof. intros Hc. by apply bool_decide_ext, same_column. Qed.

Lemma same_species : species_of t1 = species_of t.
Proof.
  unfold species_of. rewrite same, same_found; [done|].
  by apply (bool_decide_unpack _).
Qed.

Lemma same_regions : regions_of t1 = regions_of t.
Proof.
  unfold regions_of. rewrite same.
  rewrite !same_found; [done|by apply (bool_decide_unpack _)..].
Qed.

Lemma same_systems : systems_of t1 = systems_of t.
Proof.
  unfold systems_of. rewrite same, same_regions.
  rewrite !same_found; [done|by apply (bool_decide_unpack _)..].
Qed.

Lemma same_bodies : bodies_of t1 = bodies_of t.
Proof.
  unfold bodies_of. rewrite same, same_systems, same_found; [done|].
  by apply (bool_decide_unpack _).
Qed.

Lemma same_flat : flat_after t1 = flat_after t.
Proof.
  unfold flat_after.
  change (not_null t1) with (not_null (prepared t1)).
  change (unique t1) with (unique (prepared t1)).
  change (next_id t1) with (next_id (prepared t1)).
  rewrite same, same_species, same_systems, same_bodies.
  rewrite !same_found; [done|by apply (bool_decide_unpack _)..].
Qed.

End SameTables.

(** X17.  Trying again after a failure.  When a run of the normalizer does
    not complete, whatever failed and wherever, a second run that nothing
    interrupts completes, and leaves the five tables exactly as a single
    uninterrupted run would have left them: the failed run has dropped no
    legacy column, and the teardown of the second discards what the first
    had built. *)
Theorem retry_after_failure {env : environment} (fault1 fault2 : nat → option error) (w : world)
    (t : table) :
  (∀ n, fault2 n = None) →
  db w !! "codex_entries" = Some t →
  ("system" ∈ cols t → Forall (λ c, c ∈ cols t) ["x"; "y"; "z"; "body"]) →
  (Normalize.main fault1 w).1 ≠ Return tt →
  (Normalize.main fault2 (Normalize.main fault1 w).2).1 = Return tt
  ∧ ∀ n, n ∈ normalized_tables →
         db (Normalize.main fault2 (Normalize.main fault1 w).2).2 !! n
         = db (Normalize.main fault2 w).2 !! n.
Proof.
  intros NF Ht Hcols Hfail.
  destruct (failed_run_prepared fault1 (prepared t) w) as (t1 & Ht1 & Hp);
    [by exists t|done|].
  assert (Hin : ∀ c, c ∉ reference_columns → c ∈ cols t1 ↔ c ∈ cols t)
    by (intros c; by apply same_column).
  destruct (normalize_db_spec (db w) t Ht Hcols)
    as (d' & N & Hce & Hsp & Hrg & Hsy & Hbd & _).
  destruct (main_run fault2 NF w d' N) as (_ & D & _).
  destruct (normalize_db_spec (db (Normalize.main fault1 w).2) t1 Ht1)
    as (d1 & N1 & Hce1 & Hsp1 & Hrg1 & Hsy1 & Hbd1 & _).
  { rewrite Hin by (by apply (bool_decide_unpack _)). intros HS.
    specialize (Hcols HS). rewrite !Forall_cons in Hcols |- *.
    rewrite !Hin by (by apply (bool_decide_unpack _)).
    by destruct Hcols as (? & ? & ? & ? & _). }
  destruct (main_run fault2 NF (Normalize.main fault1 w).2 d1 N1) as (R & D1 & _).
  split; [done|]. rewrite D, D1. intros n Hn.
  unfold normalized_tables in Hn. rewrite !elem_of_cons, elem_of_nil in Hn.
  destruct Hn as [->|[->|[->|[->|[->|[]]]]]].
  - by rewrite Hce, Hce1, (same_flat t1 t Hp).
  - by rewrite Hsp, Hsp1, (same_species t1 t Hp).
  - by rewrite Hrg, Hrg1, (same_regions t1 t Hp).
  - by rewrite Hsy, Hsy1, (same_systems t1 t Hp).
  - by rewrite Hbd, Hbd1, (same_bodies t1 t Hp).
Qed.

Section RetryAfterFailureWitness.

#[local] Existing Instance plain.

Lemma retry_after_failure_witness :
  (Normalize.main no_fault
     (Normalize.main (fail_at 11 (ConnectionError "terminated")) loaded).2).1
  = Return tt
  ∧ ∀ n, n ∈ normalized_tables →
         db (Normalize.main no_fault
               (Normalize.main (fail_at 11 (ConnectionError "terminated")) loaded).2).2
         !! n
         = db (Normalize.main no_fault loaded).2 !! n.
Proof.
  apply (retry_after_failure (fail_at 11 (ConnectionError "terminated")) no_fault
           loaded (flat_of (db loaded))).
  - done.
  - by vm_compute.
  - intros _. apply (bool_decide_unpack _). by vm_compute.
  - by vm_compute.
Defined.

End RetryAfterFailureWitness.
